(** * Replay playback scheduler of the Diplomacy animation front end

    A shallow embedding of the playback code of
    [ai_animation/src/main.js] (module-level state, the render-loop tick
    [animate], the timer callbacks and the button handlers) and of the
    phase setter [_setPhase] of the TypeScript variant of the player,
    together with the properties of the playback scheduler that the
    specification states.

    Beyond the scheduler, the file embeds the helpers of [main.js] that
    compute with plain data (the colour arithmetic, the standings, the
    colouring of the supply centres, the table of neighbouring
    provinces, the vertical flip of image data), [updateMapOwnership] of
    [ai_animation/src/map/state.ts] and [buildOwnershipMap] of
    [app/src/map/initMap.ts], with further properties read off the code.

    Conventions of the embedding.
    - JavaScript numbers that the scheduler computes with (indices, clock
      readings in milliseconds, timer delays, message time stamps) are
      integers, modelled as [Z]; a handler reads the clock once.
    - Strings are [string] (sequences of 8-bit code units); the text of a
      replay is ASCII.
    - A JavaScript object used as a dictionary is a [gmap] over its own
      properties when its iteration order is irrelevant, and an association
      list in insertion order when the code iterates over it.  Where the
      code reads such an object by a name taken from the replay as it
      stands (the bucket of a message, the name of a power), the names
      that every object inherits from [Object.prototype] are told apart,
      see [inherited]; the other tables are read by keys that the code
      has put into upper case or joined with a dash, or that come from
      the coordinate file, and none of the inherited names is such a key.
    - Three.js meshes and DOM nodes are represented by the data the code
      stores in them; geometry, camera motion and the eased
      intermediate positions of a running animation are not represented,
      and colours only where a function computes them. *)

From stdpp Require Import base option list gmap strings pretty sorting.
From Stdlib Require Import ZArith Lia Ascii.

Open Scope string_scope.
Open Scope list_scope.
Open Scope stdpp_scope.
Open Scope Z_scope.

(** ** Replay data *)

(** A message record of a phase: [sender], [recipient], [time_sent], [message]. *)
Record Message := mkMessage {
  sender : string;
  recipient : string;
  time_sent : Z;
  message : string
}.

(** A phase: [name], [messages], and [state.units] and [state.centers] in
    [Object.entries] order.  A missing [messages] or [state.units] behaves
    like an empty one everywhere in the playback code ([phase.messages &&
    phase.messages.length], [state?.units]); [centers] is [None] when
    [state?.centers] is missing. *)
Record Phase := mkPhase {
  name : string;
  messages : list Message;
  units : list (string * list string);
  centers : option (list (string * list string))
}.

(** ** Chat windows *)

(** The [div] appended to a messages container.  [entryKey] is a ghost
    field: the identity string the element was created for (the DOM node
    does not carry it); it only serves to state the deduplication law. *)
Record ChatEntry := mkChatEntry {
  className : string;
  shownSender : option string;
  text : string;
  phaseLabel : string;
  entryKey : string
}.

(** The value stored in [chatWindows[power]]. *)
Record ChatWindow := mkChatWindow {
  messagesContainer : list ChatEntry;
  isGlobal : bool;
  seenMessages : gset string
}.

Definition createChatWindow (power : string) (isGlobal : bool)
    (chatWindows : gmap string ChatWindow) : gmap string ChatWindow :=
  <[power := mkChatWindow [] isGlobal ∅]> chatWindows.

(** [createChatWindows]: a GLOBAL window, then one per power of the fixed
    list that is not the viewpoint power. *)
Definition createChatWindows (currentPower : string) : gmap string ChatWindow :=
  let powers := ["AUSTRIA"; "ENGLAND"; "GERMANY"; "ITALY"; "RUSSIA"; "TURKEY"] in
  let otherPowers := filter (λ power, power ≠ currentPower) powers in
  foldl (λ cw power, createChatWindow power false cw)
        (createChatWindow "GLOBAL" true ∅) otherPowers.

(** The bucket a message is shown in. *)
Definition targetPowerOf (currentPower : string) (msg : Message) : string :=
  if decide (recipient msg = "GLOBAL") then "GLOBAL"
  else if decide (sender msg = currentPower) then recipient msg else sender msg.

(** [`${msg.sender}-${msg.recipient}-${msg.time_sent}-${msg.message}`];
    an integer time stamp is rendered in decimal (time stamps are
    integers below 10^21 in magnitude, which JavaScript writes without
    an exponent). *)
Definition msgId (msg : Message) : string :=
  sender msg +:+ "-" +:+ recipient msg +:+ "-" +:+ pretty (time_sent msg)
    +:+ "-" +:+ message msg.

Definition messageElement (currentPower targetPower : string) (msg : Message)
    (phaseName : string) : ChatEntry :=
  if decide (targetPower = "GLOBAL") then
    mkChatEntry "chat-message message-incoming" (Some (sender msg))
                (message msg) phaseName (msgId msg)
  else
    let isOutgoing := bool_decide (sender msg = currentPower) in
    mkChatEntry ("chat-message " +:+
                 (if isOutgoing then "message-outgoing" else "message-incoming"))
                None (message msg) phaseName (msgId msg).

(** The names every plain object inherits from [Object.prototype].  The
    read [obj[name]] of such a name, when the object has no property of
    its own by that name, yields the inherited function (for
    ["__proto__"] the prototype object itself): a value that counts as
    true and has none of the properties the code stores. *)
Definition inheritedNames : list string :=
  ["constructor"; "hasOwnProperty"; "isPrototypeOf"; "propertyIsEnumerable";
   "toLocaleString"; "toString"; "valueOf"; "__proto__"; "__defineGetter__";
   "__defineSetter__"; "__lookupGetter__"; "__lookupSetter__"].

Definition inherited (name : string) : bool := bool_decide (name ∈ inheritedNames).

(** How a call ends: with a result, or with a thrown [TypeError]. *)
Inductive Completion (A : Type) :=
| Returns (result : A)
| Throws.

Arguments Returns {A} result.
Arguments Throws {A}.

Definition throws {A} (c : Completion A) : bool :=
  match c with Throws => true | Returns _ => false end.

(** [addMessageToChat(msg, phaseName)] on the plain object [chatWindows],
    whose own properties are the windows.  The result is [None] for the
    bare [return] (the bucket is no property at all), [Some false] for an
    already seen message and [Some true] for a new one.  A bucket name
    that is only inherited passes the guard [!chatWindows[targetPower]];
    the inherited value has no [seenMessages], so the call of [.has] on
    it throws before anything is changed. *)
Definition addMessageToChat (currentPower : string) (msg : Message)
    (phaseName : string) (chatWindows : gmap string ChatWindow)
    : Completion (option bool) * gmap string ChatWindow :=
  let targetPower := targetPowerOf currentPower msg in
  match chatWindows !! targetPower with
  | None =>
      if inherited targetPower then (Throws, chatWindows)
      else (Returns None, chatWindows)
  | Some w =>
      if decide (msgId msg ∈ seenMessages w) then (Returns (Some false), chatWindows)
      else
        let w' := mkChatWindow
                    (messagesContainer w ++
                       [messageElement currentPower targetPower msg phaseName])
                    (isGlobal w)
                    ({[ msgId msg ]} ∪ seenMessages w) in
        (Returns (Some true), <[targetPower := w']> chatWindows)
  end.

(** The filter of [updateChatWindows]. *)
Definition isRelevant (currentPower : string) (msg : Message) : bool :=
  bool_decide (sender msg = currentPower)
  || bool_decide (recipient msg = currentPower)
  || bool_decide (recipient msg = "GLOBAL").

(** [relevantMessages.sort((a, b) => a.time_sent - b.time_sent)]: the
    stable sort by time stamp. *)
Fixpoint insertByTime (m : Message) (l : list Message) : list Message :=
  match l with
  | [] => [m]
  | m' :: l' =>
      if time_sent m <=? time_sent m' then m :: m' :: l'
      else m' :: insertByTime m l'
  end.

Fixpoint sortByTime (l : list Message) : list Message :=
  match l with
  | [] => []
  | m :: l' => insertByTime m (sortByTime l')
  end.

Definition relevantMessages (currentPower : string) (phase : Phase) : list Message :=
  sortByTime (filter (λ msg, isRelevant currentPower msg = true) (messages phase)).

(** One reveal step as both branches of [updateChatWindows] perform it:
    [addMessageToChat], then [animateHeadNod] when the message is new.
    The messages that got a head animation are collected in a log.  When
    [addMessageToChat] throws, the state is the one it found. *)
Definition revealOne (currentPower phaseName : string)
    (st : gmap string ChatWindow * list Message) (msg : Message)
    : gmap string ChatWindow * list Message :=
  let '(isNew, cw) := addMessageToChat currentPower msg phaseName st.1 in
  (cw, match isNew with
       | Returns (Some true) => st.2 ++ [msg]
       | _ => st.2
       end).

(** The [forEach] over the qualifying messages: one reveal step each, up
    to the first message on which [addMessageToChat] throws. *)
Fixpoint revealAll (currentPower phaseName : string) (relevant : list Message)
    (st : gmap string ChatWindow * list Message)
    : Completion unit * (gmap string ChatWindow * list Message) :=
  match relevant with
  | [] => (Returns (), st)
  | msg :: relevant' =>
      if throws (addMessageToChat currentPower msg phaseName st.1).1
      then (Throws, st)
      else revealAll currentPower phaseName relevant'
             (revealOne currentPower phaseName st msg)
  end.

(** The reveal path of a phase run to its end: the qualifying messages in
    time order, one reveal step each; the state it reaches. *)
Definition revealPath (currentPower : string) (phase : Phase)
    (st : gmap string ChatWindow * list Message)
    : gmap string ChatWindow * list Message :=
  (revealAll currentPower (name phase) (relevantMessages currentPower phase) st).2.

(** Number of elements of a bucket created for identity key [k]. *)
Definition entriesFor (k : string) (bucket : string)
    (chatWindows : gmap string ChatWindow) : nat :=
  match chatWindows !! bucket with
  | None => 0%nat
  | Some w => length (filter (λ e, entryKey e = k) (messagesContainer w))
  end.

(** ** Strings as the code handles them *)

Definition charCode (c : ascii) : Z := Z.of_nat (nat_of_ascii c).

(** [toUpperCase] on ASCII text: the letters a-z are shifted, everything
    else is kept. *)
Definition upperChar (c : ascii) : ascii :=
  let n := nat_of_ascii c in
  if (97 <=? n)%nat && (n <=? 122)%nat then ascii_of_nat (n - 32) else c.

Fixpoint toUpperCase (s : string) : string :=
  match s with
  | EmptyString => EmptyString
  | String c s' => String (upperChar c) (toUpperCase s')
  end.

(** [s.replace(a, b)] with single-character strings: only the first
    occurrence is replaced. *)
Fixpoint replaceFirst (a b : ascii) (s : string) : string :=
  match s with
  | EmptyString => EmptyString
  | String c s' => if Ascii.eqb c a then String b s' else String c (replaceFirst a b s')
  end.

(** [s.split(sep)[0]] *)
Fixpoint splitHead (sep : ascii) (s : string) : string :=
  match s with
  | EmptyString => EmptyString
  | String c s' => if Ascii.eqb c sep then EmptyString else String c (splitHead sep s')
  end.

(** [key.startsWith(p)] *)
Definition startsWith (key p : string) : bool := String.prefix p key.

(** The class [\s] and the line terminators that [.] does not match, on
    code units below 256. *)
Definition isSpace (c : ascii) : bool :=
  let n := nat_of_ascii c in
  (n =? 32)%nat || ((9 <=? n)%nat && (n <=? 13)%nat) || (n =? 160)%nat.

Definition isLineTerminator (c : ascii) : bool :=
  let n := nat_of_ascii c in (n =? 10)%nat || (n =? 13)%nat.

Fixpoint skipSpaces (s : string) : string :=
  match s with
  | EmptyString => EmptyString
  | String c s' => if isSpace c then skipSpaces s' else s
  end.

Fixpoint noLineTerminator (s : string) : bool :=
  match s with
  | EmptyString => true
  | String c s' => negb (isLineTerminator c) && noLineTerminator s'
  end.

Fixpoint lastChar (s : string) : option ascii :=
  match s with
  | EmptyString => None
  | String c EmptyString => Some c
  | String _ s' => lastChar s'
  end.

(** [unitStr.match(/^([AF])\s+(.+)$/)]: the result is the pair of the two
    groups.  The greedy [\s+] takes the whole run of white space after
    the type letter; when nothing follows the run, backtracking gives its
    last character to [.+]. *)
Definition matchUnit (unitStr : string) : option (string * string) :=
  match unitStr with
  | String c (String w rest) =>
      if (Ascii.eqb c "A" || Ascii.eqb c "F") && isSpace w then
        match skipSpaces rest with
        | EmptyString =>
            match lastChar rest with
            | Some l =>
                if isLineTerminator l then None
                else Some (String c EmptyString, String l EmptyString)
            | None => None
            end
        | location =>
            if noLineTerminator location then Some (String c EmptyString, location)
            else None
        end
      else None
  | _ => None
  end.

(** ** Coordinates *)

(** The [label] object of a province of the coordinate file. *)
Record Label := mkLabel { label_x : Z; label_y : Z }.

Record ProvinceData := mkProvinceData {
  label : Label;
  isSupplyCenter : bool
}.

(** [coordinateData]: [provinces] in [Object.entries] order and the keys
    of [coordinates]. *)
Record CoordinateData := mkCoordinateData {
  provinces : list (string * ProvinceData);
  coordinates : gset string
}.

(** A position object [{x, y, z}]; [vz] is [None] where the object has no
    [z] property. *)
Record Vec := mkVec { vx : Z; vy : Z; vz : option Z }.

Fixpoint assoc {V} (k : string) (o : list (string * V)) : option V :=
  match o with
  | [] => None
  | (k', v) :: o' => if decide (k' = k) then Some v else assoc k o'
  end.

(** [x | 0] *)
Definition toInt32 (n : Z) : Z := (n + 2147483648) mod 4294967296 - 2147483648.

(** [hashStringToPosition]: [hash = (hash << 5) - hash + code; hash |= 0]
    for every code unit, then the two remainders ([%] truncates, [>>] is
    the arithmetic shift). *)
Fixpoint hashLoop (hash : Z) (str : string) : Z :=
  match str with
  | EmptyString => hash
  | String c str' =>
      hashLoop (toInt32 (toInt32 (Z.shiftl hash 5) - hash + charCode c)) str'
  end.

Definition hashStringToPosition (str : string) : Vec :=
  let hash := hashLoop 0 str in
  mkVec (Z.rem hash 800 - 400) 0 (Some (Z.rem (Z.shiftr hash 8) 800 - 400)).

Section Playback.

Variable coordinateData : option CoordinateData.
Variable currentPower : string.

Definition getProvincePosition (loc : string) : Vec :=
  let normalized := replaceFirst "/" "_" (toUpperCase loc) in
  let base := splitHead "_" normalized in
  let fallback :=
    let pos := hashStringToPosition loc in
    mkVec (vx pos) (vy pos) (option_map (λ z, z + 100) (vz pos)) in
  match coordinateData with
  | Some data =>
      match assoc normalized (provinces data) with
      | Some p => mkVec (label_x (label p)) 10 (Some (label_y (label p)))
      | None =>
          match assoc base (provinces data) with
          | Some p => mkVec (label_x (label p)) (label_y (label p)) None
          | None => fallback
          end
      end
  | None => fallback
  end.

(** ** Unit meshes and the transition planner *)

(** An entry of [unitMeshes], by its [userData]. *)
Inductive Mesh :=
| SupplyCenterMesh (province : string)
| UnitMesh (power type location : string).

Definition isSupplyCenterMesh (m : Mesh) : bool :=
  match m with SupplyCenterMesh _ => true | UnitMesh _ _ _ => false end.

(** An entry of [unitAnimations]. *)
Record UnitAnimation := mkUnitAnimation {
  object : Mesh;
  startPos : Vec;
  endPos : Vec;
  startTime : Z;
  duration : Z
}.

Definition animationDuration : Z := 1500.

(** [createUnitMesh(unitData)]: the group with its [userData]. *)
Definition createUnitMesh (power type location : string) : Mesh :=
  UnitMesh power type location.

(** [obj[k] = v] on an object kept in insertion order (the keys of the
    table of previous positions contain a dash, so none is an array index
    and [for ... in] visits them in insertion order). *)
Fixpoint objSet {V} (k : string) (v : V) (o : list (string * V)) : list (string * V) :=
  match o with
  | [] => [(k, v)]
  | (k', v') :: o' => if decide (k' = k) then (k', v) :: o' else (k', v') :: objSet k v o'
  end.

(** [delete obj[k]] *)
Fixpoint objDelete {V} (k : string) (o : list (string * V)) : list (string * V) :=
  match o with
  | [] => []
  | (k', v') :: o' => if decide (k' = k) then o' else (k', v') :: objDelete k o'
  end.

Definition unitKey (power type location : string) : string :=
  power +:+ "-" +:+ type +:+ "-" +:+ location.

(** First loop of [animateUnitsForPhase]: the table of previous positions. *)
Definition previousUnitPositionsOf (previousPhase : Phase) : list (string * Vec) :=
  foldl (λ tbl '(power, unitArr),
           foldl (λ tbl unitStr,
                    match matchUnit unitStr with
                    | Some (type, location) =>
                        objSet (unitKey power type location)
                               (getProvincePosition location) tbl
                    | None => tbl
                    end) tbl unitArr)
        [] (units previousPhase).

(** The [for (const prevKey in previousUnitPositions)] loop: the first key
    with the prefix, in insertion order. *)
Fixpoint findPrevKey (p : string) (tbl : list (string * Vec)) : option (string * Vec) :=
  match tbl with
  | [] => None
  | (prevKey, pos) :: tbl' =>
      if startsWith prevKey p then Some (prevKey, pos) else findPrevKey p tbl'
  end.

(** [unitMesh.position.set(startPos.x, 10, startPos.z)]: where a mesh is
    placed for a start position. *)
Definition placeAt (startPos : Vec) : Vec := mkVec (vx startPos) 10 (vz startPos).

(** The planner state: the table of unclaimed previous positions,
    [unitMeshes], the [position] that every mesh created so far was
    given, in the order of creation, and [unitAnimations]. *)
Record PlanState := mkPlanState {
  ps_previous : list (string * Vec);
  ps_meshes : list Mesh;
  ps_positions : list Vec;
  ps_animations : list UnitAnimation
}.

(** Body of the inner [forEach] of the second loop.  The mesh is placed by
    [unitMesh.position.set(startPos.x, 10, startPos.z)]: the height of
    the start position is not used.  [now] is the reading of
    [Date.now()]; the readings of one run of the planner are taken to
    agree. *)
Definition planUnit (now : Z) (power : string) (st : PlanState) (unitStr : string)
    : PlanState :=
  match matchUnit unitStr with
  | None => st
  | Some (unitType, location) =>
      let unitMesh := createUnitMesh (toUpperCase power) unitType location in
      let currentPos := getProvincePosition location in
      let '(startPos, previous) :=
        match findPrevKey (power +:+ "-" +:+ unitType) (ps_previous st) with
        | Some (prevKey, pos) => (pos, objDelete prevKey (ps_previous st))
        | None => (mkVec (vx currentPos) (-20) (vz currentPos), ps_previous st)
        end in
      mkPlanState previous
                  (ps_meshes st ++ [unitMesh])
                  (ps_positions st ++ [placeAt startPos])
                  (ps_animations st ++
                     [mkUnitAnimation unitMesh startPos currentPos now animationDuration])
  end.

(** The two loops of [animateUnitsForPhase(currentPhase, previousPhase)],
    on [unitMeshes]. *)
Definition planPhase (now : Z) (currentPhase previousPhase : Phase)
    (unitMeshes : list Mesh) : PlanState :=
  let st0 := mkPlanState (previousUnitPositionsOf previousPhase) unitMeshes [] [] in
  foldl (λ st '(power, unitArr), foldl (planUnit now power) st unitArr)
        st0 (units currentPhase).

(** [animateUnitsForPhase(currentPhase, previousPhase)], on [unitMeshes];
    the result is the new [unitMeshes] and the new [unitAnimations].
    [now] is the reading of [Date.now()]. *)
Definition animateUnitsForPhase (now : Z) (currentPhase previousPhase : Phase)
    (unitMeshes : list Mesh) : list Mesh * list UnitAnimation :=
  let st := planPhase now currentPhase previousPhase unitMeshes in
  (ps_meshes st, ps_animations st).

(** ** Playback state *)

(** A callback handed to [setTimeout]: the arrow function calling
    [advanceToNextPhase], or the closure [showNext] of one call of
    [updateChatWindows] with the variables it captured ([phase.name],
    [relevantMessages] and the current [index]). *)
Inductive Callback :=
| AdvanceCb
| ShowNextCb (phaseName : string) (relevant : list Message) (index : nat).

(** A pending timeout of the browser. *)
Record Timer := mkTimer { handle : Z; callback : Callback; due : Z }.

(** The module-level variables of [main.js] that playback reads or
    writes, the [disabled] flags of the three buttons, the log of
    [animateHeadNod] calls, and the browser's table of pending timeouts. *)
Record World := mkWorld {
  gameData : option (list Phase);
  currentPhaseIndex : Z;
  unitMeshes : list Mesh;
  isPlaying : bool;
  playbackSpeed : Z;
  playbackTimer : option Z;
  unitAnimations : list UnitAnimation;
  chatWindows : gmap string ChatWindow;
  messagesPlaying : bool;
  prevDisabled : bool;
  nextDisabled : bool;
  playDisabled : bool;
  headNods : list Message;
  timers : list Timer;
  nextHandle : Z
}.

Definition set_gameData v (w : World) : World :=
  mkWorld v (currentPhaseIndex w) (unitMeshes w) (isPlaying w) (playbackSpeed w)
    (playbackTimer w) (unitAnimations w) (chatWindows w) (messagesPlaying w)
    (prevDisabled w) (nextDisabled w) (playDisabled w) (headNods w) (timers w)
    (nextHandle w).
Definition set_currentPhaseIndex v (w : World) : World :=
  mkWorld (gameData w) v (unitMeshes w) (isPlaying w) (playbackSpeed w)
    (playbackTimer w) (unitAnimations w) (chatWindows w) (messagesPlaying w)
    (prevDisabled w) (nextDisabled w) (playDisabled w) (headNods w) (timers w)
    (nextHandle w).
Definition set_unitMeshes v (w : World) : World :=
  mkWorld (gameData w) (currentPhaseIndex w) v (isPlaying w) (playbackSpeed w)
    (playbackTimer w) (unitAnimations w) (chatWindows w) (messagesPlaying w)
    (prevDisabled w) (nextDisabled w) (playDisabled w) (headNods w) (timers w)
    (nextHandle w).
Definition set_isPlaying v (w : World) : World :=
  mkWorld (gameData w) (currentPhaseIndex w) (unitMeshes w) v (playbackSpeed w)
    (playbackTimer w) (unitAnimations w) (chatWindows w) (messagesPlaying w)
    (prevDisabled w) (nextDisabled w) (playDisabled w) (headNods w) (timers w)
    (nextHandle w).
Definition set_playbackSpeed v (w : World) : World :=
  mkWorld (gameData w) (currentPhaseIndex w) (unitMeshes w) (isPlaying w) v
    (playbackTimer w) (unitAnimations w) (chatWindows w) (messagesPlaying w)
    (prevDisabled w) (nextDisabled w) (playDisabled w) (headNods w) (timers w)
    (nextHandle w).
Definition set_playbackTimer v (w : World) : World :=
  mkWorld (gameData w) (currentPhaseIndex w) (unitMeshes w) (isPlaying w)
    (playbackSpeed w) v (unitAnimations w) (chatWindows w) (messagesPlaying w)
    (prevDisabled w) (nextDisabled w) (playDisabled w) (headNods w) (timers w)
    (nextHandle w).
Definition set_unitAnimations v (w : World) : World :=
  mkWorld (gameData w) (currentPhaseIndex w) (unitMeshes w) (isPlaying w)
    (playbackSpeed w) (playbackTimer w) v (chatWindows w) (messagesPlaying w)
    (prevDisabled w) (nextDisabled w) (playDisabled w) (headNods w) (timers w)
    (nextHandle w).
Definition set_chat cw nods (w : World) : World :=
  mkWorld (gameData w) (currentPhaseIndex w) (unitMeshes w) (isPlaying w)
    (playbackSpeed w) (playbackTimer w) (unitAnimations w) cw (messagesPlaying w)
    (prevDisabled w) (nextDisabled w) (playDisabled w) nods (timers w)
    (nextHandle w).
Definition set_messagesPlaying v (w : World) : World :=
  mkWorld (gameData w) (currentPhaseIndex w) (unitMeshes w) (isPlaying w)
    (playbackSpeed w) (playbackTimer w) (unitAnimations w) (chatWindows w) v
    (prevDisabled w) (nextDisabled w) (playDisabled w) (headNods w) (timers w)
    (nextHandle w).
Definition set_buttons prev next play (w : World) : World :=
  mkWorld (gameData w) (currentPhaseIndex w) (unitMeshes w) (isPlaying w)
    (playbackSpeed w) (playbackTimer w) (unitAnimations w) (chatWindows w)
    (messagesPlaying w) prev next play (headNods w) (timers w) (nextHandle w).
Definition set_timers ts next (w : World) : World :=
  mkWorld (gameData w) (currentPhaseIndex w) (unitMeshes w) (isPlaying w)
    (playbackSpeed w) (playbackTimer w) (unitAnimations w) (chatWindows w)
    (messagesPlaying w) (prevDisabled w) (nextDisabled w) (playDisabled w)
    (headNods w) ts next.

(** The state of a freshly loaded page. *)
Definition pageLoad : World :=
  mkWorld None 0 [] false 500 None [] ∅ false true true true [] [] 1.

(** [setTimeout(cb, delay)] at clock reading [now]: the new handle and the
    new world. *)
Definition setTimeout (cb : Callback) (delay now : Z) (w : World) : Z * World :=
  let h := nextHandle w in
  (h, set_timers (timers w ++ [mkTimer h cb (now + delay)]) (h + 1) w).

Definition clearTimeout (h : Z) (w : World) : World :=
  set_timers (filter (λ t, handle t ≠ h) (timers w)) (nextHandle w) w.

(** [playbackTimer = setTimeout(() => advanceToNextPhase(), playbackSpeed)] *)
Definition armAdvance (now : Z) (w : World) : World :=
  let '(h, w') := setTimeout AdvanceCb (playbackSpeed w) now w in
  set_playbackTimer (Some h) w'.

(** [gameData.phases[i]] *)
Definition phaseAt (phases : list Phase) (i : Z) : option Phase :=
  if i <? 0 then None else phases !! Z.to_nat i.

Definition phaseCount (w : World) : Z :=
  match gameData w with
  | Some phases => Z.of_nat (length phases)
  | None => 0
  end.

(** ** Message reveal *)

(** The closure [showNext] at clock reading [now], with the captured
    [phase.name], [relevantMessages] and [index].  When
    [addMessageToChat] throws, the callback ends there: the index is not
    advanced and no timeout is armed. *)
Definition showNext (now : Z) (phaseName : string) (relevant : list Message)
    (index : nat) (w : World) : World :=
  match relevant !! index with
  | None =>
      let w1 := set_messagesPlaying false w in
      if (length (unitAnimations w1) =? 0)%nat && isPlaying w1
      then armAdvance now w1 else w1
  | Some msg =>
      if throws (addMessageToChat currentPower msg phaseName (chatWindows w)).1
      then w
      else
        let '(cw, nods) :=
          revealOne currentPower phaseName (chatWindows w, headNods w) msg in
        let w1 := set_chat cw nods w in
        (setTimeout (ShowNextCb phaseName relevant (S index))
                    (playbackSpeed w1 * 3) now w1).2
  end.

(** [updateChatWindows(phase, stepMessages)].  A [TypeError] thrown by
    [addMessageToChat] ends the call, and with it the handler that made
    it, in the state reached: no caller has a statement of its own
    behind the call that the playback state would show. *)
Definition updateChatWindows (now : Z) (phase : Phase) (stepMessages : bool)
    (w : World) : World :=
  match messages phase with
  | [] => set_messagesPlaying false w
  | _ :: _ =>
      if stepMessages then
        showNext now (name phase) (relevantMessages currentPower phase) 0
                 (set_messagesPlaying true w)
      else
        let '(completion, (cw, nods)) :=
          revealAll currentPower (name phase) (relevantMessages currentPower phase)
                    (chatWindows w, headNods w) in
        let w1 := set_chat cw nods w in
        if throws completion then w1 else set_messagesPlaying false w1
  end.

(** ** Phase display and playback controls *)

Definition prevIndexOf (index len : Z) : Z :=
  if index >? 0 then index - 1 else len - 1.

(** [displayPhaseWithAnimation(index)].  The colouring of the supply
    centres and the leaderboard, which it refreshes on the way, are not
    represented. *)
Definition displayPhaseWithAnimation (now : Z) (index : Z) (w : World) : World :=
  match gameData w with
  | None => w
  | Some phases =>
      let len := Z.of_nat (length phases) in
      if (index <? 0) || (index >=? len) then w
      else
        match phaseAt phases index, phaseAt phases (prevIndexOf index len) with
        | Some currentPhase, Some previousPhase =>
            let w1 := set_unitMeshes (filter (λ m, isSupplyCenterMesh m = true)
                                             (unitMeshes w)) w in
            match messages currentPhase with
            | _ :: _ => updateChatWindows now currentPhase true w1
            | [] =>
                let '(meshes, anims) :=
                  animateUnitsForPhase now currentPhase previousPhase (unitMeshes w1) in
                set_unitAnimations anims (set_unitMeshes meshes w1)
            end
        | _, _ => w
        end
  end.

(** [advanceToNextPhase()] *)
Definition advanceToNextPhase (now : Z) (w : World) : World :=
  match gameData w with
  | None => w
  | Some phases =>
      let len := Z.of_nat (length phases) in
      let w1 :=
        if currentPhaseIndex w >=? len - 1 then set_currentPhaseIndex 0 w
        else set_currentPhaseIndex (currentPhaseIndex w + 1) w in
      displayPhaseWithAnimation now (currentPhaseIndex w1) w1
  end.

(** [togglePlayback()].  A missing phase at the current index makes
    [phase.messages] raise after the flag and the buttons were set. *)
Definition togglePlayback (now : Z) (w : World) : World :=
  match gameData w with
  | None => w
  | Some phases =>
      if Z.of_nat (length phases) <=? 1 then w
      else
        let w1 := set_isPlaying (negb (isPlaying w)) w in
        if isPlaying w1 then
          let w2 := set_buttons true true (playDisabled w1) w1 in
          match phaseAt phases (currentPhaseIndex w2) with
          | None => w2
          | Some phase =>
              match messages phase with
              | _ :: _ => updateChatWindows now phase true w2
              | [] => displayPhaseWithAnimation now (currentPhaseIndex w2) w2
              end
          end
        else
          let w2 :=
            match playbackTimer w1 with
            | Some h => set_playbackTimer None (clearTimeout h w1)
            | None => w1
            end in
          set_buttons false false (playDisabled w2)
            (set_messagesPlaying false (set_unitAnimations [] w2))
  end.

(** ** The render loop *)

(** The callback of [unitAnimations.forEach] for index [k]: with a
    positive [duration] (it is always [animationDuration]),
    [Math.min(1, elapsed / duration) < 1] is [elapsed < duration].  The
    eased position of an unfinished animation is not represented. *)
Definition tickAnimation (now : Z) (k : nat) (anim : UnitAnimation) (w : World)
    : World :=
  if now - startTime anim <? duration anim then w
  else
    let w1 := set_unitAnimations (delete k (unitAnimations w)) w in
    if (length (unitAnimations w1) =? 0)%nat && isPlaying w1
       && negb (messagesPlaying w1)
    then armAdvance now w1 else w1.

(** [unitAnimations.forEach(...)]: the indices [k], [k+1], ... up to the
    length the array had when the loop started ([remaining] counts them
    down); an index that the splices have removed is skipped. *)
Fixpoint forEachAnimation (now : Z) (remaining k : nat) (w : World) : World :=
  match remaining with
  | O => w
  | S remaining' =>
      let w' :=
        match unitAnimations w !! k with
        | Some anim => tickAnimation now k anim w
        | None => w
        end in
      forEachAnimation now remaining' (S k) w'
  end.

(** [animate()] at clock reading [now].  When the phase at the current or
    the previous index is missing, [animateUnitsForPhase] raises on its
    first access and the rest of the frame is abandoned. *)
Definition animate (now : Z) (w : World) : World :=
  let tick w1 := forEachAnimation now (length (unitAnimations w1)) 0 w1 in
  if isPlaying w && negb (messagesPlaying w)
     && (length (unitAnimations w) =? 0)%nat then
    match gameData w with
    | None => tick w
    | Some phases =>
        let len := Z.of_nat (length phases) in
        match phaseAt phases (currentPhaseIndex w),
              phaseAt phases (prevIndexOf (currentPhaseIndex w) len) with
        | Some currentPhase, Some previousPhase =>
            let '(meshes, anims) :=
              animateUnitsForPhase now currentPhase previousPhase (unitMeshes w) in
            tick (set_unitAnimations anims (set_unitMeshes meshes w))
        | _, _ => w
        end
    end
  else tick w.

(** ** Loading a replay *)

(** [displaySupplyCenters()] *)
Definition displaySupplyCenters (unitMeshes : list Mesh) : list Mesh :=
  match coordinateData with
  | None => unitMeshes
  | Some data =>
      foldl (λ ms '(province, d),
               if isSupplyCenter d && bool_decide (province ∈ coordinates data)
               then ms ++ [SupplyCenterMesh province] else ms)
            unitMeshes (provinces data)
  end.

(** The unit loop of [displayInitialPhase], with [displayUnit]. *)
Definition displayUnits (phase : Phase) (unitMeshes : list Mesh) : list Mesh :=
  foldl (λ ms '(power, unitArr),
           foldl (λ ms unitStr,
                    match matchUnit unitStr with
                    | Some (type, location) =>
                        ms ++ [UnitMesh (toUpperCase power) type location]
                    | None => ms
                    end) ms unitArr)
        unitMeshes (units phase).

(** [displayInitialPhase(index)] *)
Definition displayInitialPhase (index : Z) (w : World) : World :=
  match gameData w with
  | None => w
  | Some phases =>
      if (index <? 0) || (index >=? Z.of_nat (length phases)) then w
      else
        match phaseAt phases index with
        | None => w
        | Some phase =>
            let supplyCenters :=
              filter (λ m, isSupplyCenterMesh m = true) (unitMeshes w) in
            set_unitMeshes (displayUnits phase (displaySupplyCenters supplyCenters)) w
        end
  end.

(** The [onload] handler of [loadGame] for a file whose JSON has the list
    [phases]. *)
Definition loadGame (phases : list Phase) (w : World) : World :=
  let w1 := set_currentPhaseIndex 0 (set_gameData (Some phases) w) in
  match phases with
  | [] => w1
  | _ :: _ =>
      let w2 := set_buttons false false false w1 in
      let w3 := set_chat (createChatWindows currentPower) (headNods w2) w2 in
      displayInitialPhase (currentPhaseIndex w3) w3
  end.

(** ** Events *)

(** What the browser can deliver: a render frame, the expiry of a pending
    timeout, a click on one of the three buttons, a change of the speed
    selector, and the arrival of a loaded file. *)
Inductive Event :=
| Frame (now : Z)
| Fire (h : Z) (now : Z)
| ClickPlay (now : Z)
| ClickPrev (now : Z)
| ClickNext (now : Z)
| ChangeSpeed (value : Z) (now : Z)
| LoadFile (phases : list Phase).

Definition findTimer (h : Z) (w : World) : option Timer :=
  head (filter (λ t, handle t = h) (timers w)).

Definition runCallback (now : Z) (cb : Callback) (w : World) : World :=
  match cb with
  | AdvanceCb => advanceToNextPhase now w
  | ShowNextCb phaseName relevant index => showNext now phaseName relevant index w
  end.

(** The handler bodies of the [prev], [next] and speed controls. *)
Definition prevClick (now : Z) (w : World) : World :=
  if currentPhaseIndex w >? 0 then
    let w1 := set_currentPhaseIndex (currentPhaseIndex w - 1) w in
    displayPhaseWithAnimation now (currentPhaseIndex w1) w1
  else w.

Definition nextClick (now : Z) (w : World) : World :=
  match gameData w with
  | None => w
  | Some phases =>
      if currentPhaseIndex w <? Z.of_nat (length phases) - 1 then
        let w1 := set_currentPhaseIndex (currentPhaseIndex w + 1) w in
        displayPhaseWithAnimation now (currentPhaseIndex w1) w1
      else w
  end.

Definition speedChange (now : Z) (value : Z) (w : World) : World :=
  let w1 := set_playbackSpeed value w in
  match playbackTimer w1 with
  | Some h => if isPlaying w1 then armAdvance now (clearTimeout h w1) else w1
  | None => w1
  end.

(** One event.  [None] when the browser cannot deliver it: a timeout that
    is not pending, a click on a disabled button. *)
Definition step (e : Event) (w : World) : option World :=
  match e with
  | Frame now => Some (animate now w)
  | Fire h now =>
      match findTimer h w with
      | Some t => Some (runCallback now (callback t) (clearTimeout h w))
      | None => None
      end
  | ClickPlay now => if playDisabled w then None else Some (togglePlayback now w)
  | ClickPrev now => if prevDisabled w then None else Some (prevClick now w)
  | ClickNext now => if nextDisabled w then None else Some (nextClick now w)
  | ChangeSpeed value now => Some (speedChange now value w)
  | LoadFile phases => Some (loadGame phases w)
  end.

Fixpoint run (es : list Event) (w : World) : option World :=
  match es with
  | [] => Some w
  | e :: es' =>
      match step e w with
      | Some w' => run es' w'
      | None => None
      end
  end.

(** The advance callbacks that are pending. *)
Definition isAdvance (cb : Callback) : bool :=
  match cb with AdvanceCb => true | ShowNextCb _ _ _ => false end.

Definition pendingAdvances (w : World) : list Timer :=
  filter (λ t, isAdvance (callback t) = true) (timers w).


(** ** Timed traces *)

Definition eventTime (e : Event) : option Z :=
  match e with
  | Frame now | Fire _ now | ClickPlay now | ClickPrev now | ClickNext now
  | ChangeSpeed _ now => Some now
  | LoadFile _ => None
  end.

(** An event delivered at [now] is on time when no pending timeout is
    overdue, and a timeout fires exactly when it is due. *)
Definition onTime (e : Event) (w : World) : bool :=
  match eventTime e with
  | None => true
  | Some now =>
      forallb (λ t, now <=? due t) (timers w)
      && match e with
         | Fire h _ =>
             match findTimer h w with
             | Some t => due t =? now
             | None => false
             end
         | _ => true
         end
  end.

(** A trace the browser can deliver with a monotone clock and every
    timeout firing at its due time. *)
Fixpoint punctual (last : Z) (es : list Event) (w : World) : bool :=
  match es with
  | [] => true
  | e :: es' =>
      let now := default last (eventTime e) in
      (last <=? now) && onTime e w
      && match step e w with
         | Some w' => punctual now es' w'
         | None => false
         end
  end.

(** Render frames every [period] milliseconds: [count] frames after [from]. *)
Fixpoint frames (period from : Z) (count : nat) : list Event :=
  match count with
  | O => []
  | S count' => Frame (from + period) :: frames period (from + period) count'
  end.

End Playback.


(** ** The phase setter of the TypeScript variant *)

Module PhaseTs.

(** Calls whose effect lies outside the playback fields: calls into
    modules of the variant that are outside the verified sources
    ([units/create], [domElements], [logger], [units/animate], the game
    loader), the browser's [clearTimeout], and the functions of
    [map/state], which write to the scene, the board and the page.
    [UpdateMapOwnership] stands for what [updateMapOwnership] has done to
    the board when it throws, see [updateMapOwnershipBare]. *)
Inductive Absent :=
| InitUnits (phaseIndex : Z)
| UpdateMapOwnership
| UpdatePhaseDisplay
| UpdateSupplyCenterOwnership
| UpdateLeaderboard
| AddToNewsBanner (line : string)
| UpdateInfoPanel
| UpdateChatWindows
| CreateAnimationsForNextPhase
| LoadNextGame
| ClearTimeout (h : Z)
| LogLine (line : string)
| AnnounceVictory (winner : string) (maxCenters : nat).

Section WithAbsent.

(** What lies outside the playback fields of [gameState]: the scene with
    its unit meshes and the DOM on one side, the debug menu on the other. *)
Context {View Menu : Type}.

(** The playback fields of [gameState], the view and the debug menu. *)
Record GameState := mkGameState {
  phases : list Phase;
  phaseIndex : Z;
  unitAnimations : list UnitAnimation;
  playbackTimer : Z;
  isAnimating : bool;
  messagesPlaying : bool;
  view : View;
  debugMenu : Menu
}.

Definition set_phaseIndex v (s : GameState) : GameState :=
  mkGameState (phases s) v (unitAnimations s) (playbackTimer s) (isAnimating s)
              (messagesPlaying s) (view s) (debugMenu s).
Definition set_unitAnimations v (s : GameState) : GameState :=
  mkGameState (phases s) (phaseIndex s) v (playbackTimer s) (isAnimating s)
              (messagesPlaying s) (view s) (debugMenu s).
Definition set_playbackTimer v (s : GameState) : GameState :=
  mkGameState (phases s) (phaseIndex s) (unitAnimations s) v (isAnimating s)
              (messagesPlaying s) (view s) (debugMenu s).
Definition set_isAnimating v (s : GameState) : GameState :=
  mkGameState (phases s) (phaseIndex s) (unitAnimations s) (playbackTimer s) v
              (messagesPlaying s) (view s) (debugMenu s).
Definition set_messagesPlaying v (s : GameState) : GameState :=
  mkGameState (phases s) (phaseIndex s) (unitAnimations s) (playbackTimer s)
              (isAnimating s) v (view s) (debugMenu s).
Definition set_debugMenu v (s : GameState) : GameState :=
  mkGameState (phases s) (phaseIndex s) (unitAnimations s) (playbackTimer s)
              (isAnimating s) (messagesPlaying s) (view s) v.

(** [config.isDebugMode] *)
Variable isDebugMode : bool.

(** [debugMenuInstance.updateTools()]: the refresh of the debug menu. *)
Variable updateTools : GameState → Menu.

(** The effect of each absent call on the state. *)
Variable absent : Absent → GameState → GameState.

(** How a call ends: normally, or with a thrown [Error]; both carry the
    state reached. *)
Inductive Outcome :=
| Returned (s : GameState)
| Threw (error : string) (s : GameState).

Definition finalState (o : Outcome) : GameState :=
  match o with Returned s | Threw _ s => s end.

(** The winner loop of [displayFinalPhase]. *)
Definition leadingPower (cs : list (string * list string)) : string * nat :=
  foldl (λ '(winner, maxCenters) '(power, provs),
           if (maxCenters <? length provs)%nat then (power, length provs)
           else (winner, maxCenters))
        ("", 0%nat) cs.

(** [displayFinalPhase()] *)
Definition displayFinalPhase (s : GameState) : GameState :=
  match last (phases s) with
  | None => s
  | Some finalPhase =>
      match centers finalPhase with
      | None => absent (LogLine "No supply center data available to determine winner") s
      | Some cs =>
          let '(winner, maxCenters) := leadingPower cs in
          if negb (String.eqb winner "") && (0 <? maxCenters)%nat
          then absent (AnnounceVictory winner maxCenters) s
          else absent (LogLine "Could not determine game winner") s
      end
  end.

(** [updateMapOwnership()] as the phase module calls it, without the
    phase that the function of [map/state] expects: the first loop clears
    the owners on the board, then the read of [currentPhase.units] throws
    a [TypeError]. *)
Definition updateMapOwnershipBare (s : GameState) : Outcome :=
  Threw "TypeError" (absent UpdateMapOwnership s).

(** [displayPhase(skipMessages)].  The call of [updateMapOwnership] ends
    it; what the function has behind that call is kept as the code has
    it. *)
Definition displayPhase (skipMessages : bool) (s : GameState) : Outcome :=
  let index := phaseIndex s in
  if index >=? Z.of_nat (length (phases s)) then
    Returned
      (absent LoadNextGame
         (absent (LogLine "Displayed final phase, moving to next game.")
            (displayFinalPhase s)))
  else if index <? 0 then Returned (absent (LogLine "Invalid phase index.") s)
  else
    match phaseAt (phases s) index with
    | None => Returned s
    | Some currentPhase =>
        let isFirstPhase := index =? 0 in
        let s1 := absent UpdatePhaseDisplay s in
        let s2 := match centers currentPhase with
                  | Some _ => absent UpdateSupplyCenterOwnership s1
                  | None => s1
                  end in
        match updateMapOwnershipBare (absent UpdateLeaderboard s2) with
        | Threw error s3 => Threw error s3
        | Returned s3 =>
            let s4 := absent (AddToNewsBanner ("Phase: " +:+ name currentPhase)) s3 in
            let s5 := absent UpdateInfoPanel s4 in
            let s6 := if negb skipMessages then absent UpdateChatWindows s5
                      else set_messagesPlaying false s5 in
            Returned
              (if negb isFirstPhase && negb skipMessages
               then absent CreateAnimationsForNextPhase s6
               else set_messagesPlaying false
                      (absent (LogLine "No animations for this phase transition") s6))
        end
    end.

(** [_setPhase(phaseIndex)].  An index out of range is rejected with an
    [Error]; a jump ends in the [TypeError] of [updateMapOwnership],
    after the index has been written; a step forward ends normally only
    when it reaches the last phase. *)
Definition _setPhase (index : Z) (s : GameState) : Outcome :=
  let s0 := if isDebugMode then set_debugMenu (updateTools s) s else s in
  let gameLength := Z.of_nat (length (phases s0)) in
  if (index >=? gameLength) || (index <? 0) then
    Threw ("Provided invalid phaseIndex, cannot setPhase to " +:+ pretty index
           +:+ " - game has " +:+ pretty gameLength +:+ " phases") s0
  else if negb (index - phaseIndex s0 =? 1) then
    let s1 := absent (InitUnits index) (set_unitAnimations [] s0) in
    let s2 := set_phaseIndex index s1 in
    match updateMapOwnershipBare s2 with
    | Threw error s3 => Threw error s3
    | Returned s3 => Returned (set_phaseIndex index (absent UpdatePhaseDisplay s3))
    end
  else
    let s1 := if negb (playbackTimer s0 =? 0)
              then set_playbackTimer 0 (absent (ClearTimeout (playbackTimer s0)) s0)
              else s0 in
    let s2 := set_messagesPlaying false (set_isAnimating false s1) in
    let s3 := set_phaseIndex (phaseIndex s2 + 1) s2 in
    if index =? gameLength - 1
    then Returned (set_phaseIndex index (displayFinalPhase s3))
    else
      match displayPhase false s3 with
      | Threw error s4 => Threw error s4
      | Returned s4 => Returned (set_phaseIndex index s4)
      end.

(** The call that every moving branch of [nextPhase] makes, and
    [previousPhase]. *)
Definition stepForward (s : GameState) : Outcome := _setPhase (phaseIndex s + 1) s.
Definition previousPhase (s : GameState) : Outcome := _setPhase (phaseIndex s - 1) s.

(** [showTwoPowerConversation(...)] and [closeTwoPowerConversation()] of
    the conversation component, outside the verified sources; the first
    stands for the mark [moment.hasBeenDisplayed = true] as well. *)
Variable showTwoPowerConversation : GameState → GameState.
Variable closeTwoPowerConversation : GameState → GameState.

(** How a call of [nextPhase] ends: it logs that it is not moving; or it
    shows the conversation of a moment and arms the timeout that will
    ask for the next phase ([momentTimeout]); or it has asked
    [_setPhase] for the next phase. *)
Inductive Advance :=
| NotMoving (s : GameState)
| ConversationShown (s : GameState)
| PhaseAsked (o : Outcome).

(** The callback of the timeout of a moment that is shown during
    playback. *)
Definition momentTimeout (s : GameState) : Outcome :=
  let s1 := closeTwoPowerConversation s in
  _setPhase (phaseIndex s1 + 1) s1.

(** [nextPhase()].  [ready] is the guard [!gameState.isDisplayingMoment &&
    gameState.gameData && gameState.momentsData], [qualifies] the test of
    the moment that [gameState.checkPhaseHasMoment] finds for the current
    phase, and [isPlaying] the flag of that name: three readings of
    [gameState] outside its playback fields.  Without a phase at the
    current index the read of its name throws. *)
Definition nextPhase (ready qualifies isPlaying : bool) (s : GameState) : Advance :=
  if ready then
    match phaseAt (phases s) (phaseIndex s) with
    | None => PhaseAsked (Threw "TypeError" s)
    | Some _ =>
        if qualifies then
          let s1 := showTwoPowerConversation s in
          if isPlaying then ConversationShown s1
          else PhaseAsked (_setPhase (phaseIndex s1 + 1) s1)
        else PhaseAsked (_setPhase (phaseIndex s + 1) s)
    end
  else NotMoving s.

(** The absent calls other than the game loader keep the replay and the
    position in it. *)
Definition keepsReplay : Prop :=
  ∀ c s, c ≠ LoadNextGame →
    phases (absent c s) = phases s ∧ phaseIndex (absent c s) = phaseIndex s.

(** The phase index addresses a phase of the replay. *)
Definition inRange (s : GameState) : Prop :=
  0 ≤ phaseIndex s < Z.of_nat (length (phases s)).

Definition sameReplay (s s' : GameState) : Prop :=
  phases s' = phases s ∧ phaseIndex s' = phaseIndex s.

End WithAbsent.

End PhaseTs.

(** ** The planner as the specification words it *)

(** A unit as the planner reads it: power, type letter, location. *)
Definition Unit : Type := string * string * string.

Definition unitPower (u : Unit) : string := u.1.1.
Definition unitType (u : Unit) : string := u.1.2.
Definition unitLocation (u : Unit) : string := u.2.

(** The unit strings of one power that have the unit form. *)
Definition parseUnits (power : string) (unitArr : list string) : list Unit :=
  omap (λ unitStr,
          match matchUnit unitStr with
          | Some (type, location) => Some (power, type, location)
          | None => None
          end) unitArr.

(** The units of a phase, power by power, in iteration order. *)
Definition unitsOf (phase : Phase) : list Unit :=
  flat_map (λ '(power, unitArr), parseUnits power unitArr) (units phase).

(** The unit count of a phase as the leaderboard tallies it
    ([units.length] summed over the powers). *)
Definition totalUnits (phase : Phase) : nat :=
  foldr (λ '(_, unitArr) n, (length unitArr + n)%nat) 0%nat (units phase).

Definition sameKind (u n : Unit) : bool :=
  bool_decide (unitPower u = unitPower n ∧ unitType u = unitType n).

(** The first unclaimed unit of the power and type of [n], together with
    the units that stay unclaimed. *)
Fixpoint claimFirst (n : Unit) (unclaimed : list Unit) : option (Unit * list Unit) :=
  match unclaimed with
  | [] => None
  | u :: rest =>
      if sameKind u n then Some (u, rest)
      else match claimFirst n rest with
           | Some (v, rest') => Some (v, u :: rest')
           | None => None
           end
  end.

(** What the planner decides for a unit of the new phase. *)
Inductive Planned :=
| MoveFrom (prev new : Unit)
| SpawnAt (new : Unit).

(** Greedy matching in iteration order: every unit of the new phase
    claims the first unclaimed previous unit of its power and type. *)
Fixpoint greedyPlan (unclaimed new : list Unit) : list Planned :=
  match new with
  | [] => []
  | n :: new' =>
      match claimFirst n unclaimed with
      | Some (u, rest) => MoveFrom u n :: greedyPlan rest new'
      | None => SpawnAt n :: greedyPlan unclaimed new'
      end
  end.

(** The previous units that no unit of the new phase claimed. *)
Fixpoint greedyRest (unclaimed new : list Unit) : list Unit :=
  match new with
  | [] => unclaimed
  | n :: new' =>
      match claimFirst n unclaimed with
      | Some (_, rest) => greedyRest rest new'
      | None => greedyRest unclaimed new'
      end
  end.

Definition meshOf (u : Unit) : Mesh :=
  UnitMesh (toUpperCase (unitPower u)) (unitType u) (unitLocation u).

(** A power name without the separator of the position keys. *)
Fixpoint noDash (s : string) : bool :=
  match s with
  | EmptyString => true
  | String c s' => negb (Ascii.eqb c "-") && noDash s'
  end.

(** The key of a unit in the table of previous positions. *)
Definition keyOf (u : Unit) : string :=
  unitKey (unitPower u) (unitType u) (unitLocation u).

Section Planner.

Variable coordinateData : option CoordinateData.

(** The animation of a planned unit: a move runs from the resolved
    coordinate of the claimed unit to the resolved coordinate of the new
    one; a spawn starts 20 below the map plane at the horizontal
    coordinates of its target. *)
Definition realise (now : Z) (p : Planned) : UnitAnimation :=
  match p with
  | MoveFrom prev new =>
      mkUnitAnimation (meshOf new)
        (getProvincePosition coordinateData (unitLocation prev))
        (getProvincePosition coordinateData (unitLocation new))
        now animationDuration
  | SpawnAt new =>
      let target := getProvincePosition coordinateData (unitLocation new) in
      mkUnitAnimation (meshOf new) (mkVec (vx target) (-20) (vz target)) target
        now animationDuration
  end.

(** The row of the table of previous positions for a unit. *)
Definition entryOf (u : Unit) : string * Vec :=
  (keyOf u, getProvincePosition coordinateData (unitLocation u)).

End Planner.

(** ** Notions used by the properties *)

(** A message is settled in a table of windows when revealing it changes
    nothing: its bucket has no window, or the window has seen its key. *)
Definition settled (currentPower : string) (msg : Message)
    (cw : gmap string ChatWindow) : Prop :=
  match cw !! targetPowerOf currentPower msg with
  | None => True
  | Some w => msgId msg ∈ seenMessages w
  end.

(** The bucket has seen the key. *)
Definition seenIn (k bucket : string) (cw : gmap string ChatWindow) : Prop :=
  match cw !! bucket with
  | None => False
  | Some w => k ∈ seenMessages w
  end.

(** Since the count [c0], the bucket gained at most one element for the
    key, and none unless it has seen the key. *)
Definition atMostOneAdded (k bucket : string) (c0 : nat)
    (cw : gmap string ChatWindow) : Prop :=
  (entriesFor k bucket cw ≤ c0)%nat ∨
  ((entriesFor k bucket cw ≤ S c0)%nat ∧ seenIn k bucket cw).

(** Every bucket shows an identity key at most once and has seen every
    key it shows. *)
Definition bucketsDistinct (cw : gmap string ChatWindow) : Prop :=
  ∀ bucket win, cw !! bucket = Some win →
    NoDup (entryKey <$> messagesContainer win)
    ∧ ∀ e, e ∈ messagesContainer win → entryKey e ∈ seenMessages win.

(** A unit whose power name is free of the key separator and whose type
    is one of the two letters. *)
Definition validUnit (u : Unit) : Prop :=
  noDash (unitPower u) = true ∧ (unitType u = "A" ∨ unitType u = "F").

(** The replay and the position in it are the same in both worlds. *)
Definition sameReplay (w w' : World) : Prop :=
  gameData w' = gameData w ∧ currentPhaseIndex w' = currentPhaseIndex w.

(** The phase index addresses a phase of the loaded replay. *)
Definition inRange (w : World) : Prop :=
  match gameData w with
  | Some phases => 0 ≤ currentPhaseIndex w < Z.of_nat (length phases)
  | None => True
  end.

(** A loaded file has at least one phase. *)
Definition loadsReplay (e : Event) : Prop :=
  match e with
  | LoadFile [] => False
  | _ => True
  end.


(** No advance callback is pending. *)
Definition noAdvancePending (w : World) : Prop :=
  Forall (λ t, isAdvance (callback t) = false) (timers w).

(** Playback is off and no advance callback is pending. *)
Definition quiet (w : World) : Prop :=
  isPlaying w = false ∧ noAdvancePending w.

(** Delivering [e] in [w] runs [advanceToNextPhase]. *)
Definition firesAdvance (e : Event) (w : World) : Prop :=
  ∃ h now t, e = Fire h now ∧ findTimer h w = Some t ∧ callback t = AdvanceCb.

Definition isClickPlay (e : Event) : bool :=
  match e with ClickPlay _ => true | _ => false end.

(** ** A small replay and some sessions with it *)

Definition demoCoordinates : option CoordinateData :=
  Some (mkCoordinateData
          [("PAR", mkProvinceData (mkLabel 100 200) true);
           ("BUR", mkProvinceData (mkLabel 150 120) false)]
          {["PAR"]}).

Definition msgA1 : Message := mkMessage "ENGLAND" "FRANCE" 1 "Shall we talk?".
Definition msgA2 : Message := mkMessage "GERMANY" "FRANCE" 2 "Burgundy stays empty.".
Definition msgB1 : Message := mkMessage "ENGLAND" "FRANCE" 3 "Agreed.".
Definition msgB2 : Message := mkMessage "GERMANY" "FRANCE" 4 "You moved to Burgundy!".

(** Two phases with one French army and two messages each. *)
Definition spring : Phase :=
  mkPhase "S1901M" [msgA1; msgA2] [("FRANCE", ["A PAR"])] None.
Definition fall : Phase :=
  mkPhase "F1901M" [msgB1; msgB2] [("FRANCE", ["A BUR"])] None.

(** A message of a power named like a property that every object
    inherits, and the first phase with it in front. *)
Definition msgOdd : Message := mkMessage "constructor" "FRANCE" 1 "Shall we talk?".
Definition springOdd : Phase :=
  mkPhase "S1901M" [msgOdd; msgA2] [("FRANCE", ["A PAR"])] None.

(** The same phases without messages. *)
Definition springSilent : Phase := mkPhase "S1901M" [] [("FRANCE", ["A PAR"])] None.
Definition fallSilent : Phase := mkPhase "F1901M" [] [("FRANCE", ["A BUR"])] None.

(** A phase with messages and no units. *)
Definition springEmpty : Phase := mkPhase "S1901M" [msgA1; msgA2] [] None.
Definition fallEmpty : Phase := mkPhase "F1901M" [] [] None.

(** The provinces of a muster in the west, and its two phases: France
    has two armies and a fleet and England a fleet; then France has
    three armies and a fleet, England a fleet and an army. *)
Definition westCoordinates : option CoordinateData :=
  Some (mkCoordinateData
          [("PAR", mkProvinceData (mkLabel 100 200) true);
           ("MAR", mkProvinceData (mkLabel 110 320) true);
           ("BRE", mkProvinceData (mkLabel 40 180) true);
           ("LON", mkProvinceData (mkLabel 90 60) true);
           ("BUR", mkProvinceData (mkLabel 150 120) false);
           ("GAS", mkProvinceData (mkLabel 60 280) false);
           ("PIC", mkProvinceData (mkLabel 110 130) false);
           ("MAO", mkProvinceData (mkLabel (-60) 250) false);
           ("NTH", mkProvinceData (mkLabel 150 20) false);
           ("LVP", mkProvinceData (mkLabel 70 30) true)]
          ∅).

Definition musterBefore : Phase :=
  mkPhase "S1901M" []
    [("FRANCE", ["A PAR"; "A MAR"; "F BRE"]); ("ENGLAND", ["F LON"])] None.
Definition musterAfter : Phase :=
  mkPhase "F1901M" []
    [("FRANCE", ["A BUR"; "A GAS"; "A PIC"; "F MAO"]); ("ENGLAND", ["F NTH"; "A LVP"])]
    None.

(** Playback at 2000 ms per phase, frames every 16 ms: the army finishes
    its move at 1504, the move is created again at 1520 and finishes at
    3024. *)
Definition slowPlayback : list Event :=
  [LoadFile [springSilent; fallSilent]; ChangeSpeed 2000 0; ClickPlay 0]
    ++ frames 16 0 189.

(** Playback at the default speed, paused at 100 and resumed at 200 while
    the first reveal chain is in flight; both chains run to their end. *)
Definition resumedPlayback : list Event :=
  [LoadFile [springEmpty; fallEmpty]; ClickPlay 0; ClickPlay 100; ClickPlay 200;
   Fire 1 1500; Fire 2 1700; Fire 3 3000; Frame 3008; Fire 4 3200].

(** Playback at the default speed; the speed selector is set to 1000 at
    3000, while the army of the second phase is moving (from 2004 to
    3504) and the timeout recorded in [playbackTimer] has fired. *)
Definition speedChangedMidMove : list Event :=
  [LoadFile [springSilent; fallSilent]; ClickPlay 0] ++ frames 16 0 125
    ++ [Fire 1 2004] ++ frames 16 2000 62 ++ [ChangeSpeed 1000 3000]
    ++ frames 16 2992 32.

(** Playback at the default speed, paused at 100 and resumed at 1400,
    frames every 16 ms, up to the frame at 4528. *)
Definition lateResume : list Event :=
  [LoadFile [spring; fall]; ClickPlay 0] ++ frames 16 0 6 ++ [ClickPlay 100]
    ++ frames 16 96 81 ++ [ClickPlay 1400] ++ frames 16 1392 6 ++ [Fire 1 1500]
    ++ frames 16 1488 88 ++ [Fire 2 2900] ++ frames 16 2896 6 ++ [Fire 3 3000]
    ++ frames 16 2992 31 ++ [Fire 5 3500] ++ frames 16 3488 56 ++ [Fire 4 4400]
    ++ frames 16 4384 9.

(** Its continuation up to the next step of the reveal chain of the
    second phase. *)
Definition lateResumeOn : list Event := frames 16 4528 29 ++ [Fire 6 5000].

(** Playback paused at 100 during the reveal of the first phase, frames
    every 16 ms up to 1488. *)
Definition pausedPlayback : list Event :=
  [LoadFile [spring; fall]; ClickPlay 0] ++ frames 16 0 6 ++ [ClickPlay 100]
    ++ frames 16 96 87.

(** Playback of a replay whose first message comes from the power named
    [constructor]. *)
Definition oddPlayback : list Event := [LoadFile [springOdd; fall]; ClickPlay 0].

(** The session [slowPlayback] up to the frame at 1504, when the first
    advance has just been armed. *)
Definition firstAdvanceArmed : World :=
  default pageLoad
    (run demoCoordinates "FRANCE"
         ([LoadFile [springSilent; fallSilent]; ChangeSpeed 2000 0; ClickPlay 0]
            ++ frames 16 0 94) pageLoad).

(** A state of the TypeScript variant with nothing behind the absent
    calls. *)
Definition bareState (index : Z) : @PhaseTs.GameState unit unit :=
  PhaseTs.mkGameState [spring; fall] index [] 0 false false tt tt.

(** ** Notions and code beyond the stated properties *)

(** A string of white space only. *)
Fixpoint allSpaces (s : string) : bool :=
  match s with
  | EmptyString => true
  | String c s' => isSpace c && allSpaces s'
  end.

(** The string begins with a white space character. *)
Definition startsWithSpace (s : string) : bool :=
  match s with
  | EmptyString => false
  | String c _ => isSpace c
  end.

(** The window [createChatWindow] appends for a power. *)
Definition emptyWindow (isGlobal : bool) : ChatWindow := mkChatWindow [] isGlobal ∅.

(** The powers [createChatWindows] knows. *)
Definition chatPowers : list string :=
  ["AUSTRIA"; "ENGLAND"; "GERMANY"; "ITALY"; "RUSSIA"; "TURKEY"].

(** A message between two powers whose names are free of the separator of
    the identity key. *)
Definition plainNames (msg : Message) : Prop :=
  noDash (sender msg) = true ∧ noDash (recipient msg) = true.

(** A decimal digit, and a string of decimal digits. *)
Definition isDigit (c : ascii) : bool :=
  let n := nat_of_ascii c in (48 <=? n)%nat && (n <=? 57)%nat.

Fixpoint allDigits (s : string) : bool :=
  match s with
  | EmptyString => true
  | String c s' => isDigit c && allDigits s'
  end.

(** Every pending timeout has a handle of its own, below the next handle
    of the browser, and so has the handle recorded in [playbackTimer]. *)
Definition handlesFresh (w : World) : Prop :=
  NoDup (handle <$> timers w)
  ∧ Forall (λ t, handle t < nextHandle w) (timers w)
  ∧ ∀ h, playbackTimer w = Some h → h < nextHandle w.

(** Every unit animation runs for [animationDuration]. *)
Definition uniformAnimations (w : World) : Prop :=
  Forall (λ anim, duration anim = animationDuration) (unitAnimations w).

(** The two step buttons are disabled exactly while playback is on. *)
Definition buttonsFollow (w : World) : Prop :=
  prevDisabled w = isPlaying w ∧ nextDisabled w = isPlaying w.

Definition isLoad (e : Event) : bool :=
  match e with LoadFile _ => true | _ => false end.

(** The windows of [cw] are those of [cw'], each with its elements at the
    head of the container and its seen keys among the seen keys. *)
Definition chatGrows (cw cw' : gmap string ChatWindow) : Prop :=
  dom cw' = dom cw
  ∧ ∀ bucket win, cw !! bucket = Some win →
      ∃ win', cw' !! bucket = Some win'
        ∧ messagesContainer win `prefix_of` messagesContainer win'
        ∧ seenMessages win ⊆ seenMessages win'
        ∧ isGlobal win' = isGlobal win.

(** From [w] to [w'] the chat windows and the log of head animations
    have only grown. *)
Definition grows (w w' : World) : Prop :=
  chatGrows (chatWindows w) (chatWindows w') ∧ headNods w `prefix_of` headNods w'.

(** The expiries of the timeouts of one reveal chain, one per clock
    reading: the handles count up from [h]. *)
Fixpoint chainFires (h : Z) (times : list Z) : list Event :=
  match times with
  | [] => []
  | now :: times' => Fire h now :: chainFires (h + 1) times'
  end.

(** The elements at the odd places of a list (the second, the fourth, ...). *)
Fixpoint oddPlaces {A} (l : list A) : list A :=
  match l with
  | _ :: b :: l' => b :: oddPlaces l'
  | _ => []
  end.

(** The animation has run its time at clock reading [now]. *)
Definition finished (now : Z) (anim : UnitAnimation) : Prop :=
  duration anim ≤ now - startTime anim.

(** ** Colours *)

(** [getPowerHexColor(power)] of [main.js]: [powerColors[power] ||
    '#b19b69'] on an object literal.  For a name that the literal only
    inherits, the read yields the inherited function or object, which
    counts as true and is what the function returns: no string, [None]
    here. *)
Definition getPowerHexColor (power : string) : option string :=
  match assoc power [("AUSTRIA", "#c40000"); ("ENGLAND", "#00008B");
                     ("FRANCE", "#0fa0d0"); ("GERMANY", "#444444");
                     ("ITALY", "#008000"); ("RUSSIA", "#cccccc");
                     ("TURKEY", "#e0c846")] with
  | Some colour => Some colour
  | None => if inherited power then None else Some "#b19b69"
  end.

(** The value of a hexadecimal digit. *)
Definition hexValue (c : ascii) : option Z :=
  let n := nat_of_ascii c in
  if (48 <=? n)%nat && (n <=? 57)%nat then Some (Z.of_nat (n - 48))
  else if (97 <=? n)%nat && (n <=? 102)%nat then Some (Z.of_nat (n - 87))
  else if (65 <=? n)%nat && (n <=? 70)%nat then Some (Z.of_nat (n - 55))
  else None.

(** The value of the longest prefix of hexadecimal digits; [acc] is the
    value of the digits read so far, [None] when there is none yet. *)
Fixpoint hexDigits (acc : option Z) (s : string) : option Z :=
  match s with
  | EmptyString => acc
  | String c s' =>
      match hexValue c with
      | Some d => hexDigits (Some (16 * default 0 acc + d)) s'
      | None => acc
      end
  end.

(** [parseInt(s, 16)]; [None] is [NaN].  Leading white space is skipped,
    a sign and the prefix [0x] are accepted, and the digits are read up
    to the first character that is none. *)
Definition parseInt16 (s : string) : option Z :=
  let trimmed := skipSpaces s in
  let '(sign, unsigned) :=
    match trimmed with
    | String "-" rest => (-1, rest)
    | String "+" rest => (1, rest)
    | _ => (1, trimmed)
    end in
  let digits :=
    match unsigned with
    | String "0" (String "x" rest) => rest
    | String "0" (String "X" rest) => rest
    | _ => unsigned
    end in
  option_map (Z.mul sign) (hexDigits None digits).

(** [s.substr(start, length)] *)
Definition substr (start length : nat) (s : string) : string :=
  String.substring start length s.

(** [Math.min(255, Math.max(0, c + Math.floor(c * percent / 100)))] on a
    channel; a channel that is [NaN] stays [NaN].  [percent] is an
    integer. *)
Definition shiftChannel (percent : Z) (channel : option Z) : option Z :=
  option_map (λ c, Z.min 255 (Z.max 0 (c + (c * percent) `div` 100))) channel.

Definition hexDigit (d : Z) : ascii :=
  match d with
  | 0 => "0" | 1 => "1" | 2 => "2" | 3 => "3" | 4 => "4" | 5 => "5"
  | 6 => "6" | 7 => "7" | 8 => "8" | 9 => "9" | 10 => "a" | 11 => "b"
  | 12 => "c" | 13 => "d" | 14 => "e" | _ => "f"
  end%char.

(** [c.toString(16).padStart(2, '0')] for a channel after the clamp, that
    is an integer from 0 to 255 or [NaN]. *)
Definition twoHexDigits (channel : option Z) : string :=
  match channel with
  | None => "NaN"
  | Some c => String (hexDigit (c `div` 16)) (String (hexDigit (c `mod` 16)) "")
  end.

(** The three channels [colorShift] reads from its argument. *)
Definition channelsOf (hex : string) : option Z * option Z * option Z :=
  (parseInt16 (substr 1 2 hex), parseInt16 (substr 3 2 hex),
   parseInt16 (substr 5 2 hex)).

(** [colorShift(hex, percent)] *)
Definition colorShift (hex : string) (percent : Z) : string :=
  let '(r, g, b) := channelsOf hex in
  "#" +:+ twoHexDigits (shiftChannel percent r)
      +:+ twoHexDigits (shiftChannel percent g)
      +:+ twoHexDigits (shiftChannel percent b).

Definition lightenColor (hex : string) (percent : Z) : string := colorShift hex percent.
Definition darkenColor (hex : string) (percent : Z) : string := colorShift hex (- percent).

(** A colour in the notation [#rrggbb]. *)
Definition isHexColor (s : string) : bool :=
  match s with
  | String "#" (String a (String b (String c (String d (String e (String f ""))))))
    => forallb (λ x, bool_decide (is_Some (hexValue x))) [a; b; c; d; e; f]
  | _ => false
  end.

(** ** Standings *)

(** [counts[power] = list.length] for every entry of an object.  The
    assignment to the name [__proto__] sets no property: the number is
    handed to the setter of the prototype, which ignores it. *)
Definition countsOf (o : list (string * list string)) : list (string * nat) :=
  foldl (λ counts '(power, l),
           if decide (power = "__proto__") then counts
           else objSet power (length l) counts) [] o.

(** [new Set(l)] in insertion order. *)
Definition setAdd (x : string) (s : list string) : list string :=
  if decide (x ∈ s) then s else s ++ [x].

Definition newSet (l : list string) : list string :=
  foldl (λ s x, setAdd x s) [] l.

(** The read [counts[power]] yields a number or [undefined]: the name is
    a property of the object, or it is not inherited either. *)
Definition plainRead (counts : list (string * nat)) (power : string) : bool :=
  bool_decide (is_Some (assoc power counts)) || negb (inherited power).

(** [counts[power] || 0] for a plain read. *)
Definition countOr0 (counts : list (string * nat)) (power : string) : nat :=
  default 0%nat (assoc power counts).

(** [Array.from(allPowers).sort((a, b) => (centerCounts[b] || 0) -
    (centerCounts[a] || 0))]: the stable sort by falling number of
    supply centres. *)
Fixpoint insertByCenters (centerCounts : list (string * nat)) (a : string)
    (l : list string) : list string :=
  match l with
  | [] => [a]
  | b :: l' =>
      if (countOr0 centerCounts b <=? countOr0 centerCounts a)%nat then a :: b :: l'
      else b :: insertByCenters centerCounts a l'
  end.

Fixpoint sortByCenters (centerCounts : list (string * nat)) (l : list string)
    : list string :=
  match l with
  | [] => []
  | a :: l' => insertByCenters centerCounts a (sortByCenters centerCounts l')
  end.

(** [updateLeaderboard(phase)]: the rows of the standings in the order
    they are written, each with the power, its number of supply centres
    and its number of units.  The markup around them is not
    represented.  The result is [None] when a count that is read is an
    inherited function: then the comparator yields [NaN] for some pairs
    and not for others, which leaves the order of the rows to the
    implementation, or a row shows the text of the function. *)
Definition updateLeaderboard (phase : Phase) : option (list (string * nat * nat)) :=
  let centerCounts :=
    match centers phase with
    | Some cs => countsOf cs
    | None => []
    end in
  let unitCounts := countsOf (units phase) in
  let allPowers := newSet (map fst centerCounts ++ map fst unitCounts) in
  if forallb (λ power, plainRead centerCounts power && plainRead unitCounts power)
             allPowers
  then Some (map (λ power,
                    (power, countOr0 centerCounts power, countOr0 unitCounts power))
                 (sortByCenters centerCounts allPowers))
  else None.

(** ** Who owns a supply centre *)

(** The [ownershipMap] loop: [ownershipMap[p.toUpperCase()] =
    power.toUpperCase()] for every listed province. *)
Definition ownershipOf (centers : list (string * list string)) : gmap string string :=
  foldl (λ m '(power, provs),
           foldl (λ m p, <[toUpperCase p := toUpperCase power]> m) m provs)
        ∅ centers.

Definition powerColors : list (string * Z) :=
  [("AUSTRIA", 0xc40000); ("ENGLAND", 0x00008B); ("FRANCE", 0x0fa0d0);
   ("GERMANY", 0x444444); ("ITALY", 0x008000); ("RUSSIA", 0xcccccc);
   ("TURKEY", 0xe0c846)].

Definition gold : Z := 0xFFD700.

(** What the colouring reads and writes of a supply-centre entry of
    [unitMeshes]: [userData.province], the colour of the star and
    whether [userData.pulseAnimation] is set. *)
Record Marker := mkMarker {
  markerProvince : string;
  starColor : Z;
  pulsing : bool
}.

(** A string that counts as true in a condition. *)
Definition truthy (s : string) : bool := negb (String.eqb s "").

(** The body of the [forEach] for one supply-centre entry. *)
Definition colourMarker (ownershipMap : gmap string string) (mk : Marker) : Marker :=
  match ownershipMap !! markerProvince mk with
  | Some owner =>
      if truthy owner then
        mkMarker (markerProvince mk) (default gold (assoc owner powerColors)) true
      else mkMarker (markerProvince mk) gold false
  | None => mkMarker (markerProvince mk) gold false
  end.

(** [updateSupplyCenterOwnership(centers)] on the supply-centre entries
    of [unitMeshes], in their order, and on
    [scene.userData.animatedObjects], where an entry is named by its
    place among the supply-centre entries. *)
Definition updateSupplyCenterOwnership (centers : option (list (string * list string)))
    (st : list Marker * list nat) : list Marker * list nat :=
  match centers with
  | None => st
  | Some cs =>
      let ownershipMap := ownershipOf cs in
      let '(_, markers, animated) :=
        foldl (λ '(i, markers, animated) mk,
                 let mk' := colourMarker ownershipMap mk in
                 (S i, markers ++ [mk'],
                  if pulsing mk' && negb (pulsing mk) then animated ++ [i]
                  else animated))
              (0%nat, [], st.2) st.1 in
      (markers, animated)
  end.

(** The body of the unit loop of [buildOwnershipMap]: a unit claims the
    province it stands in, coast dropped, unless the province has an
    owner. *)
Definition claimProvince (power : string) (m : gmap string string)
    (unitStr : string) : gmap string string :=
  match matchUnit unitStr with
  | Some (_, loc) =>
      let location := splitHead "/" (toUpperCase loc) in
      match m !! location with
      | Some owner =>
          if truthy owner then m else <[location := toUpperCase power]> m
      | None => <[location := toUpperCase power]> m
      end
  | None => m
  end.

(** [buildOwnershipMap(centers, units)] of the map module: the supply
    centres first, then the provinces of the units. *)
Definition buildOwnershipMap (centers units : list (string * list string))
    : gmap string string :=
  foldl (λ m '(power, unitArray), foldl (claimProvince power) m unitArray)
        (ownershipOf centers) units.

(** ** Who owns a province *)

(** The argument of [setHex]: a number, or [NaN]. *)
Inductive Colour :=
| Rgb (n : Z)
| NaNColour.

(** What [updateMapOwnership] reads and writes of an entry of
    [gameState.boardState.provinces]: [owner] (the empty string when the
    province has none: the code only tests the field for truth), whether
    [type] is [WATER], whether there is a [mesh], and the colour of the
    mesh. *)
Record Province := mkProvince {
  provOwner : string;
  provIsWater : bool;
  provHasMesh : bool;
  provColor : Colour
}.

Definition set_provOwner (owner : string) (p : Province) : Province :=
  mkProvince owner (provIsWater p) (provHasMesh p) (provColor p).

(** [s.substring(start)] *)
Definition substringFrom (start : nat) (s : string) : string :=
  String.substring start (String.length s - start) s.

(** [parseInt(colour.substring(1), 16)] for the colour string of an
    owner. *)
Definition colourNumber (colour : string) : Colour :=
  match parseInt16 (substringFrom 1 colour) with
  | Some n => Rgb n
  | None => NaNColour
  end.

(** [toUpperCase().replace('/', '_')], then [split('_')[0]] *)
Definition baseOf (location : string) : string :=
  splitHead "_" (replaceFirst "/" "_" (toUpperCase location)).

(** [provinces[base].owner = power] unless [provinces[base]] is
    undefined. *)
Definition ownProvince (base power : string) (board : gmap string Province)
    : gmap string Province :=
  match board !! base with
  | Some p => <[base := set_provOwner power p]> board
  | None => board
  end.

(** The loop over the array [currentPhase.units]. *)
Definition ownByRecords (unitRecords : list (string * string))
    (board : gmap string Province) : gmap string Province :=
  foldl (λ b '(location, power),
           if truthy location && truthy power
           then ownProvince (baseOf location) power b else b)
        board unitRecords.

(** The loop over [currentPhase.state.units]. *)
Definition ownByStrings (us : list (string * list string))
    (board : gmap string Province) : gmap string Province :=
  foldl (λ b '(power, unitArr),
           foldl (λ b unitStr,
                    match matchUnit unitStr with
                    | Some (_, location) => ownProvince (baseOf location) power b
                    | None => b
                    end) b unitArr)
        board us.

Section MapState.

(** [getPowerHexColor] as the map module imports it from [units/create],
    which is outside the verified sources: the colour string it returns
    for an owner. *)
Variable importedPowerHexColor : string → string.

(** The last loop, for one province. *)
Definition tintProvince (p : Province) : Province :=
  if truthy (provOwner p) && negb (provIsWater p) && provHasMesh p
  then mkProvince (provOwner p) (provIsWater p) (provHasMesh p)
                  (colourNumber (importedPowerHexColor (provOwner p)))
  else p.

(** [updateMapOwnership(currentPhase)] of [map/state.ts], on
    [gameState.boardState.provinces].  [unitRecords] is the array
    [currentPhase.units] with the location and the power of every
    record, empty when the phase has no such array. *)
Definition updateMapOwnership (unitRecords : list (string * string))
    (currentPhase : Phase) (board : gmap string Province) : gmap string Province :=
  let cleared := set_provOwner "" <$> board in
  let owned :=
    match unitRecords with
    | _ :: _ => ownByRecords unitRecords cleared
    | [] => ownByStrings (units currentPhase) cleared
    end in
  tintProvince <$> owned.

End MapState.

(** Two boards with the same provinces, each with the same fields but
    for the owner. *)
Definition sameButOwners (b b' : gmap string Province) : Prop :=
  ∀ k, match b !! k, b' !! k with
       | Some p, Some q =>
           provIsWater q = provIsWater p ∧ provHasMesh q = provHasMesh p
           ∧ provColor q = provColor p
       | None, None => True
       | _, _ => False
       end.

(** Two boards with the same provinces and the same owners. *)
Definition sameOwners (b b' : gmap string Province) : Prop :=
  ∀ k, match b !! k, b' !! k with
       | Some p, Some q => provOwner q = provOwner p
       | None, None => True
       | _, _ => False
       end.

(** ** Neighbouring provinces *)

(** [p1.includes('_')] *)
Fixpoint hasUnderscore (s : string) : bool :=
  match s with
  | EmptyString => false
  | String c s' => Ascii.eqb c "_" || hasUnderscore s'
  end.

(** [adjacency[a].push(b)]; both loops of [buildAdjacencyList] push only
    to lists that exist. *)
Definition pushNeighbour (a b : string) (adjacency : gmap string (list string))
    : gmap string (list string) :=
  match adjacency !! a with
  | Some l => <[a := l ++ [b]]> adjacency
  | None => adjacency
  end.

(** [adjacency[a].push(b); adjacency[b].push(a)] *)
Definition link (a b : string) (adjacency : gmap string (list string))
    : gmap string (list string) :=
  pushNeighbour b a (pushNeighbour a b adjacency).

(** The loop over the pairs [i < j] of the keys.  [near a b] stands for
    the test [dist < dynamicThreshold] of the pair, which the code
    computes in floating point from the coordinates and the names of the
    two provinces. *)
Fixpoint pairLoop (near : string → string → bool) (keys : list string)
    (adjacency : gmap string (list string)) : gmap string (list string) :=
  match keys with
  | [] => adjacency
  | a :: rest =>
      pairLoop near rest
        (foldl (λ adj b, if near a b then link a b adj else adj) adjacency rest)
  end.

Definition knownAdjacencies : list (string * list string) :=
  [("stp", ["fin"; "nwy"; "lvn"; "mos"]); ("naf", ["tun"]);
   ("spa", ["por"; "gas"; "mar"]); ("swe", ["fin"; "nwy"; "den"])].

(** The loop over [knownAdjacencies]. *)
Definition addKnown (adjacency : gmap string (list string))
    : gmap string (list string) :=
  foldl (λ adj '(prov, neighbors),
           match adj !! prov with
           | Some _ =>
               foldl (λ adj n,
                        match adj !! n, adj !! prov with
                        | Some _, Some l =>
                            if bool_decide (n ∈ l) then adj else link prov n adj
                        | _, _ => adj
                        end) adj neighbors
           | None => adj
           end)
        adjacency knownAdjacencies.

(** [buildAdjacencyList()], from the keys of [coordinateData.coordinates]
    in their order. *)
Definition buildAdjacencyList (near : string → string → bool)
    (coordinateKeys : list string) : gmap string (list string) :=
  let adjacency :=
    foldl (λ adj p1, if hasUnderscore p1 then adj else <[p1 := []]> adj)
          ∅ coordinateKeys in
  let keys := newSet (filter (λ p1, hasUnderscore p1 = false) coordinateKeys) in
  addKnown (pairLoop near keys adjacency).

(** Every list of neighbours is free of repetitions and of the province
    itself, and lists only provinces that list the province in turn. *)
Definition tidy (adjacency : gmap string (list string)) : Prop :=
  ∀ a la, adjacency !! a = Some la →
    NoDup la ∧ (a ∉ la) ∧ (∀ b, b ∈ la → ∃ lb, adjacency !! b = Some lb ∧ a ∈ lb).

(** No province of [xs] lists a province of [ys]. *)
Definition apart (adjacency : gmap string (list string)) (xs ys : list string) : Prop :=
  ∀ x y lx, x ∈ xs → y ∈ ys → adjacency !! x = Some lx → y ∉ lx.

(** ** Flipping an image *)

(** [array.slice(from, to)] on a typed array, for [from <= to]. *)
Definition slice (from to : nat) (data : list Z) : list Z :=
  take (to - from) (drop from data).

(** [target.set(source, offset)] on a typed array; [None] is the
    [RangeError] for a source that does not fit. *)
Definition setAt (source : list Z) (offset : nat) (target : list Z)
    : option (list Z) :=
  if (offset + length source <=? length target)%nat
  then Some (take offset target ++ source ++ drop (offset + length source) target)
  else None.

(** The loop of [flipImageDataVertically] from row [y] on, [count] rows
    to go; [temp] is the row buffer. *)
Fixpoint flipRows (count y bytesPerRow height : nat) (temp data : list Z)
    : option (list Z) :=
  match count with
  | O => Some data
  | S count' =>
      let topOffset := (y * bytesPerRow)%nat in
      let bottomOffset := ((height - y - 1) * bytesPerRow)%nat in
      temp' ← setAt (slice topOffset (topOffset + bytesPerRow) data) 0 temp;
      data1 ← setAt (slice bottomOffset (bottomOffset + bytesPerRow) data)
                    topOffset data;
      data2 ← setAt temp' bottomOffset data1;
      flipRows count' (S y) bytesPerRow height temp' data2
  end.

(** [flipImageDataVertically(imageData, width, height)] on
    [imageData.data], for a width and a height that are natural numbers:
    [y] runs from 0 while [y < height / 2]. *)
Definition flipImageDataVertically (data : list Z) (width height : nat)
    : option (list Z) :=
  let bytesPerRow := (width * 4)%nat in
  flipRows ((height + 1) / 2)%nat 0 bytesPerRow height (replicate bytesPerRow 0) data.

(** The first [count] rows of [bytesPerRow] bytes each. *)
Fixpoint rowsOf (bytesPerRow count : nat) (data : list Z) : list (list Z) :=
  match count with
  | O => []
  | S count' => take bytesPerRow data :: rowsOf bytesPerRow count' (drop bytesPerRow data)
  end.

(** Rows of [n] bytes each. *)
Definition uniform (n : nat) (R : list (list Z)) : Prop :=
  Forall (λ r, length r = n) R.

(** The rows after [y] rounds of the loop: the first [y] and the last [y]
    rows of [R0] have changed places with their mirror images. *)
Definition mirrored (y : nat) (R0 R : list (list Z)) : Prop :=
  length R = length R0
  ∧ ∀ i, (i < length R0)%nat →
      R !! i = if decide (i < y ∨ length R0 - y ≤ i)%nat
               then R0 !! (length R0 - 1 - i)%nat else R0 !! i.

(** ** Notions for the planner and for loading *)

(** What holds of an animation the planner creates at clock reading
    [now], given the table of previous positions it started from: it
    starts now, runs for [animationDuration], carries a unit mesh of type
    A or F, ends at the resolved coordinate of that unit's location, and
    starts 20 below the map plane under its end or at a position of the
    table. *)
Definition wellAimed (coordinateData : option CoordinateData) (now : Z)
    (table : list (string * Vec)) (anim : UnitAnimation) : Prop :=
  startTime anim = now ∧ duration anim = animationDuration
  ∧ match object anim with
    | UnitMesh _ t l =>
        (t = "A" ∨ t = "F")
        ∧ endPos anim = getProvincePosition coordinateData l
        ∧ (startPos anim = mkVec (vx (endPos anim)) (-20) (vz (endPos anim))
           ∨ startPos anim ∈ map snd table)
    | SupplyCenterMesh _ => False
    end.

(** ** More of the small replay *)

(** A last phase with supply centres: France holds two, England one. *)
Definition autumn : Phase :=
  mkPhase "W1901A" [] [("FRANCE", ["A PAR"; "F MAR"]); ("ENGLAND", ["F LON"])]
          (Some [("ENGLAND", ["LON"]); ("FRANCE", ["PAR"; "MAR"])]).

(** A state of the TypeScript variant at the phase before the last. *)
Definition beforeAutumn : @PhaseTs.GameState unit unit :=
  PhaseTs.mkGameState [spring; autumn] 0 [] 0 false false tt tt.

(** The replay loaded into a fresh page, and a session that plays it
    through the first reveal. *)
Definition loadedPage : World :=
  loadGame demoCoordinates "FRANCE" [spring; fall] pageLoad.

Definition firstReveal : list Event :=
  [ClickPlay 0; Fire 1 1500; Fire 2 3000; Frame 3016].

(** Two armies that have both arrived at clock reading 2000. *)
Definition twoArrived : World :=
  set_unitAnimations
    [mkUnitAnimation (UnitMesh "FRANCE" "A" "BUR") (mkVec 100 10 (Some 200))
                     (mkVec 150 10 (Some 120)) 0 animationDuration;
     mkUnitAnimation (UnitMesh "FRANCE" "A" "PIC") (mkVec 100 10 (Some 200))
                     (mkVec 120 10 (Some 90)) 0 animationDuration]
    (set_isPlaying true loadedPage).

(** A board of three provinces: Paris owned by Germany before, Burgundy
    without owner, the Channel water. *)
Definition demoBoard : gmap string Province :=
  <["PAR" := mkProvince "GERMANY" false true (Rgb 0x444444)]>
    (<["BUR" := mkProvince "" false true (Rgb 0xb19b69)]>
       (<["ENG" := mkProvince "" true true (Rgb 0x0000ff)]> ∅)).

(** A colour function for the map module: the colours of [main.js], with
    the neutral colour for every other name. *)
Definition demoColours (power : string) : string :=
  default "#b19b69" (getPowerHexColor power).

(** The coordinate file of the small replay. *)
Definition demoData : CoordinateData :=
  mkCoordinateData
    [("PAR", mkProvinceData (mkLabel 100 200) true);
     ("BUR", mkProvinceData (mkLabel 150 120) false)]
    {["PAR"]}.

(** * Properties *)

(** ** Chat windows *)

Section Chat.

Variable currentPower : string.

Lemma addMessageToChat_settled msg phaseName cw :
  settled currentPower msg cw →
  (addMessageToChat currentPower msg phaseName cw).2 = cw ∧
  (addMessageToChat currentPower msg phaseName cw).1 ≠ Returns (Some true).
Proof.
  unfold settled, addMessageToChat.
  destruct (cw !! targetPowerOf currentPower msg) as [w|];
    [|by destruct (inherited _)].
  intros Hin. by rewrite decide_True.
Qed.

Lemma revealOne_settled phaseName st msg :
  settled currentPower msg st.1 → revealOne currentPower phaseName st msg = st.
Proof.
  intros Hs. destruct st as [cw nods]. unfold revealOne. simpl in *.
  destruct (addMessageToChat_settled msg phaseName cw Hs) as [Hcw Hnew].
  destruct (addMessageToChat currentPower msg phaseName cw) as [isNew cw'].
  simpl in *. subst cw'. by destruct isNew as [[[]|]|].
Qed.

(** A reveal step settles its message and keeps settled messages settled. *)
Lemma revealOne_settles phaseName st msg :
  settled currentPower msg (revealOne currentPower phaseName st msg).1.
Proof.
  destruct st as [cw nods]. unfold revealOne, addMessageToChat, settled. simpl.
  destruct (cw !! targetPowerOf currentPower msg) as [w|] eqn:Hw; simpl.
  - destruct (decide (msgId msg ∈ seenMessages w)); simpl.
    + by rewrite Hw.
    + rewrite lookup_insert_eq. simpl. set_solver.
  - destruct (inherited _); simpl; by rewrite Hw.
Qed.

Lemma revealOne_keeps_settled phaseName st msg m :
  settled currentPower m st.1 → settled currentPower m (revealOne currentPower phaseName st msg).1.
Proof.
  destruct st as [cw nods]. unfold revealOne, addMessageToChat, settled. simpl.
  destruct (cw !! targetPowerOf currentPower msg) as [w|] eqn:Hw; simpl;
    [|by destruct (inherited _)].
  destruct (decide (msgId msg ∈ seenMessages w)); simpl; [done|].
  destruct (decide (targetPowerOf currentPower msg = targetPowerOf currentPower m))
    as [Heq|Hne].
  - rewrite <- Heq, Hw, lookup_insert_eq. simpl. set_solver.
  - by rewrite lookup_insert_ne.
Qed.

Lemma reveal_fold_keeps_settled phaseName l st m :
  settled currentPower m st.1 → settled currentPower m (foldl (revealOne currentPower phaseName) st l).1.
Proof.
  revert st. induction l as [|msg l IH]; intros st Hs; simpl; [done|].
  apply IH. by apply revealOne_keeps_settled.
Qed.

Lemma reveal_fold_settles phaseName l st :
  Forall (λ m, settled currentPower m (foldl (revealOne currentPower phaseName) st l).1) l.
Proof.
  revert st. induction l as [|msg l IH]; intros st; simpl; constructor.
  - apply reveal_fold_keeps_settled, revealOne_settles.
  - apply IH.
Qed.

Lemma reveal_fold_noop phaseName l st :
  Forall (λ m, settled currentPower m st.1) l →
  foldl (revealOne currentPower phaseName) st l = st.
Proof.
  induction 1 as [|msg l Hs _ IH]; simpl; [done|].
  by rewrite revealOne_settled.
Qed.

(** [addMessageToChat] throws exactly on a bucket name that is inherited
    and no window. *)
Lemma throws_lookup msg phaseName cw :
  throws (addMessageToChat currentPower msg phaseName cw).1
  = bool_decide (cw !! targetPowerOf currentPower msg = None)
    && inherited (targetPowerOf currentPower msg).
Proof.
  unfold addMessageToChat.
  destruct (cw !! targetPowerOf currentPower msg) as [w|].
  - rewrite bool_decide_eq_false_2 by done. by case_decide.
  - rewrite bool_decide_eq_true_2 by done. by destruct (inherited _).
Qed.

(** A reveal step adds no window and removes none. *)
Lemma revealOne_lookup_None phaseName st msg bucket :
  (revealOne currentPower phaseName st msg).1 !! bucket = None ↔ st.1 !! bucket = None.
Proof.
  destruct st as [cw nods]. unfold revealOne, addMessageToChat. simpl.
  destruct (cw !! targetPowerOf currentPower msg) as [w|] eqn:Hw; simpl;
    [|by destruct (inherited _)].
  destruct (decide (msgId msg ∈ seenMessages w)); simpl; [done|].
  destruct (decide (targetPowerOf currentPower msg = bucket)) as [<-|Hne].
  - rewrite lookup_insert_eq, Hw. done.
  - by rewrite lookup_insert_ne.
Qed.

(** A reveal step that throws leaves the state as it is. *)
Lemma revealOne_thrown phaseName st msg :
  throws (addMessageToChat currentPower msg phaseName st.1).1 = true →
  revealOne currentPower phaseName st msg = st.
Proof.
  intros Ht. apply revealOne_settled. unfold settled.
  rewrite throws_lookup in Ht.
  apply andb_prop in Ht as [Hn%bool_decide_eq_true _]. by rewrite Hn.
Qed.

Lemma revealOne_throws phaseName phaseName' st msg m :
  throws (addMessageToChat currentPower m phaseName'
            (revealOne currentPower phaseName st msg).1).1
  = throws (addMessageToChat currentPower m phaseName' st.1).1.
Proof.
  rewrite !throws_lookup. f_equal. apply bool_decide_ext, revealOne_lookup_None.
Qed.

Lemma revealAll_lookup_None phaseName l st bucket :
  (revealAll currentPower phaseName l st).2.1 !! bucket = None ↔ st.1 !! bucket = None.
Proof.
  revert st. induction l as [|msg l IH]; intros st; cbn [revealAll]; [done|].
  case_match; [done|]. by rewrite IH, revealOne_lookup_None.
Qed.

Lemma revealAll_keeps_settled phaseName l st m :
  settled currentPower m st.1 →
  settled currentPower m (revealAll currentPower phaseName l st).2.1.
Proof.
  revert st. induction l as [|msg l IH]; intros st Hs; cbn [revealAll]; [done|].
  case_match; [done|]. apply IH. by apply revealOne_keeps_settled.
Qed.

(** The [forEach] run a second time stops where it stopped and changes
    nothing. *)
Lemma revealAll_idem phaseName l st :
  revealAll currentPower phaseName l (revealAll currentPower phaseName l st).2
  = revealAll currentPower phaseName l st.
Proof.
  revert st. induction l as [|msg l IH]; intros st; cbn [revealAll]; [done|].
  destruct (throws (addMessageToChat currentPower msg phaseName st.1).1) eqn:Ht.
  - cbn [snd revealAll]. by rewrite Ht.
  - cbn [revealAll].
    assert (Hsame : throws (addMessageToChat currentPower msg phaseName
                      (revealAll currentPower phaseName l
                         (revealOne currentPower phaseName st msg)).2.1).1 = false).
    { rewrite throws_lookup in *.
      rewrite (bool_decide_ext _ (st.1 !! targetPowerOf currentPower msg = None));
        [done|].
      by rewrite revealAll_lookup_None, revealOne_lookup_None. }
    rewrite Hsame. rewrite revealOne_settled; [apply IH|].
    apply revealAll_keeps_settled, revealOne_settles.
Qed.

(** Entries for a key: a reveal step adds at most one, and only when the
    bucket has not seen the key. *)
Lemma messageElement_key tp msg phaseName :
  entryKey (messageElement currentPower tp msg phaseName) = msgId msg.
Proof. unfold messageElement. by destruct (decide _). Qed.

Lemma revealOne_atMostOne phaseName k bucket c0 st msg :
  atMostOneAdded k bucket c0 st.1 →
  atMostOneAdded k bucket c0 (revealOne currentPower phaseName st msg).1.
Proof.
  destruct st as [cw nods]. unfold revealOne, addMessageToChat. simpl.
  destruct (cw !! targetPowerOf currentPower msg) as [w|] eqn:Hw; simpl;
    [|by destruct (inherited _)].
  destruct (decide (msgId msg ∈ seenMessages w)) as [Hin|Hnin]; simpl; [done|].
  unfold atMostOneAdded, entriesFor, seenIn.
  destruct (decide (targetPowerOf currentPower msg = bucket)) as [<-|Hne].
  - rewrite Hw, lookup_insert_eq. simpl.
    rewrite filter_app, length_app. simpl.
    rewrite (filter_cons _ (messageElement _ _ _ _)), messageElement_key.
    destruct (decide (msgId msg = k)) as [<-|Hk]; simpl.
    + intros [Hle|[_ Hs]]; [|done]. right. split; [lia|set_solver].
    + intros [Hle|[Hle Hs]]; [left; lia|].
      right. split; [lia|set_solver].
  - by rewrite lookup_insert_ne.
Qed.

Lemma reveal_fold_atMostOne phaseName k bucket c0 l st :
  atMostOneAdded k bucket c0 st.1 →
  atMostOneAdded k bucket c0 (foldl (revealOne currentPower phaseName) st l).1.
Proof.
  revert st. induction l as [|msg l IH]; intros st Hs; simpl; [done|].
  apply IH. by apply revealOne_atMostOne.
Qed.

Lemma revealAll_atMostOne phaseName k bucket c0 l st :
  atMostOneAdded k bucket c0 st.1 →
  atMostOneAdded k bucket c0 (revealAll currentPower phaseName l st).2.1.
Proof.
  revert st. induction l as [|msg l IH]; intros st Hs; cbn [revealAll]; [done|].
  case_match; [done|]. apply IH. by apply revealOne_atMostOne.
Qed.

(** Without a throw the [forEach] is the fold of the reveal steps. *)
Lemma revealAll_calm phaseName l st :
  Forall (λ m, throws (addMessageToChat currentPower m phaseName st.1).1 = false) l →
  revealAll currentPower phaseName l st
  = (Returns (), foldl (revealOne currentPower phaseName) st l).
Proof.
  intros Hl. revert st Hl. induction l as [|msg l IH]; intros st Hl; [done|].
  apply Forall_cons in Hl as [Hm Hl]. cbn [revealAll foldl]. rewrite Hm.
  apply IH. eapply Forall_impl; [done|]. intros m Hm'. cbn in Hm'.
  by rewrite revealOne_throws.
Qed.

End Chat.


(** ** The transition planner *)

Lemma matchUnit_type unitStr t l :
  matchUnit unitStr = Some (t, l) → t = "A" ∨ t = "F".
Proof.
  unfold matchUnit. intros H.
  destruct unitStr as [|c [|w rest]]; try done.
  destruct (Ascii.eqb c "A") eqn:HA; destruct (Ascii.eqb c "F") eqn:HF;
    simpl in H; try done;
    destruct (isSpace w); try done;
    (apply Ascii.eqb_eq in HA || apply Ascii.eqb_eq in HF); subst c;
    repeat case_match; simplify_eq; auto.
Qed.

Lemma parseUnits_cons power unitStr unitArr :
  parseUnits power (unitStr :: unitArr)
  = match matchUnit unitStr with
    | Some (t, l) => (power, t, l) :: parseUnits power unitArr
    | None => parseUnits power unitArr
    end.
Proof. unfold parseUnits. simpl. by destruct (matchUnit unitStr) as [[t l]|]. Qed.

Lemma parseUnits_valid power unitArr :
  noDash power = true → Forall validUnit (parseUnits power unitArr).
Proof.
  intros Hp. unfold parseUnits. apply Forall_forall. intros u Hu.
  apply list_elem_of_omap in Hu as (unitStr & _ & Hm).
  destruct (matchUnit unitStr) as [[t l]|] eqn:Hmu; [|done]. simplify_eq.
  split; [done|]. by eapply matchUnit_type.
Qed.

Lemma unitsOf_valid phase :
  Forall (λ pu, noDash pu.1 = true) (units phase) → Forall validUnit (unitsOf phase).
Proof.
  unfold unitsOf. induction 1 as [|[power arr] l Hp _ IH]; simpl; [constructor|].
  apply Forall_app. split; [by apply parseUnits_valid|done].
Qed.

Lemma append_cons a s t : String a s +:+ t = String a (s +:+ t).
Proof. reflexivity. Qed.

Lemma append_empty t : "" +:+ t = t.
Proof. reflexivity. Qed.

Lemma prefix_cons a s1 b s2 :
  String.prefix (String a s1) (String b s2)
  = if decide (a = b) then String.prefix s1 s2 else false.
Proof.
  change (String.prefix (String a s1) (String b s2))
    with (if ascii_dec a b then String.prefix s1 s2 else false).
  by destruct (ascii_dec a b), (decide (a = b)).
Qed.

Lemma noDash_cons a s :
  noDash (String a s) = true → a ≠ "-"%char ∧ noDash s = true.
Proof.
  cbn [noDash]. intros [Ha Hs]%andb_prop. split; [|done].
  by apply Ascii.eqb_neq, negb_true_iff.
Qed.

Lemma prefix_dash p p' s s' :
  noDash p = true → noDash p' = true →
  String.prefix (p +:+ String "-" s) (p' +:+ String "-" s')
  = bool_decide (p = p') && String.prefix s s'.
Proof.
  revert p'. induction p as [|a p IH]; intros [|b p'] Hp Hp';
    rewrite ?append_cons, ?append_empty, prefix_cons.
  - by rewrite decide_True.
  - apply noDash_cons in Hp' as [Hb _]. by rewrite decide_False.
  - apply noDash_cons in Hp as [Ha _]. by rewrite decide_False.
  - apply noDash_cons in Hp as [_ Hp]. apply noDash_cons in Hp' as [_ Hp'].
    destruct (decide (a = b)) as [<-|Hab].
    + rewrite (IH p' Hp Hp'). f_equal.
      apply bool_decide_ext. split; congruence.
    + symmetry. apply andb_false_intro1, bool_decide_eq_false. congruence.
Qed.

Lemma append_dash_inj p p' s s' :
  noDash p = true → noDash p' = true →
  p +:+ String "-" s = p' +:+ String "-" s' → p = p' ∧ s = s'.
Proof.
  revert p'. induction p as [|a p IH]; intros [|b p'] Hp Hp' Heq;
    rewrite ?append_cons, ?append_empty in Heq.
  - by simplify_eq.
  - apply noDash_cons in Hp' as [Hb _]. by simplify_eq.
  - apply noDash_cons in Hp as [Ha _]. by simplify_eq.
  - apply noDash_cons in Hp as [_ Hp]. apply noDash_cons in Hp' as [_ Hp'].
    injection Heq as -> Heq. by destruct (IH p' Hp Hp' Heq) as [-> ->].
Qed.

(** With dash-free power names, the prefix test of the planner is the
    test for equal power and equal type. *)
Lemma prefix_unitKey p t p' t' l' :
  noDash p = true → noDash p' = true →
  (t = "A" ∨ t = "F") → (t' = "A" ∨ t' = "F") →
  startsWith (unitKey p' t' l') (p +:+ "-" +:+ t) = bool_decide (p = p' ∧ t = t').
Proof.
  intros Hp Hp' Ht Ht'. unfold startsWith, unitKey.
  change (p +:+ "-" +:+ t) with (p +:+ String "-" t).
  change (p' +:+ "-" +:+ t' +:+ "-" +:+ l')
    with (p' +:+ String "-" (t' +:+ String "-" l')).
  rewrite prefix_dash by done.
  destruct (decide (p = p')) as [->|Hne].
  - rewrite bool_decide_eq_true_2 by done.
    destruct Ht as [->| ->], Ht' as [->| ->]; cbn [andb].
    + rewrite bool_decide_eq_true_2 by done. by vm_compute.
    + rewrite bool_decide_eq_false_2 by (by intros [_ ?]). by vm_compute.
    + rewrite bool_decide_eq_false_2 by (by intros [_ ?]). by vm_compute.
    + rewrite bool_decide_eq_true_2 by done. by vm_compute.
  - rewrite !bool_decide_eq_false_2; [done| by intros [? _] | done].
Qed.

Lemma unitKey_inj p t l p' t' l' :
  noDash p = true → noDash p' = true →
  (t = "A" ∨ t = "F") → (t' = "A" ∨ t' = "F") →
  unitKey p t l = unitKey p' t' l' → p = p' ∧ t = t' ∧ l = l'.
Proof.
  intros Hp Hp' Ht Ht'. unfold unitKey.
  change (p +:+ "-" +:+ t +:+ "-" +:+ l)
    with (p +:+ String "-" (t +:+ String "-" l)).
  change (p' +:+ "-" +:+ t' +:+ "-" +:+ l')
    with (p' +:+ String "-" (t' +:+ String "-" l')).
  intros [-> Heq]%append_dash_inj; [|done..]. split; [done|].
  destruct Ht as [->| ->], Ht' as [->| ->];
    rewrite ?append_cons, ?append_empty in Heq; by simplify_eq.
Qed.

Lemma keyOf_inj u v : validUnit u → validUnit v → keyOf u = keyOf v → u = v.
Proof.
  destruct u as [[p t] l], v as [[p' t'] l']. intros [Hp Ht] [Hp' Ht'] Heq.
  unfold keyOf, unitPower, unitType, unitLocation in *. simpl in *.
  destruct (unitKey_inj _ _ _ _ _ _ Hp Hp' Ht Ht' Heq) as (-> & -> & ->). done.
Qed.

Lemma startsWith_keyOf n u :
  validUnit n → validUnit u →
  startsWith (keyOf u) (unitPower n +:+ "-" +:+ unitType n) = sameKind u n.
Proof.
  intros [Hnp Hnt] [Hup Hut]. unfold keyOf, sameKind.
  rewrite (prefix_unitKey _ _ _ _ _ Hnp Hup Hnt Hut).
  apply bool_decide_ext. split; intros [? ?]; done.
Qed.

Lemma claimFirst_found n unclaimed v rest :
  claimFirst n unclaimed = Some (v, rest) → v ∈ unclaimed ∧ sameKind v n = true.
Proof.
  revert v rest. induction unclaimed as [|u us IH]; intros v rest; simpl; [done|].
  destruct (sameKind u n) eqn:Hk.
  - intros [= <- <-]. split; [left|done].
  - destruct (claimFirst n us) as [[v' rest']|]; [|done].
    intros [= <- <-]. destruct (IH v' rest' eq_refl) as [Hin Hs].
    split; [by right|done].
Qed.

Section PlannerFacts.

Variable coordinateData : option CoordinateData.

Local Abbreviation entry := (entryOf coordinateData).
Local Abbreviation table := (map (entryOf coordinateData)).
Local Abbreviation position := (getProvincePosition coordinateData).

Lemma objSet_fresh (u : Unit) (acc : list Unit) :
  Forall (λ v, keyOf v ≠ keyOf u) acc →
  objSet (keyOf u) (position (unitLocation u)) (table acc) = table (acc ++ [u]).
Proof.
  induction 1 as [|v acc Hne _ IH]; [done|].
  cbn [map app objSet]. unfold entryOf at 1. cbn [fst snd].
  rewrite decide_False by done. exact (f_equal (cons (entry v)) IH).
Qed.

(** The table built by the first loop lists the previous units in
    iteration order. *)
Lemma previous_table_inner power unitArr acc :
  Forall validUnit (acc ++ parseUnits power unitArr) →
  NoDup (acc ++ parseUnits power unitArr) →
  foldl (λ tbl unitStr,
           match matchUnit unitStr with
           | Some (type, location) =>
               objSet (unitKey power type location) (position location) tbl
           | None => tbl
           end) (table acc) unitArr
  = table (acc ++ parseUnits power unitArr).
Proof.
  revert acc. induction unitArr as [|unitStr arr IH]; intros acc Hv Hnd.
  - by rewrite app_nil_r.
  - rewrite parseUnits_cons in *. cbn [foldl].
    destruct (matchUnit unitStr) as [[t l]|] eqn:Hm.
    + set (u := (power, t, l) : Unit) in *.
      assert (Hfresh : Forall (λ v, keyOf v ≠ keyOf u) acc).
      { apply Forall_forall. intros v Hin Heq.
        apply NoDup_app in Hnd as (_ & Hdisj & _).
        apply Forall_app in Hv as [Hacc Hu]. apply Forall_cons in Hu as [Hu _].
        assert (v = u) as ->.
        { apply keyOf_inj; [|done..]. by eapply Forall_forall in Hacc. }
        apply (Hdisj u); [done|]. left. }
      change (unitKey power t l) with (keyOf u).
      change (position l) with (position (unitLocation u)).
      rewrite (objSet_fresh u acc Hfresh).
      rewrite (IH (acc ++ [u])); rewrite <- ?app_assoc; done.
    + by apply IH.
Qed.

Lemma previous_table_outer (us : list (string * list string)) acc :
  Forall validUnit (acc ++ flat_map (λ '(power, unitArr), parseUnits power unitArr) us) →
  NoDup (acc ++ flat_map (λ '(power, unitArr), parseUnits power unitArr) us) →
  foldl (λ tbl '(power, unitArr),
           foldl (λ tbl unitStr,
                    match matchUnit unitStr with
                    | Some (type, location) =>
                        objSet (unitKey power type location) (position location) tbl
                    | None => tbl
                    end) tbl unitArr)
        (table acc) us
  = table (acc ++ flat_map (λ '(power, unitArr), parseUnits power unitArr) us).
Proof.
  revert acc. induction us as [|[power arr] us IH]; intros acc Hv Hnd.
  - by rewrite app_nil_r.
  - cbn [foldl flat_map] in *. rewrite app_assoc in Hv, Hnd.
    rewrite previous_table_inner.
    + rewrite IH; [by rewrite <- app_assoc|done..].
    + by apply Forall_app in Hv as [? _].
    + by apply NoDup_app in Hnd as (? & _ & _).
Qed.

Lemma previous_table previousPhase :
  Forall (λ pu, noDash pu.1 = true) (units previousPhase) →
  NoDup (unitsOf previousPhase) →
  previousUnitPositionsOf coordinateData previousPhase = table (unitsOf previousPhase).
Proof.
  intros Hp Hnd. unfold previousUnitPositionsOf.
  apply (previous_table_outer (units previousPhase) []); [|done].
  by apply unitsOf_valid.
Qed.

(** The search loop of the planner finds what [claimFirst] claims. *)
Lemma findPrevKey_claimFirst (n : Unit) (unclaimed : list Unit) :
  validUnit n → Forall validUnit unclaimed →
  match claimFirst n unclaimed with
  | Some (u, rest) =>
      findPrevKey (unitPower n +:+ "-" +:+ unitType n) (table unclaimed)
        = Some (entry u)
      ∧ objDelete (keyOf u) (table unclaimed) = table rest
      ∧ Forall validUnit rest
  | None =>
      findPrevKey (unitPower n +:+ "-" +:+ unitType n) (table unclaimed) = None
  end.
Proof.
  intros Hn. induction 1 as [|u us Hu Hus IH]; [done|].
  unfold entryOf in *. cbn [claimFirst map findPrevKey].
  rewrite (startsWith_keyOf n u Hn Hu).
  destruct (sameKind u n) eqn:Hk.
  - split; [done|]. cbn [objDelete]. rewrite decide_True by done. done.
  - destruct (claimFirst n us) as [[v rest]|] eqn:Hc; [|done].
    destruct IH as (Hf & Hd & Hr). split; [done|]. split; [|by constructor].
    cbn [objDelete map].
    destruct (decide (keyOf u = keyOf v)) as [Heq|_]; [|by rewrite Hd].
    destruct (claimFirst_found _ _ _ _ Hc) as [Hin Hs].
    assert (u = v) as ->.
    { apply keyOf_inj; [done| |done]. by eapply Forall_forall in Hus. }
    congruence.
Qed.

End PlannerFacts.

Section PlannerTheorems.

Variable coordinateData : option CoordinateData.

Local Abbreviation table := (map (entryOf coordinateData)).

Lemma greedyPlan_app unclaimed a b :
  greedyPlan unclaimed (a ++ b)
  = greedyPlan unclaimed a ++ greedyPlan (greedyRest unclaimed a) b.
Proof.
  revert unclaimed. induction a as [|n a IH]; intros unclaimed; simpl; [done|].
  destruct (claimFirst n unclaimed) as [[u rest]|]; simpl; by rewrite IH.
Qed.

Lemma greedyRest_app unclaimed a b :
  greedyRest unclaimed (a ++ b) = greedyRest (greedyRest unclaimed a) b.
Proof.
  revert unclaimed. induction a as [|n a IH]; intros unclaimed; simpl; [done|].
  destruct (claimFirst n unclaimed) as [[u rest]|]; simpl; by rewrite IH.
Qed.

(** One power of the second loop against the greedy plan. *)
Lemma plan_power now power unitArr unclaimed (st : PlanState) :
  noDash power = true → Forall validUnit unclaimed →
  ps_previous st = table unclaimed →
  let parsed := parseUnits power unitArr in
  let st' := foldl (planUnit coordinateData now power) st unitArr in
  ps_previous st' = table (greedyRest unclaimed parsed)
  ∧ ps_animations st'
    = ps_animations st
        ++ map (realise coordinateData now) (greedyPlan unclaimed parsed)
  ∧ Forall validUnit (greedyRest unclaimed parsed).
Proof.
  intros Hp. revert unclaimed st.
  induction unitArr as [|unitStr arr IH]; intros unclaimed st Hv Hst parsed st'.
  - subst parsed st'. simpl. by rewrite !app_nil_r.
  - subst parsed st'. rewrite parseUnits_cons. cbn [foldl].
    destruct (matchUnit unitStr) as [[t l]|] eqn:Hm.
    2:{ unfold planUnit at 2 4. rewrite Hm. by apply IH. }
    set (n := (power, t, l) : Unit).
    assert (Hn : validUnit n).
    { split; [done|]. by eapply matchUnit_type. }
    pose proof (findPrevKey_claimFirst coordinateData n unclaimed Hn Hv) as Hfind.
    cbn [greedyPlan greedyRest].
    destruct (claimFirst n unclaimed) as [[u rest]|].
    + destruct Hfind as (Hfound & Hdel & Hrest).
      destruct (IH rest (planUnit coordinateData now power st unitStr) Hrest)
        as (-> & -> & Hr).
      { unfold planUnit. rewrite Hm, Hst.
        change (power +:+ "-" +:+ t) with (unitPower n +:+ "-" +:+ unitType n).
        rewrite Hfound. unfold entryOf at 1. cbn [ps_previous]. exact Hdel. }
      split; [done|]. split; [|done].
      unfold planUnit at 1. rewrite Hm, Hst.
      change (power +:+ "-" +:+ t) with (unitPower n +:+ "-" +:+ unitType n).
      rewrite Hfound. unfold entryOf at 1. cbn [ps_animations map realise].
      by rewrite <- app_assoc.
    + destruct (IH unclaimed (planUnit coordinateData now power st unitStr) Hv)
        as (-> & -> & Hr).
      { unfold planUnit. rewrite Hm, Hst.
        change (power +:+ "-" +:+ t) with (unitPower n +:+ "-" +:+ unitType n).
        by rewrite Hfind. }
      split; [done|]. split; [|done].
      unfold planUnit at 1. rewrite Hm, Hst.
      change (power +:+ "-" +:+ t) with (unitPower n +:+ "-" +:+ unitType n).
      rewrite Hfind. cbn [ps_animations map realise].
      by rewrite <- app_assoc.
Qed.

Lemma plan_powers now (us : list (string * list string)) unclaimed (st : PlanState) :
  Forall (λ pu, noDash pu.1 = true) us → Forall validUnit unclaimed →
  ps_previous st = table unclaimed →
  let new := flat_map (λ '(power, unitArr), parseUnits power unitArr) us in
  ps_animations
    (foldl (λ st '(power, unitArr), foldl (planUnit coordinateData now power) st unitArr)
           st us)
  = ps_animations st ++ map (realise coordinateData now) (greedyPlan unclaimed new).
Proof.
  intros Hus. revert unclaimed st.
  induction Hus as [|[power arr] us Hp _ IH]; intros unclaimed st Hv Hst new.
  - subst new. simpl. by rewrite !app_nil_r.
  - subst new. cbn [foldl flat_map].
    destruct (plan_power now power arr unclaimed st Hp Hv Hst) as (Hprev & Hanims & Hr).
    rewrite (IH _ _ Hr Hprev), Hanims.
    by rewrite greedyPlan_app, !map_app, !app_assoc.
Qed.

(** Every mesh the planner creates is placed at height 10 over the
    horizontal coordinates of the start of its animation. *)
Lemma planUnit_positions now power (st : PlanState) unitStr :
  ps_positions st = map (λ anim, placeAt (startPos anim)) (ps_animations st) →
  ps_positions (planUnit coordinateData now power st unitStr)
  = map (λ anim, placeAt (startPos anim))
        (ps_animations (planUnit coordinateData now power st unitStr)).
Proof.
  intros Hst. unfold planUnit.
  destruct (matchUnit unitStr) as [[t l]|]; [|done].
  destruct (findPrevKey _ _) as [[k pos]|];
    cbn [ps_positions ps_animations]; by rewrite map_app, Hst.
Qed.

Lemma plan_positions now (us : list (string * list string)) (st : PlanState) :
  ps_positions st = map (λ anim, placeAt (startPos anim)) (ps_animations st) →
  let st' := foldl (λ st '(power, unitArr),
                      foldl (planUnit coordinateData now power) st unitArr) st us in
  ps_positions st' = map (λ anim, placeAt (startPos anim)) (ps_animations st').
Proof.
  revert st. induction us as [|[power arr] us IH]; intros st Hst; [done|].
  cbn [foldl]. apply IH. clear IH. revert st Hst.
  induction arr as [|unitStr arr IHa]; intros st Hst; [done|].
  cbn [foldl]. by apply IHa, planUnit_positions.
Qed.

Lemma planPhase_positions now currentPhase previousPhase unitMeshes :
  let plan := planPhase coordinateData now currentPhase previousPhase unitMeshes in
  ps_positions plan = map (λ anim, placeAt (startPos anim)) (ps_animations plan).
Proof. unfold planPhase. by apply plan_positions. Qed.

(** The planner adds one mesh and one animation per unit string of the
    unit form, whatever the previous phase is. *)
Lemma plan_counts now (us : list (string * list string)) (st : PlanState) :
  let new := flat_map (λ '(power, unitArr), parseUnits power unitArr) us in
  let st' := foldl (λ st '(power, unitArr),
                      foldl (planUnit coordinateData now power) st unitArr) st us in
  ps_meshes st' = ps_meshes st ++ map meshOf new
  ∧ map object (ps_animations st') = map object (ps_animations st) ++ map meshOf new.
Proof.
  revert st. induction us as [|[power arr] us IH]; intros st new st'.
  - subst new st'. simpl. by rewrite !app_nil_r.
  - subst new st'. cbn [foldl flat_map].
    assert (Hin : ∀ st0,
      let st1 := foldl (planUnit coordinateData now power) st0 arr in
      ps_meshes st1 = ps_meshes st0 ++ map meshOf (parseUnits power arr)
      ∧ map object (ps_animations st1)
        = map object (ps_animations st0) ++ map meshOf (parseUnits power arr)).
    { clear. induction arr as [|unitStr arr IHa]; intros st0 st1.
      - subst st1. simpl. by rewrite !app_nil_r.
      - subst st1. rewrite parseUnits_cons. cbn [foldl].
        destruct (IHa (planUnit coordinateData now power st0 unitStr)) as [-> ->].
        unfold planUnit.
        destruct (matchUnit unitStr) as [[t l]|]; [|done].
        destruct (findPrevKey _ _) as [[k pos]|];
          cbn [ps_meshes ps_animations map]; rewrite map_app, <- !app_assoc; done. }
    destruct (IH (foldl (planUnit coordinateData now power) st arr)) as [-> ->].
    destruct (Hin st) as [-> ->].
    by rewrite !map_app, !app_assoc.
Qed.

End PlannerTheorems.



(** C8, as the code has it.  After the planner has run, the animations
    and the meshes it added are, in order, those of the unit strings of
    the new phase that have the unit form; strings of another form add
    nothing. *)
Theorem planner_animates_wellformed_units (coordinateData : option CoordinateData)
    (now : Z) (currentPhase previousPhase : Phase) (unitMeshes : list Mesh) :
  let result :=
    animateUnitsForPhase coordinateData now currentPhase previousPhase unitMeshes in
  length result.2 = length (unitsOf currentPhase)
  ∧ map object result.2 = map meshOf (unitsOf currentPhase)
  ∧ result.1 = unitMeshes ++ map meshOf (unitsOf currentPhase).
Proof.
  intros result. subst result. unfold animateUnitsForPhase, planPhase.
  destruct (plan_counts coordinateData now (units currentPhase)
              (mkPlanState (previousUnitPositionsOf coordinateData previousPhase)
                           unitMeshes [] [])) as [Hm Ha].
  cbn [fst snd ps_meshes ps_animations map app] in *.
  split; [|done].
  by rewrite <- (length_map object), Ha, length_map.
Qed.

(** C8, as stated, fails: a string that is not of the unit form is counted
    by the tally of the phase and gets no animation. *)
Lemma planner_skips_malformed_unit :
  let phase := mkPhase "F1901M" [] [("FRANCE", ["A PAR"; "PAR"])] None in
  length (animateUnitsForPhase None 0 phase phase []).2 = 1%nat
  ∧ totalUnits phase = 2%nat
  ∧ length (animateUnitsForPhase None 0 phase phase []).2 ≠ totalUnits phase.
Proof. by vm_compute. Qed.

(** ** Playback: what the handlers leave alone *)

Section PlaybackFacts.

Variable coordinateData : option CoordinateData.
Variable currentPower : string.


Lemma sameReplay_trans w1 w2 w3 :
  sameReplay w1 w2 → sameReplay w2 w3 → sameReplay w1 w3.
Proof. intros [? ?] [? ?]. split; congruence. Qed.

Ltac frame :=
  repeat first [ done | progress cbn | case_match | split ].

Lemma armAdvance_replay now w : sameReplay w (armAdvance now w).
Proof. unfold sameReplay, armAdvance, setTimeout. frame. Qed.

Lemma showNext_replay now phaseName relevant index w :
  sameReplay w (showNext currentPower now phaseName relevant index w).
Proof.
  unfold sameReplay, showNext, armAdvance, setTimeout, revealOne. frame.
Qed.

Lemma updateChatWindows_replay now phase stepMessages w :
  sameReplay w (updateChatWindows currentPower now phase stepMessages w).
Proof.
  unfold updateChatWindows. destruct (messages phase); [done|].
  destruct stepMessages.
  - eapply sameReplay_trans; [|apply showNext_replay]. done.
  - unfold sameReplay. frame.
Qed.

Lemma displayPhaseWithAnimation_replay now index w :
  sameReplay w (displayPhaseWithAnimation coordinateData currentPower now index w).
Proof.
  unfold displayPhaseWithAnimation.
  repeat case_match; try done.
  eapply sameReplay_trans; [|apply updateChatWindows_replay]. done.
Qed.

Lemma tickAnimation_replay now k anim w : sameReplay w (tickAnimation now k anim w).
Proof. unfold sameReplay, tickAnimation, armAdvance, setTimeout. frame. Qed.

Lemma forEachAnimation_replay now remaining k w :
  sameReplay w (forEachAnimation now remaining k w).
Proof.
  revert k w. induction remaining as [|r IH]; intros k w; [done|].
  cbn [forEachAnimation].
  eapply sameReplay_trans; [|apply IH].
  case_match; [apply tickAnimation_replay|done].
Qed.

Lemma animate_replay now w : sameReplay w (animate coordinateData now w).
Proof.
  unfold animate.
  repeat case_match; try done; try apply forEachAnimation_replay.
  eapply sameReplay_trans; [|apply forEachAnimation_replay]. done.
Qed.

Lemma togglePlayback_replay now w : sameReplay w (togglePlayback coordinateData currentPower now w).
Proof.
  unfold togglePlayback.
  repeat case_match; try done;
    (eapply sameReplay_trans;
     [|first [apply updateChatWindows_replay
             |apply displayPhaseWithAnimation_replay]]; done).
Qed.

Lemma displayInitialPhase_replay index w :
  sameReplay w (displayInitialPhase coordinateData index w).
Proof. unfold displayInitialPhase. repeat case_match; done. Qed.

(** ** The phase index *)

Lemma inRange_sameReplay w w' : sameReplay w w' → inRange w → inRange w'.
Proof. unfold inRange. intros [-> ->]. done. Qed.

Lemma advanceToNextPhase_index now w phases :
  gameData w = Some phases →
  currentPhaseIndex (advanceToNextPhase coordinateData currentPower now w)
  = if currentPhaseIndex w >=? Z.of_nat (length phases) - 1 then 0
    else currentPhaseIndex w + 1.
Proof.
  intros Hg. unfold advanceToNextPhase. rewrite Hg.
  destruct (displayPhaseWithAnimation_replay now
    (currentPhaseIndex
       (if currentPhaseIndex w >=? Z.of_nat (length phases) - 1
        then set_currentPhaseIndex 0 w
        else set_currentPhaseIndex (currentPhaseIndex w + 1) w))
    (if currentPhaseIndex w >=? Z.of_nat (length phases) - 1
     then set_currentPhaseIndex 0 w
     else set_currentPhaseIndex (currentPhaseIndex w + 1) w)) as [_ ->].
  by case_match.
Qed.

Lemma advanceToNextPhase_gameData now w :
  gameData (advanceToNextPhase coordinateData currentPower now w) = gameData w.
Proof.
  unfold advanceToNextPhase. case_match; [|done].
  match goal with |- gameData (displayPhaseWithAnimation _ _ _ ?i ?w1) = _ =>
    destruct (displayPhaseWithAnimation_replay now i w1) as [-> _] end.
  by case_match.
Qed.

Lemma step_inRange e w w' :
  loadsReplay e → step coordinateData currentPower e w = Some w' → inRange w → inRange w'.
Proof.
  intros Hload Hstep Hin. destruct e as [now|h now|now|now|now|value now|phases];
    cbn [step] in Hstep.
  - injection Hstep as <-. eapply inRange_sameReplay; [apply animate_replay|done].
  - destruct (findTimer h w) as [t|]; [|done]. injection Hstep as <-.
    assert (Hc : inRange (clearTimeout h w)) by done.
    destruct (callback t) as [|phaseName relevant index]; cbn [runCallback].
    + unfold inRange in *. rewrite advanceToNextPhase_gameData.
      destruct (gameData (clearTimeout h w)) as [phases|] eqn:Hg; [|done].
      rewrite (advanceToNextPhase_index now _ phases Hg), Z.geb_leb.
      destruct (Z.leb_spec (Z.of_nat (length phases) - 1)
                  (currentPhaseIndex (clearTimeout h w))); lia.
    + eapply inRange_sameReplay; [apply showNext_replay|done].
  - destruct (playDisabled w); [done|]. injection Hstep as <-.
    eapply inRange_sameReplay; [apply togglePlayback_replay|done].
  - destruct (prevDisabled w); [done|]. injection Hstep as <-.
    unfold prevClick. rewrite Z.gtb_ltb.
    destruct (Z.ltb_spec 0 (currentPhaseIndex w)); [|done].
    eapply inRange_sameReplay; [apply displayPhaseWithAnimation_replay|].
    unfold inRange in *. cbn. destruct (gameData w); [lia|done].
  - destruct (nextDisabled w); [done|]. injection Hstep as <-.
    unfold nextClick. destruct (gameData w) as [phases|] eqn:Hg; [|done].
    destruct (Z.ltb_spec (currentPhaseIndex w) (Z.of_nat (length phases) - 1));
      [|done].
    eapply inRange_sameReplay; [apply displayPhaseWithAnimation_replay|].
    unfold inRange in *. cbn. rewrite Hg in *. lia.
  - injection Hstep as <-. unfold speedChange.
    repeat case_match; try done.
    all: eapply inRange_sameReplay; [apply armAdvance_replay|done].
  - injection Hstep as <-. unfold loadGame. destruct phases as [|ph phases]; [done|].
    eapply inRange_sameReplay; [apply displayInitialPhase_replay|].
    unfold inRange.
    cbn [gameData currentPhaseIndex set_chat set_buttons set_currentPhaseIndex
         set_gameData length].
    lia.
Qed.

Lemma run_inRange es w w' :
  Forall loadsReplay es → run coordinateData currentPower es w = Some w' → inRange w → inRange w'.
Proof.
  intros Hes. revert w. induction Hes as [|e es He _ IH]; intros w Hrun Hin.
  - by injection Hrun as <-.
  - cbn [run] in Hrun. destruct (step coordinateData currentPower e w) as [w1|] eqn:Hs; [|done].
    eapply IH; [done|]. by eapply step_inRange.
Qed.

End PlaybackFacts.

(** ** The phase setter of the TypeScript variant *)

Module PhaseTsFacts.
Import PhaseTs.

Section WithAbsent.

Context {View Menu : Type}.
Variable isDebugMode : bool.
Variable updateTools : @GameState View Menu → Menu.
Variable absent : Absent → @GameState View Menu → @GameState View Menu.

Lemma setPhase_rejects index (s : @GameState View Menu) :
  index < 0 ∨ Z.of_nat (length (phases s)) ≤ index →
  ∃ error,
    _setPhase isDebugMode updateTools absent index s
    = Threw error (if isDebugMode then set_debugMenu (updateTools s) s else s).
Proof.
  intros Hout. unfold _setPhase.
  assert (Hlen : length (phases (if isDebugMode
                   then set_debugMenu (updateTools s) s else s))
                 = length (phases s)) by by destruct isDebugMode.
  rewrite Hlen.
  destruct ((index >=? Z.of_nat (length (phases s))) || (index <? 0)) eqn:Hc.
  - by eexists.
  - apply orb_false_iff in Hc as [H1 H2]. rewrite Z.geb_leb in H1.
    apply Z.leb_gt in H1. apply Z.ltb_ge in H2. lia.
Qed.

Lemma ts_sameReplay_trans (s1 s2 s3 : @GameState View Menu) :
  sameReplay s1 s2 → sameReplay s2 s3 → sameReplay s1 s3.
Proof. intros [? ?] [? ?]. split; congruence. Qed.

Lemma ts_inRange_sameReplay (s s' : @GameState View Menu) : sameReplay s s' → inRange s → inRange s'.
Proof. unfold inRange. intros [-> ->]. done. Qed.

Lemma ts_sameReplay_step (s s1 s2 : @GameState View Menu) :
  sameReplay s1 s2 → sameReplay s s1 → sameReplay s s2.
Proof. intros H1 H2. by eapply ts_sameReplay_trans. Qed.

Ltac keep Hk :=
  repeat match goal with
    | |- sameReplay ?s ?s => split; reflexivity
    | |- sameReplay ?s (absent _ ?x) =>
        apply (ts_sameReplay_step s x); [split; apply Hk; discriminate|]
    | |- sameReplay ?s (set_unitAnimations _ ?x) =>
        apply (ts_sameReplay_step s x); [split; reflexivity|]
    | |- sameReplay ?s (set_playbackTimer _ ?x) =>
        apply (ts_sameReplay_step s x); [split; reflexivity|]
    | |- sameReplay ?s (set_isAnimating _ ?x) =>
        apply (ts_sameReplay_step s x); [split; reflexivity|]
    | |- sameReplay ?s (set_messagesPlaying _ ?x) =>
        apply (ts_sameReplay_step s x); [split; reflexivity|]
    | |- sameReplay ?s (set_debugMenu _ ?x) =>
        apply (ts_sameReplay_step s x); [split; reflexivity|]
    | |- sameReplay _ _ => case_match
    end.

Lemma ts_displayFinalPhase_replay (s : @GameState View Menu) :
  keepsReplay absent → sameReplay s (displayFinalPhase absent s).
Proof. intros Hk. unfold displayFinalPhase. keep Hk. Qed.

Lemma ts_displayPhase_replay skipMessages (s : @GameState View Menu) :
  keepsReplay absent → inRange s →
  sameReplay s (finalState (displayPhase absent skipMessages s)).
Proof.
  intros Hk [Hlo Hhi]. unfold displayPhase, updateMapOwnershipBare.
  destruct (Z.geb_spec (phaseIndex s) (Z.of_nat (length (phases s))));
    [lia|].
  destruct (Z.ltb_spec (phaseIndex s) 0); [lia|].
  destruct (phaseAt (phases s) (phaseIndex s)) as [currentPhase|];
    cbn [finalState]; keep Hk.
Qed.

(** Whatever the index asked for, the phase setter leaves the index in
    range: a rejected call changes no playback field, an accepted one
    ends, normally or not, with the index asked for. *)
Lemma setPhase_inRange index (s : @GameState View Menu) :
  keepsReplay absent → inRange s →
  inRange (finalState (_setPhase isDebugMode updateTools absent index s)).
Proof.
  intros Hk Hin.
  destruct (decide (index < 0 ∨ Z.of_nat (length (phases s)) ≤ index)) as [Hout|Hok].
  - destruct (setPhase_rejects index s Hout) as [error ->]. cbn.
    by destruct isDebugMode.
  - unfold _setPhase.
    set (s0 := if isDebugMode then set_debugMenu (updateTools s) s else s).
    assert (Hs0 : sameReplay s s0) by (subst s0; keep Hk).
    destruct Hs0 as [Hp0 Hi0]. rewrite Hp0.
    destruct ((index >=? Z.of_nat (length (phases s))) || (index <? 0)) eqn:Hc.
    { apply orb_true_iff in Hc as [H1|H2];
        [rewrite Z.geb_leb in H1; apply Z.leb_le in H1|apply Z.ltb_lt in H2]; lia. }
    assert (Hph : ∀ s' : @GameState View Menu,
              phases s' = phases s → phaseIndex s' = index → inRange s').
    { intros s' Hp Hi. unfold inRange. rewrite Hp, Hi. lia. }
    destruct (negb (index - phaseIndex s0 =? 1)) eqn:Hjump.
    + unfold updateMapOwnershipBare. cbn [finalState].
      assert (Hs : sameReplay (set_phaseIndex index
                      (absent (InitUnits index) (set_unitAnimations [] s0)))
                     (absent UpdateMapOwnership
                        (set_phaseIndex index
                           (absent (InitUnits index) (set_unitAnimations [] s0)))))
        by keep Hk.
      destruct Hs as [Hp Hi]. apply Hph; [|by rewrite Hi].
      rewrite Hp. cbn [phases set_phaseIndex].
      assert (Hs : sameReplay s0 (absent (InitUnits index) (set_unitAnimations [] s0)))
        by keep Hk.
      destruct Hs as [-> _]. done.
    + assert (Hidx : index = phaseIndex s + 1).
      { apply negb_false_iff, Z.eqb_eq in Hjump. lia. }
      set (s1 := if negb (playbackTimer s0 =? 0)
                 then set_playbackTimer 0
                        (absent (ClearTimeout (playbackTimer s0)) s0)
                 else s0).
      assert (Hs1 : sameReplay s0 s1) by (subst s1; keep Hk).
      destruct Hs1 as [Hp1 Hi1].
      set (s3 := set_phaseIndex (phaseIndex
                   (set_messagesPlaying false (set_isAnimating false s1)) + 1)
                   (set_messagesPlaying false (set_isAnimating false s1))).
      assert (Hp3 : phases s3 = phases s) by (subst s3; cbn; congruence).
      assert (Hi3 : phaseIndex s3 = index) by (subst s3; cbn; lia).
      case_match.
      * cbn [finalState]. apply Hph; [|done]. cbn [phases set_phaseIndex].
        by destruct (ts_displayFinalPhase_replay s3 Hk) as [-> _].
      * assert (Hin3 : inRange s3) by (unfold inRange; rewrite Hp3, Hi3; lia).
        destruct (ts_displayPhase_replay false s3 Hk Hin3) as [Hp4 Hi4].
        destruct (displayPhase absent false s3) as [s4|error s4];
          cbn [finalState] in *; apply Hph;
          cbn [phases phaseIndex set_phaseIndex]; congruence.
Qed.

(** A step forward from the last phase is a rejected request. *)
Lemma setPhase_past_the_end (s : @GameState View Menu) :
  phaseIndex s = Z.of_nat (length (phases s)) - 1 →
  ∃ error s',
    _setPhase isDebugMode updateTools absent (phaseIndex s + 1) s = Threw error s'
    ∧ phases s' = phases s ∧ phaseIndex s' = phaseIndex s.
Proof.
  intros Hlast.
  destruct (setPhase_rejects (phaseIndex s + 1) s) as [error ->]; [lia|].
  exists error. eexists. split; [done|]. by destruct isDebugMode.
Qed.

End WithAbsent.

End PhaseTsFacts.

(** ** Playback while paused *)

Section Paused.

Variable coordinateData : option CoordinateData.
Variable currentPower : string.

Lemma noAdvancePending_nil w : noAdvancePending w → pendingAdvances w = [].
Proof.
  unfold noAdvancePending, pendingAdvances.
  induction 1 as [|t ts Ht _ IH]; [done|].
  rewrite filter_cons, decide_False; [done|congruence].
Qed.

Lemma quiet_no_advance_fires e w : noAdvancePending w → ¬ firesAdvance e w.
Proof.
  intros Hq (h & now & t & -> & Hfind & Hcb).
  unfold findTimer in Hfind. apply head_Some_elem_of in Hfind.
  apply list_elem_of_filter in Hfind as [_ Hin].
  unfold noAdvancePending in Hq. rewrite Forall_forall in Hq.
  specialize (Hq t Hin). rewrite Hcb in Hq. done.
Qed.

Lemma clearTimeout_quiet h w : quiet w → quiet (clearTimeout h w).
Proof.
  intros [Hp Hn]. split; [done|].
  unfold noAdvancePending, clearTimeout in *. cbn.
  rewrite Forall_forall in Hn. apply Forall_forall.
  intros t [_ Hin]%list_elem_of_filter. by apply Hn.
Qed.

Lemma showNext_quiet now phaseName relevant index w :
  quiet w → quiet (showNext currentPower now phaseName relevant index w).
Proof.
  intros [Hp Hn]. unfold showNext.
  destruct (relevant !! index) as [msg|].
  - case_match; [by split|].
    destruct (revealOne _ _ _ _) as [cw nods]. split; [done|].
    unfold noAdvancePending. cbn. apply Forall_app. split; [done|].
    by repeat constructor.
  - cbn. rewrite Hp, andb_false_r. done.
Qed.

Lemma updateChatWindows_quiet now phase stepMessages w :
  quiet w → quiet (updateChatWindows currentPower now phase stepMessages w).
Proof.
  intros Hq. unfold updateChatWindows.
  destruct (messages phase); [done|]. destruct stepMessages.
  - by apply showNext_quiet.
  - destruct (revealAll _ _ _ _) as [completion [cw nods]].
    by destruct (throws completion).
Qed.

Lemma displayPhaseWithAnimation_quiet now index w :
  quiet w → quiet (displayPhaseWithAnimation coordinateData currentPower now index w).
Proof.
  intros Hq. unfold displayPhaseWithAnimation.
  repeat case_match; try done.
  by apply updateChatWindows_quiet.
Qed.

Lemma tickAnimation_quiet now k anim w : quiet w → quiet (tickAnimation now k anim w).
Proof.
  intros [Hp Hn]. unfold tickAnimation. case_match; [done|].
  cbn. rewrite Hp, andb_false_r. done.
Qed.

Lemma forEachAnimation_quiet now remaining k w :
  quiet w → quiet (forEachAnimation now remaining k w).
Proof.
  revert k w. induction remaining as [|r IH]; intros k w Hq; [done|].
  cbn [forEachAnimation]. apply IH.
  case_match; [by apply tickAnimation_quiet|done].
Qed.

Lemma animate_quiet now w : quiet w → quiet (animate coordinateData now w).
Proof.
  intros Hq. unfold animate. destruct Hq as [Hp Hn]. rewrite Hp. cbn.
  by apply forEachAnimation_quiet.
Qed.

Lemma loadGame_quiet phases w :
  quiet w → quiet (loadGame coordinateData currentPower phases w).
Proof.
  intros Hq. unfold loadGame, displayInitialPhase.
  repeat case_match; done.
Qed.

(** While playback is off, no event except a click on the play button
    switches it on or arms an advance. *)
Lemma step_quiet e w w' :
  isClickPlay e = false → step coordinateData currentPower e w = Some w' →
  quiet w → quiet w'.
Proof.
  intros He Hstep Hq.
  destruct e as [now|h now|now|now|now|value now|phases]; try done;
    cbn [step] in Hstep.
  - injection Hstep as <-. by apply animate_quiet.
  - destruct (findTimer h w) as [t|] eqn:Hfind; [|done]. injection Hstep as <-.
    destruct (callback t) as [|phaseName relevant index] eqn:Hcb.
    + exfalso. eapply quiet_no_advance_fires; [apply Hq|].
      by exists h, now, t.
    + cbn [runCallback]. by apply showNext_quiet, clearTimeout_quiet.
  - destruct (prevDisabled w); [done|]. injection Hstep as <-.
    unfold prevClick. case_match; [|done].
    by apply displayPhaseWithAnimation_quiet.
  - destruct (nextDisabled w); [done|]. injection Hstep as <-.
    unfold nextClick. repeat case_match; try done.
    by apply displayPhaseWithAnimation_quiet.
  - injection Hstep as <-. unfold speedChange. destruct Hq as [Hp Hn].
    cbn. rewrite Hp. by case_match.
  - injection Hstep as <-. by apply loadGame_quiet.
Qed.

Lemma run_quiet es w w' :
  Forall (λ e, isClickPlay e = false) es →
  run coordinateData currentPower es w = Some w' → quiet w → quiet w'.
Proof.
  intros Hes. revert w. induction Hes as [|e es He _ IH]; intros w Hrun Hq.
  - by injection Hrun as <-.
  - cbn [run] in Hrun.
    destruct (step coordinateData currentPower e w) as [w1|] eqn:Hs; [|done].
    eapply IH; [done|]. by eapply step_quiet.
Qed.

(** What switching playback off does. *)
Lemma togglePlayback_off now w phases :
  gameData w = Some phases → 1 < Z.of_nat (length phases) → isPlaying w = true →
  let paused := togglePlayback coordinateData currentPower now w in
  isPlaying paused = false ∧ playbackTimer paused = None
  ∧ unitAnimations paused = [] ∧ messagesPlaying paused = false
  ∧ timers paused = filter (λ t, Some (handle t) ≠ playbackTimer w) (timers w).
Proof.
  intros Hg Hlen Hp paused. subst paused. unfold togglePlayback.
  rewrite Hg. destruct (Z.leb_spec (Z.of_nat (length phases)) 1); [lia|].
  cbn [isPlaying set_isPlaying]. rewrite Hp. cbn [negb].
  destruct (playbackTimer w) as [h|] eqn:Ht; cbn; rewrite ?Ht.
  - repeat split; try done.
    change (timers (set_playbackTimer None (clearTimeout h (set_isPlaying false w))))
      with (filter (λ t, handle t ≠ h) (timers w)).
    apply list_filter_iff. intros t. split; intros Hne; congruence.
  - repeat split; try done.
    change (timers (set_isPlaying false w)) with (timers w).
    generalize (timers w). intros ts.
    induction ts as [|t ts IH]; [done|].
    rewrite filter_cons_True by (intros ?; discriminate). by rewrite <- IH.
Qed.

End Paused.

(** ** No bucket ever shows a message twice *)

Section Buckets.

Variable coordinateData : option CoordinateData.
Variable currentPower : string.

Lemma createChatWindows_distinct : bucketsDistinct (createChatWindows currentPower).
Proof.
  unfold createChatWindows.
  assert (Hfold : ∀ powers cw, bucketsDistinct cw →
            bucketsDistinct (foldl (λ cw power, createChatWindow power false cw)
                                   cw powers)).
  { induction powers as [|power powers IH]; intros cw Hcw; [done|].
    cbn [foldl]. apply IH. intros b win. unfold createChatWindow.
    destruct (decide (power = b)) as [->|Hne].
    - rewrite lookup_insert_eq. intros [= <-]. cbn.
      split; [constructor|]. intros e He. by apply not_elem_of_nil in He.
    - rewrite lookup_insert_ne by done. apply Hcw. }
  apply Hfold. intros b win. unfold createChatWindow.
  destruct (decide ("GLOBAL" = b)) as [<-|Hne].
  - rewrite lookup_insert_eq. intros [= <-]. cbn.
    split; [constructor|]. intros e He. by apply not_elem_of_nil in He.
  - rewrite lookup_insert_ne by done. by rewrite lookup_empty.
Qed.

Lemma revealOne_distinct phaseName st msg :
  bucketsDistinct st.1 →
  bucketsDistinct (revealOne currentPower phaseName st msg).1.
Proof.
  destruct st as [cw nods]. unfold revealOne, addMessageToChat. cbn [fst snd].
  intros Hcw.
  destruct (cw !! targetPowerOf currentPower msg) as [w|] eqn:Hw;
    [|by destruct (inherited _)].
  destruct (decide (msgId msg ∈ seenMessages w)) as [Hin|Hnin]; [done|].
  cbn [fst]. intros b win.
  destruct (decide (targetPowerOf currentPower msg = b)) as [<-|Hne].
  - rewrite lookup_insert_eq. intros [= <-]. cbn.
    destruct (Hcw _ _ Hw) as [Hnd Hseen].
    rewrite fmap_app. cbn. rewrite messageElement_key. split.
    + apply NoDup_app. split; [done|]. split; [|apply NoDup_singleton].
      intros k Hk ->%list_elem_of_singleton.
      apply list_elem_of_fmap in Hk as (e & Heq & He).
      apply Hnin. rewrite Heq. by apply Hseen.
    + intros e [He| ->%list_elem_of_singleton]%elem_of_app.
      * apply elem_of_union_r. by apply Hseen.
      * rewrite messageElement_key. apply elem_of_union_l. by apply elem_of_singleton.
  - rewrite lookup_insert_ne by done. apply Hcw.
Qed.

Lemma revealAll_distinct phaseName l st :
  bucketsDistinct st.1 →
  bucketsDistinct (revealAll currentPower phaseName l st).2.1.
Proof.
  revert st. induction l as [|msg l IH]; intros st Hst; [done|].
  cbn [revealAll]. case_match; [done|]. by apply IH, revealOne_distinct.
Qed.

Lemma showNext_distinct now phaseName relevant index w :
  bucketsDistinct (chatWindows w) →
  bucketsDistinct (chatWindows (showNext currentPower now phaseName relevant index w)).
Proof.
  intros Hw. unfold showNext.
  destruct (relevant !! index) as [msg|].
  - case_match; [done|].
    pose proof (revealOne_distinct phaseName (chatWindows w, headNods w) msg Hw) as Hd.
    by destruct (revealOne _ _ _ _) as [cw nods].
  - unfold armAdvance, setTimeout. by case_match.
Qed.

Lemma updateChatWindows_distinct now phase stepMessages w :
  bucketsDistinct (chatWindows w) →
  bucketsDistinct (chatWindows (updateChatWindows currentPower now phase stepMessages w)).
Proof.
  intros Hw. unfold updateChatWindows.
  destruct (messages phase); [done|]. destruct stepMessages.
  - by apply showNext_distinct.
  - pose proof (revealAll_distinct (name phase) (relevantMessages currentPower phase)
                  (chatWindows w, headNods w) Hw) as H.
    destruct (revealAll _ _ _ _) as [completion [cw nods]].
    by destruct (throws completion).
Qed.

Lemma displayPhaseWithAnimation_distinct now index w :
  bucketsDistinct (chatWindows w) →
  bucketsDistinct
    (chatWindows (displayPhaseWithAnimation coordinateData currentPower now index w)).
Proof.
  intros Hw. unfold displayPhaseWithAnimation.
  repeat case_match; try done. by apply updateChatWindows_distinct.
Qed.

Lemma forEachAnimation_chat now remaining k w :
  chatWindows (forEachAnimation now remaining k w) = chatWindows w.
Proof.
  revert k w. induction remaining as [|r IH]; intros k w; [done|].
  cbn [forEachAnimation]. rewrite IH.
  unfold tickAnimation, armAdvance, setTimeout. by repeat case_match.
Qed.

Lemma animate_chat now w : chatWindows (animate coordinateData now w) = chatWindows w.
Proof.
  unfold animate. repeat case_match; try done; by rewrite forEachAnimation_chat.
Qed.

Lemma step_distinct e w w' :
  step coordinateData currentPower e w = Some w' →
  bucketsDistinct (chatWindows w) → bucketsDistinct (chatWindows w').
Proof.
  intros Hstep Hw.
  destruct e as [now|h now|now|now|now|value now|phases]; cbn [step] in Hstep.
  - injection Hstep as <-. by rewrite animate_chat.
  - destruct (findTimer h w) as [t|]; [|done]. injection Hstep as <-.
    destruct (callback t) as [|phaseName relevant index]; cbn [runCallback].
    + unfold advanceToNextPhase. case_match; [|done].
      apply displayPhaseWithAnimation_distinct. by case_match.
    + by apply showNext_distinct.
  - destruct (playDisabled w); [done|]. injection Hstep as <-.
    unfold togglePlayback. repeat case_match; try done;
      first [by apply updateChatWindows_distinct
            |by apply displayPhaseWithAnimation_distinct].
  - destruct (prevDisabled w); [done|]. injection Hstep as <-.
    unfold prevClick. case_match; [|done].
    by apply displayPhaseWithAnimation_distinct.
  - destruct (nextDisabled w); [done|]. injection Hstep as <-.
    unfold nextClick. repeat case_match; try done.
    by apply displayPhaseWithAnimation_distinct.
  - injection Hstep as <-. unfold speedChange, armAdvance, setTimeout.
    by repeat case_match.
  - injection Hstep as <-. unfold loadGame, displayInitialPhase.
    repeat case_match; try done; apply createChatWindows_distinct.
Qed.

(** Whatever the session does after the page has loaded, reveal chains
    running one after the other or side by side, a bucket holds at most
    one element per identity key, and has seen every key it shows. *)
Lemma buckets_never_duplicate es w :
  run coordinateData currentPower es pageLoad = Some w →
  bucketsDistinct (chatWindows w).
Proof.
  assert (Hgen : ∀ es w0 w, bucketsDistinct (chatWindows w0) →
            run coordinateData currentPower es w0 = Some w →
            bucketsDistinct (chatWindows w)).
  { clear. induction es as [|e es IH]; intros w0 w H0 Hrun.
    - by injection Hrun as <-.
    - cbn [run] in Hrun.
      destruct (step coordinateData currentPower e w0) as [w1|] eqn:Hs; [|done].
      eapply IH; [|done]. by eapply step_distinct. }
  apply Hgen. intros b win. cbn. by rewrite lookup_empty.
Qed.

End Buckets.

(** ** The claims *)

(** C1.  For every viewpoint power, phase and table of chat windows:
    running the reveal path of the phase a second time changes nothing
    (neither a bucket nor the log of head animations); over the two runs
    together every bucket gains at most one element per identity key; a
    reveal whose key the bucket has already seen reports "not new" and
    leaves the windows as they are; and in a session, whatever chains of
    timed reveal steps it starts, no bucket ever shows a key twice. *)
Theorem reveal_twice_adds_nothing (currentPower : string) (phase : Phase)
    (cw : gmap string ChatWindow) (nods : list Message) :
  let once := revealPath currentPower phase (cw, nods) in
  let twice := revealPath currentPower phase once in
  twice = once
  ∧ (∀ k bucket, (entriesFor k bucket twice.1 ≤ S (entriesFor k bucket cw))%nat)
  ∧ (∀ msg phaseName cw' w,
       cw' !! targetPowerOf currentPower msg = Some w →
       msgId msg ∈ seenMessages w →
       addMessageToChat currentPower msg phaseName cw' = (Returns (Some false), cw'))
  ∧ (∀ coordinateData es w,
       run coordinateData currentPower es pageLoad = Some w →
       bucketsDistinct (chatWindows w)).
Proof.
  intros once twice.
  assert (Hidem : twice = once).
  { unfold twice, once, revealPath. by rewrite revealAll_idem. }
  split; [done|]. split; [|split].
  - intros k bucket. rewrite Hidem. unfold once, revealPath.
    pose proof (revealAll_atMostOne currentPower (name phase) k bucket
                  (entriesFor k bucket cw) (relevantMessages currentPower phase)
                  (cw, nods)) as H.
    destruct H as [H|[H _]]; [left; simpl; lia| lia | lia].
  - intros msg phaseName cw' w Hw Hin. unfold addMessageToChat.
    rewrite Hw. by rewrite decide_True.
  - intros coordinateData es w Hrun. by eapply buckets_never_duplicate.
Qed.

(** C10, evaluated on the code.  A message whose bucket is no property
    of [chatWindows] is dropped only when the name of the bucket is not
    one that every object inherits: then [addMessageToChat] returns
    without a result, no window (and so no seen-set and no bucket)
    changes, no head animation is triggered, and the chain arms its next
    step as for any other message.  For an inherited name
    ([constructor], [toString], ...) the guard finds the inherited value
    and lets the message pass, the test of the seen-set throws, and
    [showNext] ends there: nothing is revealed, nothing is recorded and
    nothing is armed, so the chain does not go on. *)
Theorem unknown_bucket_dropped_or_throws (currentPower : string) (msg : Message)
    (phaseName : string) (cw : gmap string ChatWindow) (nods : list Message) :
  cw !! targetPowerOf currentPower msg = None →
  revealOne currentPower phaseName (cw, nods) msg = (cw, nods)
  ∧ if inherited (targetPowerOf currentPower msg)
    then addMessageToChat currentPower msg phaseName cw = (Throws, cw)
         ∧ ∀ now relevant index w,
             chatWindows w = cw → relevant !! index = Some msg →
             showNext currentPower now phaseName relevant index w = w
    else addMessageToChat currentPower msg phaseName cw = (Returns None, cw)
         ∧ ∀ now relevant index w,
             chatWindows w = cw → relevant !! index = Some msg →
             let w' := showNext currentPower now phaseName relevant index w in
             chatWindows w' = cw ∧ headNods w' = headNods w
             ∧ timers w' = timers w ++
                 [mkTimer (nextHandle w) (ShowNextCb phaseName relevant (S index))
                          (now + playbackSpeed w * 3)].
Proof.
  intros Hnone.
  assert (Hadd : addMessageToChat currentPower msg phaseName cw
                 = (if inherited (targetPowerOf currentPower msg)
                    then Throws else Returns None, cw)).
  { unfold addMessageToChat. rewrite Hnone. by destruct (inherited _). }
  split.
  - unfold revealOne. cbn [fst snd]. rewrite Hadd. by destruct (inherited _).
  - destruct (inherited (targetPowerOf currentPower msg)) eqn:Hi.
    + split; [done|]. intros now relevant index w <- Hmsg. unfold showNext.
      by rewrite Hmsg, Hadd.
    + split; [done|]. intros now relevant index w <- Hmsg. unfold showNext, revealOne.
      rewrite Hmsg. cbn [fst snd]. rewrite Hadd. cbn [fst throws]. by destruct w.
Qed.

(** The same in a session.  The first message of the first phase is sent
    by a power named [constructor]: the click on the play button sets the
    flag and starts the chain, whose first step throws.  Playback is on,
    the flag stays set and no timeout is pending, so no later message is
    revealed, the render loop leaves every frame as it finds it, and the
    replay never advances. *)
Lemma inherited_sender_stalls_playback :
  match run demoCoordinates "FRANCE" oddPlayback pageLoad with
  | Some w =>
      isPlaying w = true ∧ messagesPlaying w = true ∧ timers w = []
      ∧ headNods w = [] ∧ chatWindows w = createChatWindows "FRANCE"
      ∧ entriesFor (msgId msgA2) "GERMANY" (chatWindows w) = 0%nat
      ∧ ∀ now, animate demoCoordinates now w = w
  | None => False
  end.
Proof.
  destruct (run demoCoordinates "FRANCE" oddPlayback pageLoad) as [w|] eqn:Hrun;
    [|by vm_compute in Hrun].
  vm_compute in Hrun. injection Hrun as <-.
  repeat (split; [by vm_compute|]). intros now. by vm_compute.
Qed.


(** C2, evaluated on the code.  At the default speed, on a phase with
    two messages and no units: playback is paused at 100 and resumed at
    200, so two reveal chains of the phase are in flight.  The first ends
    at 3000 and arms an advance; the second ends at 3200 and arms another
    without cancelling the first: two advance callbacks are pending at
    once and [playbackTimer] only records the second. *)
Lemma advance_armed_twice :
  punctual demoCoordinates "FRANCE" 0 resumedPlayback pageLoad = true
  ∧ match run demoCoordinates "FRANCE" resumedPlayback pageLoad with
    | Some w =>
        isPlaying w = true ∧ playbackSpeed w = 500
        ∧ pendingAdvances w = [mkTimer 5 AdvanceCb 3500; mkTimer 6 AdvanceCb 3700]
        ∧ playbackTimer w = Some 6
    | None => False
    end.
Proof. by vm_compute. Qed.

(** The same from the render loop alone, with the speed selector at
    2000 ms: the loop arms an advance at 1504, creates the animations of
    the phase again, and arms a second advance at 3024 when the first is
    still pending. *)
Lemma render_loop_arms_second_advance :
  punctual demoCoordinates "FRANCE" 0 slowPlayback pageLoad = true
  ∧ match run demoCoordinates "FRANCE" slowPlayback pageLoad with
    | Some w =>
        isPlaying w = true
        ∧ pendingAdvances w = [mkTimer 1 AdvanceCb 3504; mkTimer 2 AdvanceCb 5024]
        ∧ playbackTimer w = Some 2
    | None => False
    end.
Proof. by vm_compute. Qed.

(** The same after a change of speed during a move: the handler finds the
    handle of a timeout that has fired, arms an advance at 3000, and the
    render loop arms another when the move ends at 3504. *)
Lemma speed_change_arms_extra_advance :
  punctual demoCoordinates "FRANCE" 0 speedChangedMidMove pageLoad = true
  ∧ match run demoCoordinates "FRANCE" speedChangedMidMove pageLoad with
    | Some w =>
        isPlaying w = true ∧ playbackSpeed w = 1000
        ∧ pendingAdvances w = [mkTimer 2 AdvanceCb 4000; mkTimer 3 AdvanceCb 4504]
        ∧ playbackTimer w = Some 3
    | None => False
    end.
Proof. by vm_compute. Qed.

(** The lock as the code means it: while the flag is set and no animation
    is running the render loop does nothing, and the display of a phase
    with a qualifying message sets the flag, reveals the first message
    and creates no animation. *)
Lemma render_loop_waits_for_flag (coordinateData : option CoordinateData)
    (now : Z) (w : World) :
  messagesPlaying w = true → unitAnimations w = [] →
  animate coordinateData now w = w.
Proof.
  intros Hflag Hanims. unfold animate.
  rewrite Hflag, Hanims, andb_false_r. done.
Qed.

Lemma display_with_messages_sets_flag (coordinateData : option CoordinateData)
    (currentPower : string) (now index : Z) (w : World) (phases : list Phase)
    (phase : Phase) (msg : Message) (relevant : list Message) :
  gameData w = Some phases → phaseAt phases index = Some phase →
  relevantMessages currentPower phase = msg :: relevant →
  let w' := displayPhaseWithAnimation coordinateData currentPower now index w in
  messagesPlaying w' = true ∧ unitAnimations w' = unitAnimations w
  ∧ (chatWindows w', headNods w')
    = revealOne currentPower (name phase) (chatWindows w, headNods w) msg.
Proof.
  intros Hg Hphase Hrel w'. subst w'. unfold displayPhaseWithAnimation.
  rewrite Hg.
  assert (Hrange : 0 ≤ index < Z.of_nat (length phases)).
  { unfold phaseAt in Hphase. destruct (Z.ltb_spec index 0); [done|].
    apply lookup_lt_Some in Hphase. lia. }
  destruct (Z.ltb_spec index 0); [lia|]. rewrite Z.geb_leb.
  destruct (Z.leb_spec (Z.of_nat (length phases)) index); [lia|].
  cbn [orb]. rewrite Hphase.
  assert (Hprev : is_Some (phaseAt phases (prevIndexOf index (Z.of_nat (length phases))))).
  { unfold phaseAt, prevIndexOf. rewrite Z.gtb_ltb.
    destruct (Z.ltb_spec 0 index).
    - destruct (Z.ltb_spec (index - 1) 0); [lia|].
      apply lookup_lt_is_Some. lia.
    - destruct (Z.ltb_spec (Z.of_nat (length phases) - 1) 0); [lia|].
      apply lookup_lt_is_Some. lia. }
  destruct Hprev as [previousPhase ->].
  destruct (messages phase) as [|m ms] eqn:Hm.
  { unfold relevantMessages in Hrel. by rewrite Hm in Hrel. }
  unfold updateChatWindows. rewrite Hm, Hrel. unfold showNext.
  cbn [lookup list_lookup chatWindows headNods set_messagesPlaying set_unitMeshes].
  destruct (throws _) eqn:Ht.
  - split; [done|]. split; [done|]. symmetry. by apply revealOne_thrown.
  - destruct (revealOne _ _ _ _) as [cw nods]. done.
Qed.

(** C3, evaluated on the code.  After a pause and a late resume, the
    reveal chain started before the pause ends during the second phase
    and clears the flag: at 4528 the render loop creates the animation of
    the second phase's army, while the last message of that phase is
    only revealed at 5000. *)
Lemma units_animate_before_last_reveal :
  punctual demoCoordinates "FRANCE" 0 (lateResume ++ lateResumeOn) pageLoad = true
  ∧ match run demoCoordinates "FRANCE" lateResume pageLoad with
    | Some w =>
        isPlaying w = true ∧ currentPhaseIndex w = 1
        ∧ map object (unitAnimations w) = [UnitMesh "FRANCE" "A" "BUR"]
        ∧ map startTime (unitAnimations w) = [4528]
        ∧ entriesFor (msgId msgB2) "GERMANY" (chatWindows w) = 0%nat
        ∧ match run demoCoordinates "FRANCE" lateResumeOn w with
          | Some w' => entriesFor (msgId msgB2) "GERMANY" (chatWindows w') = 1%nat
          | None => False
          end
    | None => False
    end.
Proof. by vm_compute. Qed.



(** The advance of [main.js]: with a replay loaded and the index in
    range, [advanceToNextPhase] moves the index to its successor modulo
    the number of phases; from the last phase it moves to the first. *)
Lemma advance_wraps_around (coordinateData : option CoordinateData)
    (currentPower : string) (now : Z) (w : World) (phases : list Phase) :
  gameData w = Some phases →
  0 ≤ currentPhaseIndex w < Z.of_nat (length phases) →
  currentPhaseIndex (advanceToNextPhase coordinateData currentPower now w)
  = (currentPhaseIndex w + 1) mod Z.of_nat (length phases)
  ∧ (currentPhaseIndex w = Z.of_nat (length phases) - 1 →
     currentPhaseIndex (advanceToNextPhase coordinateData currentPower now w) = 0).
Proof.
  intros Hg Hin.
  rewrite (advanceToNextPhase_index coordinateData currentPower now w phases Hg).
  rewrite Z.geb_leb.
  destruct (Z.leb_spec (Z.of_nat (length phases) - 1) (currentPhaseIndex w)) as [Hl|Hl].
  - assert (currentPhaseIndex w + 1 = Z.of_nat (length phases)) as -> by lia.
    rewrite Z.mod_same by lia. done.
  - rewrite Z.mod_small by lia. split; [done|lia].
Qed.

(** C5, evaluated on the code.  Of the two advance operations only one
    wraps around.  [advanceToNextPhase] of [main.js] moves the index to
    its successor modulo the number of phases, from the last phase to
    the first.  [nextPhase] of the TypeScript variant, at the last phase,
    either does not move, or asks [_setPhase] for the index past the end,
    at once or by the timeout of the moment it shows: that request is
    rejected with an [Error] and the index stays at the last phase, which
    in a replay of two or more phases is not the first. *)
Theorem next_phase_stops_at_last_phase :
  (∀ coordinateData currentPower now w phases,
     gameData w = Some phases →
     0 ≤ currentPhaseIndex w < Z.of_nat (length phases) →
     currentPhaseIndex (advanceToNextPhase coordinateData currentPower now w)
     = (currentPhaseIndex w + 1) mod Z.of_nat (length phases))
  ∧ (∀ (View Menu : Type) isDebugMode updateTools absent
       showTwoPowerConversation closeTwoPowerConversation
       ready qualifies isPlaying (s : @PhaseTs.GameState View Menu),
       PhaseTs.phaseIndex s = Z.of_nat (length (PhaseTs.phases s)) - 1 →
       (∀ s0, PhaseTs.sameReplay s0 (showTwoPowerConversation s0)) →
       (∀ s0, PhaseTs.sameReplay s0 (closeTwoPowerConversation s0)) →
       match PhaseTs.nextPhase isDebugMode updateTools absent
               showTwoPowerConversation ready qualifies isPlaying s with
       | PhaseTs.NotMoving s' => s' = s
       | PhaseTs.ConversationShown s' =>
           PhaseTs.sameReplay s s'
           ∧ ∃ error s'',
               PhaseTs.momentTimeout isDebugMode updateTools absent
                 closeTwoPowerConversation s' = PhaseTs.Threw error s''
               ∧ PhaseTs.sameReplay s s''
       | PhaseTs.PhaseAsked o =>
           ∃ error s', o = PhaseTs.Threw error s' ∧ PhaseTs.sameReplay s s'
       end).
Proof.
  split.
  - intros coordinateData currentPower now w phases Hg Hin.
    by apply advance_wraps_around.
  - intros View Menu isDebugMode updateTools absent show close ready qualifies
      isPlaying s Hlast Hshow Hclose.
    assert (Hpast : ∀ s1, PhaseTs.sameReplay s s1 →
              ∃ error s', PhaseTs._setPhase isDebugMode updateTools absent
                            (PhaseTs.phaseIndex s1 + 1) s1 = PhaseTs.Threw error s'
                ∧ PhaseTs.sameReplay s s').
    { intros s1 [Hp Hi].
      destruct (PhaseTsFacts.setPhase_past_the_end isDebugMode updateTools absent s1)
        as (error & s' & Heq & Hp' & Hi'); [by rewrite Hp, Hi|].
      exists error, s'. split; [done|]. split; congruence. }
    unfold PhaseTs.nextPhase. destruct ready; [|done].
    destruct (phaseAt _ _).
    + destruct qualifies.
      * destruct isPlaying.
        -- split; [apply Hshow|]. unfold PhaseTs.momentTimeout.
           apply Hpast. destruct (Hshow s) as [Hp1 Hi1].
           destruct (Hclose (show s)) as [Hp2 Hi2]. split; congruence.
        -- apply Hpast, Hshow.
      * by apply Hpast.
    + by exists "TypeError", s.
Qed.

(** C6.  From a state whose index is in range (the freshly loaded page
    among them), every sequence of frames, timer expiries, button clicks,
    speed changes and loads of replays with at least one phase leaves the
    index in range; and so does the phase setter of the TypeScript
    variant, for every index it is asked for, whether it accepts or
    rejects it. *)
Theorem phase_index_stays_in_range :
  (∀ coordinateData currentPower es w w',
     Forall loadsReplay es → inRange w →
     run coordinateData currentPower es w = Some w' → inRange w')
  ∧ (∀ (View Menu : Type) isDebugMode updateTools absent index
       (s : @PhaseTs.GameState View Menu),
       PhaseTs.keepsReplay absent → PhaseTs.inRange s →
       PhaseTs.inRange
         (PhaseTs.finalState
            (PhaseTs._setPhase isDebugMode updateTools absent index s))).
Proof.
  split.
  - intros coordinateData currentPower es w w' Hes Hin Hrun.
    by eapply run_inRange.
  - intros View Menu isDebugMode updateTools absent index s Hk Hin.
    by apply PhaseTsFacts.setPhase_inRange.
Qed.

(** C9.  A request to set the phase to an index below 0 or not below the
    number of phases makes [_setPhase] throw; the state it leaves is the
    state it found, but for the refresh of the debug menu in debug mode:
    the replay, the phase index, the animation list, the timer handle,
    the two flags and the view with the unit meshes are untouched.  The
    guard of [displayPhaseWithAnimation] returns without a change. *)
Theorem out_of_range_jump_rejected {View Menu : Type} (isDebugMode : bool)
    (updateTools : @PhaseTs.GameState View Menu → Menu)
    (absent : PhaseTs.Absent → @PhaseTs.GameState View Menu → @PhaseTs.GameState View Menu)
    (index : Z) (s : @PhaseTs.GameState View Menu) :
  index < 0 ∨ Z.of_nat (length (PhaseTs.phases s)) ≤ index →
  (∃ error s',
     PhaseTs._setPhase isDebugMode updateTools absent index s = PhaseTs.Threw error s'
     ∧ PhaseTs.phases s' = PhaseTs.phases s
     ∧ PhaseTs.phaseIndex s' = PhaseTs.phaseIndex s
     ∧ PhaseTs.unitAnimations s' = PhaseTs.unitAnimations s
     ∧ PhaseTs.playbackTimer s' = PhaseTs.playbackTimer s
     ∧ PhaseTs.isAnimating s' = PhaseTs.isAnimating s
     ∧ PhaseTs.messagesPlaying s' = PhaseTs.messagesPlaying s
     ∧ PhaseTs.view s' = PhaseTs.view s
     ∧ (isDebugMode = false → s' = s))
  ∧ (∀ coordinateData currentPower now w,
       index < 0 ∨ phaseCount w ≤ index →
       displayPhaseWithAnimation coordinateData currentPower now index w = w).
Proof.
  intros Hout. split.
  - destruct (PhaseTsFacts.setPhase_rejects isDebugMode updateTools absent index s Hout)
      as [error Heq].
    exists error. eexists. split; [exact Heq|].
    destruct isDebugMode; done.
  - intros coordinateData currentPower now w Hw.
    unfold displayPhaseWithAnimation, phaseCount in *.
    destruct (gameData w) as [phases|]; [|done].
    destruct (Z.ltb_spec index 0); [done|].
    rewrite Z.geb_leb.
    destruct (Z.leb_spec (Z.of_nat (length phases)) index); [done|lia].
Qed.

(** ** The theorems at concrete inputs *)

(** The scenario of the specification: the message is in the GLOBAL
    bucket once, after one run of the reveal path and after two. *)
Example global_message_revealed_once :
  let hi := mkMessage "FRANCE" "GLOBAL" 100 "Hi" in
  let phase := mkPhase "S1901M" [hi] [] None in
  let once := revealPath "FRANCE" phase (createChatWindows "FRANCE", []) in
  let twice := revealPath "FRANCE" phase once in
  msgId hi = "FRANCE-GLOBAL-100-Hi"
  ∧ entriesFor (msgId hi) "GLOBAL" once.1 = 1%nat
  ∧ entriesFor (msgId hi) "GLOBAL" twice.1 = 1%nat.
Proof. by vm_compute. Qed.

Lemma reveal_twice_adds_nothing_witness :
  revealPath "FRANCE" spring
    (revealPath "FRANCE" spring (createChatWindows "FRANCE", []))
  = revealPath "FRANCE" spring (createChatWindows "FRANCE", []).
Proof.
  apply (proj1 (reveal_twice_adds_nothing "FRANCE" spring
                  (createChatWindows "FRANCE") [])).
Defined.

Lemma unknown_bucket_dropped_or_throws_witness :
  createChatWindows "FRANCE" !! targetPowerOf "FRANCE" msgOdd = None
  ∧ addMessageToChat "FRANCE" msgOdd "S1901M" (createChatWindows "FRANCE")
    = (Throws, createChatWindows "FRANCE").
Proof.
  assert (H : createChatWindows "FRANCE" !! targetPowerOf "FRANCE" msgOdd = None)
    by (vm_compute; reflexivity).
  split; [exact H|].
  exact (proj1 (proj2 (unknown_bucket_dropped_or_throws "FRANCE" msgOdd "S1901M"
                         (createChatWindows "FRANCE") [] H))).
Defined.

(** A note to oneself has no window either; its bucket is no inherited
    name, and it is dropped. *)
Example note_to_self_dropped :
  let note := mkMessage "FRANCE" "FRANCE" 5 "note to self" in
  addMessageToChat "FRANCE" note "S1901M" (createChatWindows "FRANCE")
  = (Returns None, createChatWindows "FRANCE").
Proof. by vm_compute. Qed.

(** The scenario of the specification: one move for England's fleet, from
    the coordinate of LON to the coordinate of NTH. *)
Example fleet_moves_from_london :
  let coords := Some (mkCoordinateData
                        [("LON", mkProvinceData (mkLabel 410 330) true);
                         ("NTH", mkProvinceData (mkLabel 450 250) false)] ∅) in
  let phase0 := mkPhase "S1901M" [] [("ENGLAND", ["F LON"])] None in
  let phase1 := mkPhase "F1901M" [] [("ENGLAND", ["F NTH"])] None in
  greedyPlan (unitsOf phase0) (unitsOf phase1)
    = [MoveFrom ("ENGLAND", "F", "LON") ("ENGLAND", "F", "NTH")]
  ∧ (animateUnitsForPhase coords 0 phase1 phase0 []).2
    = [mkUnitAnimation (UnitMesh "ENGLAND" "F" "NTH")
         (mkVec 410 10 (Some 330)) (mkVec 450 10 (Some 250)) 0 1500].
Proof. by vm_compute. Qed.



Lemma advance_wraps_around_witness :
  let atLast :=
    set_currentPhaseIndex 1
      (loadGame demoCoordinates "FRANCE" [springSilent; fallSilent] pageLoad) in
  currentPhaseIndex (advanceToNextPhase demoCoordinates "FRANCE" 0 atLast) = 0.
Proof.
  intros atLast.
  assert (Hdata : gameData atLast = Some [springSilent; fallSilent])
    by (vm_compute; reflexivity).
  assert (Hrange : 0 ≤ currentPhaseIndex atLast
                   < Z.of_nat (length [springSilent; fallSilent]))
    by (simpl; lia).
  apply (proj2 (advance_wraps_around demoCoordinates "FRANCE" 0 atLast
                  [springSilent; fallSilent] Hdata Hrange)).
  simpl. lia.
Defined.

Lemma phase_index_stays_in_range_witness :
  (∃ w, run demoCoordinates "FRANCE" slowPlayback pageLoad = Some w ∧ inRange w)
  ∧ PhaseTs.inRange
      (PhaseTs.finalState
         (PhaseTs._setPhase false (λ _, tt) (λ _ s, s) 1 (bareState 0))).
Proof.
  split.
  - eexists. split; [vm_compute; reflexivity|].
    eapply (proj1 phase_index_stays_in_range demoCoordinates "FRANCE" slowPlayback
              pageLoad).
    + unfold slowPlayback. repeat constructor.
    + exact I.
    + vm_compute. reflexivity.
  - apply (proj2 phase_index_stays_in_range).
    + intros c s _. split; reflexivity.
    + unfold PhaseTs.inRange, bareState. simpl. lia.
Defined.

(** The message of the rejected request. *)
Example setPhase_error_message :
  PhaseTs._setPhase false (λ _, tt) (λ _ s, s) 5 (bareState 1)
  = PhaseTs.Threw
      "Provided invalid phaseIndex, cannot setPhase to 5 - game has 2 phases"
      (bareState 1).
Proof. by vm_compute. Qed.

(** In the TypeScript variant the advance from the last phase is such a
    rejected request: the index stays where it is. *)
Example nextPhase_at_last_phase_rejected :
  PhaseTs.nextPhase false (λ _, tt) (λ _ s, s) (λ s, s) true false true (bareState 1)
  = PhaseTs.PhaseAsked
      (PhaseTs.Threw
         "Provided invalid phaseIndex, cannot setPhase to 2 - game has 2 phases"
         (bareState 1))
  ∧ PhaseTs.phaseIndex (bareState 1) ≠ (1 + 1) mod 2.
Proof. by vm_compute. Qed.

Lemma next_phase_stops_at_last_phase_witness :
  ∃ error s',
    PhaseTs.nextPhase false (λ _, tt) (λ _ s, s) (λ s, s) true false true (bareState 1)
    = PhaseTs.PhaseAsked (PhaseTs.Threw error s')
    ∧ PhaseTs.sameReplay (bareState 1) s'.
Proof.
  destruct (proj2 next_phase_stops_at_last_phase unit unit false (λ _, tt)
              (λ _ s, s) (λ s, s) (λ s, s) true false true (bareState 1))
    as (error & s' & Heq & Hsame).
  - reflexivity.
  - intros s0. split; reflexivity.
  - intros s0. split; reflexivity.
  - exists error, s'. split; [|exact Hsame].
    exact (f_equal PhaseTs.PhaseAsked Heq).
Defined.

(** The request that [nextPhase] makes there. *)
Example stepForward_at_last_phase_rejected :
  PhaseTs.stepForward false (λ _, tt) (λ _ s, s) (bareState 1)
  = PhaseTs.Threw
      "Provided invalid phaseIndex, cannot setPhase to 2 - game has 2 phases"
      (bareState 1).
Proof. by vm_compute. Qed.

Lemma out_of_range_jump_rejected_witness :
  (2 < 0 ∨ Z.of_nat (length (PhaseTs.phases (bareState 1))) ≤ 2)
  ∧ displayPhaseWithAnimation demoCoordinates "FRANCE" 0 2
      (loadGame demoCoordinates "FRANCE" [spring; fall] pageLoad)
    = loadGame demoCoordinates "FRANCE" [spring; fall] pageLoad.
Proof.
  assert (H : 2 < 0 ∨ Z.of_nat (length (PhaseTs.phases (bareState 1))) ≤ 2)
    by (right; unfold bareState; simpl; lia).
  split; [exact H|].
  apply (proj2 (out_of_range_jump_rejected false (λ _, tt) (λ _ s, s) 2
                  (bareState 1) H)).
  right.
  assert (phaseCount (loadGame demoCoordinates "FRANCE" [spring; fall] pageLoad) = 2)
    as -> by (vm_compute; reflexivity).
  lia.
Defined.

(** * Further properties of the code *)

(** ** Unit strings *)

Lemma skipSpaces_app ws s :
  allSpaces ws = true → skipSpaces (ws +:+ s) = skipSpaces s.
Proof.
  induction ws as [|c ws IH]; [done|].
  cbn [allSpaces]. intros [Hc Hws]%andb_prop.
  rewrite append_cons. cbn [skipSpaces]. rewrite Hc. by apply IH.
Qed.

Lemma skipSpaces_fixed s :
  startsWithSpace s = false → skipSpaces s = s.
Proof. destruct s as [|c s]; [done|]. cbn. by intros ->. Qed.

Lemma skipSpaces_split s :
  ∃ ws, allSpaces ws = true ∧ s = ws +:+ skipSpaces s.
Proof.
  induction s as [|c s (ws & Hws & Hs)].
  - by exists "".
  - cbn [skipSpaces]. destruct (isSpace c) eqn:Hc.
    + exists (String c ws). cbn [allSpaces]. rewrite Hc, Hws, append_cons.
      split; [done|]. by f_equal.
    + by exists "".
Qed.

Lemma lastChar_split s l :
  lastChar s = Some l → ∃ init, s = init +:+ String l "".
Proof.
  induction s as [|c s IH]; [done|].
  destruct s as [|c' s].
  - intros [= ->]. by exists "".
  - intros H. destruct (IH H) as (init & Heq).
    exists (String c init). rewrite append_cons. by f_equal.
Qed.

Lemma allSpaces_app a b :
  allSpaces (a +:+ b) = allSpaces a && allSpaces b.
Proof.
  induction a as [|c a IH]; [done|].
  rewrite append_cons. cbn [allSpaces]. by rewrite IH, andb_assoc.
Qed.

Lemma skipSpaces_empty s : skipSpaces s = "" → allSpaces s = true.
Proof.
  induction s as [|c s IH]; [done|]. cbn [skipSpaces allSpaces].
  destruct (isSpace c); [|done]. intros H. by rewrite IH.
Qed.

(** X1.  Writing a unit as its type letter, any non-empty run of white
    space and a location that is not empty, does not begin with white
    space and holds no line terminator, and reading it back with the
    pattern of the planner, gives the type letter and the location. *)
Theorem matchUnit_reads_back (t ws loc : string) :
  t = "A" ∨ t = "F" →
  ws ≠ "" → allSpaces ws = true →
  loc ≠ "" → startsWithSpace loc = false → noLineTerminator loc = true →
  matchUnit (t +:+ ws +:+ loc) = Some (t, loc).
Proof.
  intros Ht Hne Hws Hloc Hfirst Hnl.
  destruct ws as [|w ws]; [done|].
  cbn [allSpaces] in Hws. apply andb_prop in Hws as [Hw Hws].
  assert (matchUnit (String (if decide (t = "A") then "A"%char else "F"%char)
                       (String w (ws +:+ loc))) = Some (t, loc)) as H.
  { unfold matchUnit.
    assert ((Ascii.eqb (if decide (t = "A") then "A"%char else "F"%char) "A"
             || Ascii.eqb (if decide (t = "A") then "A"%char else "F"%char) "F")
            = true) as -> by (by destruct (decide (t = "A"))).
    rewrite Hw. cbn [andb].
    rewrite (skipSpaces_app _ _ Hws), (skipSpaces_fixed _ Hfirst).
    destruct loc as [|c loc]; [done|]. rewrite Hnl.
    destruct Ht as [->| ->]; by rewrite ?decide_True, ?decide_False by done. }
  rewrite <-H. destruct Ht as [->| ->]; by rewrite ?decide_True, ?decide_False by done.
Qed.

(** X2.  Whatever the pattern of the planner accepts is a type letter A
    or F, a non-empty run of white space and a non-empty location without
    line terminator, and nothing else. *)
Theorem matchUnit_accepts_only_units (unitStr t loc : string) :
  matchUnit unitStr = Some (t, loc) →
  (t = "A" ∨ t = "F") ∧ loc ≠ "" ∧ noLineTerminator loc = true ∧
  ∃ ws, ws ≠ "" ∧ allSpaces ws = true ∧ unitStr = t +:+ ws +:+ loc.
Proof.
  intros H. split; [by eapply matchUnit_type|].
  unfold matchUnit in H.
  destruct unitStr as [|c [|w rest]]; try done.
  destruct (Ascii.eqb c "A" || Ascii.eqb c "F") eqn:Hc; [|done].
  destruct (isSpace w) eqn:Hw; [|done]. cbn [andb] in H.
  destruct (skipSpaces rest) as [|c' loc'] eqn:Hskip.
  - destruct (lastChar rest) as [l|] eqn:Hlast; [|done].
    destruct (isLineTerminator l) eqn:Hl; [done|]. injection H as <- <-.
    destruct (lastChar_split _ _ Hlast) as (init & ->).
    apply skipSpaces_empty in Hskip. rewrite allSpaces_app in Hskip.
    apply andb_prop in Hskip as [Hinit _].
    split; [done|]. split; [cbn; by rewrite Hl|].
    exists (String w init). split; [done|]. split; [cbn; by rewrite Hw|done].
  - destruct (noLineTerminator (String c' loc')) eqn:Hnl; [|done].
    injection H as <- <-. split; [done|]. split; [done|].
    destruct (skipSpaces_split rest) as (ws & Hws & Hrest). rewrite Hskip in Hrest.
    exists (String w ws). split; [done|]. split; [cbn; by rewrite Hw|].
    rewrite Hrest at 1. done.
Qed.

(** ** Fallback positions *)

Lemma toInt32_range n : -2147483648 ≤ toInt32 n < 2147483648.
Proof. unfold toInt32. pose proof (Z.mod_pos_bound (n + 2147483648) 4294967296). lia. Qed.

Lemma hashLoop_range hash str :
  -2147483648 ≤ hash < 2147483648 → -2147483648 ≤ hashLoop hash str < 2147483648.
Proof.
  revert hash. induction str as [|c str IH]; intros hash Hh; [done|].
  cbn [hashLoop]. apply IH, toInt32_range.
Qed.

(** X3.  The hash of the fallback position never leaves the 32-bit
    range, and the position lies in the square from -1199 to 399 on the
    map plane, at height 0, for every string. *)
Theorem hashStringToPosition_in_box (str : string) :
  -2147483648 ≤ hashLoop 0 str < 2147483648 ∧
  -1199 ≤ vx (hashStringToPosition str) ≤ 399 ∧
  vy (hashStringToPosition str) = 0 ∧
  ∃ z, vz (hashStringToPosition str) = Some z ∧ -1199 ≤ z ≤ 399.
Proof.
  split; [by apply hashLoop_range|].
  unfold hashStringToPosition. cbn [vx vy vz].
  pose proof (Z.rem_bound_abs (hashLoop 0 str) 800).
  pose proof (Z.rem_bound_abs (Z.shiftr (hashLoop 0 str) 8) 800).
  split; [lia|]. split; [done|]. eexists. split; [done|]. lia.
Qed.

Lemma upperChar_idem c : upperChar (upperChar c) = upperChar c.
Proof. destruct c as [[] [] [] [] [] [] [] []]; reflexivity. Qed.

Lemma toUpperCase_idem s : toUpperCase (toUpperCase s) = toUpperCase s.
Proof.
  induction s as [|c s IH]; [done|]. cbn [toUpperCase]. by rewrite upperChar_idem, IH.
Qed.

(** X4.  Looking a location up in the coordinate file does not depend on
    the case of its letters: when the file has the province (under the
    full key or under the key of the base province), the upper-case
    spelling of the location resolves to the same position. *)
Theorem getProvincePosition_ignores_case (data : CoordinateData) (loc : string) :
  let normalized := replaceFirst "/" "_" (toUpperCase loc) in
  assoc normalized (provinces data) ≠ None
  ∨ assoc (splitHead "_" normalized) (provinces data) ≠ None →
  getProvincePosition (Some data) (toUpperCase loc)
  = getProvincePosition (Some data) loc.
Proof.
  intros normalized Hfound. unfold getProvincePosition.
  rewrite toUpperCase_idem. fold normalized.
  destruct (assoc normalized (provinces data)); [done|].
  destruct (assoc (splitHead "_" normalized) (provinces data)); [done|].
  by destruct Hfound.
Qed.

(** ** The windows of a freshly loaded replay *)

Lemma createChatWindow_fold (l : list string) (cw : gmap string ChatWindow) p :
  foldl (λ cw power, createChatWindow power false cw) cw l !! p
  = if decide (p ∈ l) then Some (emptyWindow false) else cw !! p.
Proof.
  revert cw. induction l as [|q l IH]; intros cw.
  - cbn [foldl]. rewrite decide_False; [done|]. apply not_elem_of_nil.
  - cbn [foldl]. rewrite IH. unfold createChatWindow.
    destruct (decide (p ∈ l)) as [Hin|Hnin].
    + rewrite decide_True; [done|]. by right.
    + destruct (decide (q = p)) as [->|Hne].
      * rewrite lookup_insert_eq, decide_True; [done|]. by left.
      * rewrite lookup_insert_ne by done. rewrite decide_False; [done|].
        intros [?|?]%elem_of_cons; congruence.
Qed.

(** X5.  After [createChatWindows] there is an empty GLOBAL window, an
    empty window for each of AUSTRIA, ENGLAND, GERMANY, ITALY, RUSSIA and
    TURKEY that is not the viewpoint power, and no other window. *)
Theorem createChatWindows_table (currentPower p : string) :
  createChatWindows currentPower !! p
  = if decide (p ∈ chatPowers ∧ p ≠ currentPower) then Some (emptyWindow false)
    else if decide (p = "GLOBAL") then Some (emptyWindow true)
    else None.
Proof.
  unfold createChatWindows. rewrite createChatWindow_fold.
  destruct (decide (p ∈ filter (λ power, power ≠ currentPower)
                         ["AUSTRIA"; "ENGLAND"; "GERMANY"; "ITALY"; "RUSSIA"; "TURKEY"]))
    as [Hin|Hnin].
  - apply list_elem_of_filter in Hin as [Hne Hin]. by rewrite decide_True.
  - rewrite decide_False.
    2:{ intros [Hin Hne]. apply Hnin. by apply list_elem_of_filter. }
    unfold createChatWindow. destruct (decide (p = "GLOBAL")) as [->|Hne].
    + by rewrite lookup_insert_eq.
    + rewrite lookup_insert_ne by done. by rewrite lookup_empty.
Qed.

(** ** The order of the reveal *)

Lemma insertByTime_perm m l : insertByTime m l ≡ₚ m :: l.
Proof.
  induction l as [|m' l IH]; [done|]. cbn [insertByTime].
  destruct (time_sent m <=? time_sent m'); [done|].
  rewrite IH. apply Permutation_swap.
Qed.

Lemma sortByTime_perm l : sortByTime l ≡ₚ l.
Proof.
  induction l as [|m l IH]; [done|]. cbn [sortByTime].
  by rewrite insertByTime_perm, IH.
Qed.

Lemma insertByTime_sorted m l :
  StronglySorted (λ a b, time_sent a ≤ time_sent b) l →
  StronglySorted (λ a b, time_sent a ≤ time_sent b) (insertByTime m l).
Proof.
  induction 1 as [|m' l Hl IH Hall]; cbn [insertByTime].
  - repeat constructor.
  - destruct (Z.leb_spec (time_sent m) (time_sent m')).
    + constructor; [by constructor|]. constructor; [done|].
      eapply Forall_impl; [done|]. cbn. lia.
    + constructor; [done|].
      rewrite (insertByTime_perm m l). constructor; [lia|done].
Qed.

Lemma sortByTime_sorted l :
  StronglySorted (λ a b, time_sent a ≤ time_sent b) (sortByTime l).
Proof.
  induction l as [|m l IH]; [constructor|]. cbn [sortByTime].
  by apply insertByTime_sorted.
Qed.

Lemma insertByTime_stable m l t :
  filter (λ a, time_sent a = t) (insertByTime m l)
  = filter (λ a, time_sent a = t) (m :: l).
Proof.
  induction l as [|m' l IH]; [done|]. cbn [insertByTime].
  destruct (Z.leb_spec (time_sent m) (time_sent m')); [done|].
  rewrite (filter_cons _ m'), IH, !(filter_cons _ m), (filter_cons _ m').
  destruct (decide (time_sent m' = t)), (decide (time_sent m = t)); try done. lia.
Qed.

Lemma sortByTime_stable l t :
  filter (λ a, time_sent a = t) (sortByTime l) = filter (λ a, time_sent a = t) l.
Proof.
  induction l as [|m l IH]; [done|]. cbn [sortByTime].
  by rewrite insertByTime_stable, !(filter_cons _ m), IH.
Qed.

(** X6.  The messages a phase reveals are exactly its messages from, to
    or broadcast past the viewpoint power, in non-decreasing order of
    [time_sent]; messages with the same time stamp keep the order they
    have in the replay. *)
Theorem relevantMessages_in_time_order (currentPower : string) (phase : Phase) :
  let qualifying := filter (λ msg, isRelevant currentPower msg = true) (messages phase) in
  StronglySorted (λ a b, time_sent a ≤ time_sent b) (relevantMessages currentPower phase)
  ∧ relevantMessages currentPower phase ≡ₚ qualifying
  ∧ ∀ t, filter (λ a, time_sent a = t) (relevantMessages currentPower phase)
         = filter (λ a, time_sent a = t) qualifying.
Proof.
  unfold relevantMessages. split; [apply sortByTime_sorted|].
  split; [apply sortByTime_perm|]. intros t. apply sortByTime_stable.
Qed.

(** ** Identity keys *)

Lemma pretty_N_char_digit x : isDigit (pretty_N_char x) = true.
Proof. unfold pretty_N_char. by repeat case_match. Qed.

Lemma pretty_N_go_digits x s :
  ∃ d, allDigits d = true ∧ pretty_N_go x s = d +:+ s ∧ ((0 < x)%N → d ≠ "").
Proof.
  revert s. induction (N.lt_wf_0 x) as [x _ IH]; intros s.
  destruct (decide (x = 0)%N) as [->|Hx].
  - exists "". rewrite pretty_N_go_0. split; [done|]. split; [done|]. lia.
  - rewrite pretty_N_go_step by lia.
    destruct (IH (x `div` 10)%N) with (s := String (pretty_N_char (x `mod` 10)) s)
      as (d & Hd & Heq & _).
    { apply N.div_lt; lia. }
    exists (d +:+ String (pretty_N_char (x `mod` 10)) "").
    split; [|split].
    + clear Heq. induction d as [|c d IHd].
      * rewrite append_empty. cbn [allDigits]. by rewrite pretty_N_char_digit.
      * cbn [allDigits] in Hd. apply andb_prop in Hd as [Hc Hd].
        rewrite append_cons. cbn [allDigits]. by rewrite Hc, IHd.
    + rewrite Heq. clear. induction d as [|c d IHd]; [done|].
      rewrite !append_cons. by f_equal.
    + intros _. by destruct d.
Qed.

Lemma pretty_N_digits (x : N) :
  ∃ d, allDigits d = true ∧ d ≠ "" ∧ pretty x = d.
Proof.
  unfold pretty, pretty_N. destruct (decide (x = 0)%N) as [->|Hx].
  - by exists "0".
  - destruct (pretty_N_go_digits x "") as (d & Hd & Heq & Hne).
    exists d. split; [done|]. split; [apply Hne; lia|].
    rewrite Heq. clear. induction d as [|c d IH]; [done|].
    rewrite append_cons. by f_equal.
Qed.

Lemma allDigits_noDash d : allDigits d = true → noDash d = true.
Proof.
  induction d as [|c d IH]; [done|]. cbn [allDigits noDash].
  intros [Hc Hd]%andb_prop. rewrite (IH Hd), andb_true_r.
  destruct (Ascii.eqb_spec c "-") as [->|]; [done|done].
Qed.

Lemma digits_not_dash d s s' :
  allDigits d = true → d ≠ "" → d +:+ s ≠ String "-" s'.
Proof.
  destruct d as [|c d]; [done|]. cbn [allDigits]. intros [Hc _]%andb_prop _.
  rewrite append_cons. intros [= -> _]. done.
Qed.

(** The decimal rendering of a time stamp, followed by the separator and
    the text, determines the time stamp and the text. *)
Lemma pretty_dash_inj (t t' : Z) (s s' : string) :
  pretty t +:+ String "-" s = pretty t' +:+ String "-" s' → t = t' ∧ s = s'.
Proof.
  assert (Hpos : ∀ p : positive, ∃ d, allDigits d = true ∧ d ≠ "" ∧ pretty (Zpos p) = d).
  { intros p. apply (pretty_N_digits (Npos p)). }
  assert (Hzero : ∃ d, allDigits d = true ∧ d ≠ "" ∧ pretty 0 = d) by (by exists "0").
  assert (Hneg : ∀ p : positive, ∃ d, allDigits d = true ∧ d ≠ ""
                   ∧ pretty (Zneg p) = String "-" d).
  { intros p. destruct (pretty_N_digits (Npos p)) as (d & ? & ? & Hd).
    exists d. split; [done|]. split; [done|].
    unfold pretty at 1, pretty_Z. change (pretty p) with (pretty (Npos p)).
    by rewrite Hd. }
  assert (Hnonneg : ∀ t : Z, 0 ≤ t → ∃ d, allDigits d = true ∧ d ≠ "" ∧ pretty t = d).
  { intros [|p|p] ?; [done|apply Hpos|lia]. }
  intros Heq.
  destruct (Z.le_gt_cases 0 t) as [Ht|Ht], (Z.le_gt_cases 0 t') as [Ht'|Ht'].
  - destruct (Hnonneg t Ht) as (d & Hd & Hne & Hp).
    destruct (Hnonneg t' Ht') as (d' & Hd' & Hne' & Hp').
    rewrite Hp, Hp' in Heq.
    apply append_dash_inj in Heq as [-> ->]; [|by apply allDigits_noDash..].
    split; [|done]. apply (inj pretty). by rewrite Hp, Hp'.
  - destruct (Hnonneg t Ht) as (d & Hd & Hne & Hp).
    destruct t' as [|p|p]; try lia.
    destruct (Hneg p) as (d' & _ & _ & Hp').
    rewrite Hp, Hp', append_cons in Heq. by apply digits_not_dash in Heq.
  - destruct (Hnonneg t' Ht') as (d' & Hd' & Hne' & Hp').
    destruct t as [|p|p]; try lia.
    destruct (Hneg p) as (d & _ & _ & Hp).
    rewrite Hp, Hp', append_cons in Heq. symmetry in Heq.
    by apply digits_not_dash in Heq.
  - destruct t as [|p|p]; try lia. destruct t' as [|p'|p']; try lia.
    destruct (Hneg p) as (d & Hd & _ & Hp). destruct (Hneg p') as (d' & Hd' & _ & Hp').
    rewrite Hp, Hp', !append_cons in Heq. injection Heq as Heq.
    apply append_dash_inj in Heq as [-> ->]; [|by apply allDigits_noDash..].
    split; [|done]. apply (inj pretty). by rewrite Hp, Hp'.
Qed.

(** X7.  Two messages between powers whose names hold no dash have the
    same identity key only when they are the same message: sender,
    recipient, time stamp and text can be read back from the key, so the
    deduplication by key never takes two different messages for one. *)
Theorem msgId_injective (m1 m2 : Message) :
  plainNames m1 → plainNames m2 → msgId m1 = msgId m2 → m1 = m2.
Proof.
  intros [Hs1 Hr1] [Hs2 Hr2]. destruct m1 as [s1 r1 t1 x1], m2 as [s2 r2 t2 x2].
  unfold msgId. cbn [sender recipient time_sent message] in *.
  change (s1 +:+ "-" +:+ r1 +:+ "-" +:+ pretty t1 +:+ "-" +:+ x1)
    with (s1 +:+ String "-" (r1 +:+ String "-" (pretty t1 +:+ String "-" x1))).
  change (s2 +:+ "-" +:+ r2 +:+ "-" +:+ pretty t2 +:+ "-" +:+ x2)
    with (s2 +:+ String "-" (r2 +:+ String "-" (pretty t2 +:+ String "-" x2))).
  intros [-> Heq]%append_dash_inj; [|done..].
  apply append_dash_inj in Heq as [-> Heq]; [|done..].
  by apply pretty_dash_inj in Heq as [-> ->].
Qed.

(** ** Sessions *)

Section Sessions.

Variable coordinateData : option CoordinateData.
Variable currentPower : string.

(** A property that every deliverable event of a kind keeps holds along
    every trace of events of that kind. *)
Lemma run_invariant (P : World → Prop) (ok : Event → bool) :
  (∀ e w w', ok e = true → P w →
     step coordinateData currentPower e w = Some w' → P w') →
  ∀ es w w', forallb ok es = true → P w →
    run coordinateData currentPower es w = Some w' → P w'.
Proof.
  intros Hstep. induction es as [|e es IH]; intros w w' Hok Hw Hrun.
  - by injection Hrun as <-.
  - cbn [run] in Hrun. cbn [forallb] in Hok. apply andb_prop in Hok as [He Hes].
    destruct (step coordinateData currentPower e w) as [w1|] eqn:Hs; [|done].
    eapply IH; [done| |done]. by eapply Hstep.
Qed.

(** *** Timer handles *)

Lemma handlesFresh_frame w w' :
  timers w' = timers w → nextHandle w' = nextHandle w →
  playbackTimer w' = playbackTimer w → handlesFresh w → handlesFresh w'.
Proof. unfold handlesFresh. by intros -> -> ->. Qed.

Lemma setTimeout_fresh cb delay now w :
  handlesFresh w → handlesFresh (setTimeout cb delay now w).2.
Proof.
  intros (Hnd & Hlt & Hpt). unfold handlesFresh, setTimeout. cbn.
  split; [|split].
  - rewrite fmap_app. apply NoDup_app. split; [done|]. split; [|apply NoDup_singleton].
    intros h Hh ->%list_elem_of_singleton.
    apply list_elem_of_fmap in Hh as (t & Heq & Ht).
    rewrite Forall_forall in Hlt. specialize (Hlt t Ht). cbn in Hlt, Heq. lia.
  - apply Forall_app. split.
    + eapply Forall_impl; [done|]. cbn. lia.
    + repeat constructor. cbn. lia.
  - intros h Hh. specialize (Hpt h Hh). lia.
Qed.

Lemma clearTimeout_fresh h w : handlesFresh w → handlesFresh (clearTimeout h w).
Proof.
  intros (Hnd & Hlt & Hpt). unfold handlesFresh, clearTimeout. cbn.
  split; [|split; [|done]].
  - apply (sublist_NoDup _ (handle <$> timers w));
      first [exact Hnd | apply fmap_sublist, sublist_filter].
  - rewrite Forall_forall in Hlt |- *. intros t [_ Ht]%list_elem_of_filter. by apply Hlt.
Qed.

Lemma armAdvance_fresh now w : handlesFresh w → handlesFresh (armAdvance now w).
Proof.
  intros Hw. pose proof (setTimeout_fresh AdvanceCb (playbackSpeed w) now w Hw) as H.
  unfold armAdvance, setTimeout in *. cbn in *.
  destruct H as (Hnd & Hlt & Hpt). split; [done|]. split; [done|].
  cbn. intros h [= <-]. lia.
Qed.

Lemma showNext_fresh now phaseName relevant index w :
  handlesFresh w →
  handlesFresh (showNext currentPower now phaseName relevant index w).
Proof.
  intros Hw. unfold showNext. destruct (relevant !! index) as [msg|].
  - case_match; [done|].
    destruct (revealOne _ _ _ _) as [cw nods]. by apply setTimeout_fresh.
  - case_match; [apply armAdvance_fresh|]; by eapply handlesFresh_frame.
Qed.

Lemma updateChatWindows_fresh now phase stepMessages w :
  handlesFresh w →
  handlesFresh (updateChatWindows currentPower now phase stepMessages w).
Proof.
  intros Hw. unfold updateChatWindows.
  destruct (messages phase); [by eapply handlesFresh_frame|]. destruct stepMessages.
  - apply showNext_fresh. by eapply handlesFresh_frame.
  - destruct (revealAll _ _ _ _) as [completion [cw nods]].
    destruct (throws completion); by eapply handlesFresh_frame.
Qed.

Lemma displayPhaseWithAnimation_fresh now index w :
  handlesFresh w →
  handlesFresh (displayPhaseWithAnimation coordinateData currentPower now index w).
Proof.
  intros Hw. unfold displayPhaseWithAnimation.
  repeat case_match; try done. by apply updateChatWindows_fresh.
Qed.

Lemma advanceToNextPhase_fresh now w :
  handlesFresh w →
  handlesFresh (advanceToNextPhase coordinateData currentPower now w).
Proof.
  intros Hw. unfold advanceToNextPhase. case_match; [|done].
  apply displayPhaseWithAnimation_fresh. case_match; by eapply handlesFresh_frame.
Qed.

Lemma togglePlayback_fresh now w :
  handlesFresh w → handlesFresh (togglePlayback coordinateData currentPower now w).
Proof.
  intros Hw. unfold togglePlayback.
  destruct (gameData w) as [phases|]; [|done].
  destruct (Z.of_nat (length phases) <=? 1); [done|].
  destruct (negb (isPlaying w)) eqn:Hp; cbn [isPlaying set_isPlaying]; rewrite ?Hp.
  - repeat case_match;
      first [done | by apply displayPhaseWithAnimation_fresh
            | by apply updateChatWindows_fresh].
  - destruct (playbackTimer w) as [h|] eqn:Hh; cbn [playbackTimer set_isPlaying];
      rewrite ?Hh.
    + pose proof (clearTimeout_fresh h w Hw) as (Hnd & Hlt & _).
      split; [done|]. split; [done|]. done.
    + by eapply handlesFresh_frame.
Qed.

Lemma tickAnimation_fresh now k anim w :
  handlesFresh w → handlesFresh (tickAnimation now k anim w).
Proof.
  intros Hw. unfold tickAnimation. repeat case_match; try done.
  by apply armAdvance_fresh.
Qed.

Lemma forEachAnimation_fresh now remaining k w :
  handlesFresh w → handlesFresh (forEachAnimation now remaining k w).
Proof.
  revert k w. induction remaining as [|r IH]; intros k w Hw; [done|].
  cbn [forEachAnimation]. apply IH. case_match; [|done]. by apply tickAnimation_fresh.
Qed.

Lemma animate_fresh now w :
  handlesFresh w → handlesFresh (animate coordinateData now w).
Proof.
  intros Hw. unfold animate. repeat case_match; try done;
    apply forEachAnimation_fresh; try done; by eapply handlesFresh_frame.
Qed.

Lemma loadGame_fresh phases w :
  handlesFresh w → handlesFresh (loadGame coordinateData currentPower phases w).
Proof.
  intros Hw. unfold loadGame, displayInitialPhase.
  destruct phases; [by eapply handlesFresh_frame|].
  repeat case_match; by eapply handlesFresh_frame.
Qed.

Lemma step_fresh e w w' :
  handlesFresh w → step coordinateData currentPower e w = Some w' → handlesFresh w'.
Proof.
  intros Hw Hstep.
  destruct e as [now|h now|now|now|now|value now|phases]; cbn [step] in Hstep.
  - injection Hstep as <-. by apply animate_fresh.
  - destruct (findTimer h w) as [t|]; [|done]. injection Hstep as <-.
    pose proof (clearTimeout_fresh h w Hw).
    destruct (callback t) as [|phaseName relevant index]; cbn [runCallback].
    + by apply advanceToNextPhase_fresh.
    + by apply showNext_fresh.
  - destruct (playDisabled w); [done|]. injection Hstep as <-.
    by apply togglePlayback_fresh.
  - destruct (prevDisabled w); [done|]. injection Hstep as <-.
    unfold prevClick. case_match; [|done].
    apply displayPhaseWithAnimation_fresh. by eapply handlesFresh_frame.
  - destruct (nextDisabled w); [done|]. injection Hstep as <-.
    unfold nextClick. repeat case_match; try done.
    apply displayPhaseWithAnimation_fresh. by eapply handlesFresh_frame.
  - injection Hstep as <-. unfold speedChange.
    cbn [playbackTimer set_playbackSpeed isPlaying].
    repeat case_match; try (by eapply handlesFresh_frame).
    apply armAdvance_fresh.
    eapply (handlesFresh_frame (clearTimeout _ w)); [done..|].
    by apply clearTimeout_fresh.
  - injection Hstep as <-. by apply loadGame_fresh.
Qed.


Lemma pageLoad_fresh : handlesFresh pageLoad.
Proof.
  split; [constructor|]. split; [constructor|]. by intros h.
Qed.

Lemma run_fresh es w :
  run coordinateData currentPower es pageLoad = Some w → handlesFresh w.
Proof.
  intros Hrun.
  eapply (run_invariant handlesFresh (λ _, true)); [| | |exact Hrun].
  - intros e w1 w2 _ H1 Hs. by eapply step_fresh.
  - clear. by induction es.
  - apply pageLoad_fresh.
Qed.

(** *** A reveal chain run to its end *)

Lemma filter_none {A} (P : A → Prop) `{∀ x, Decision (P x)} (l : list A) :
  Forall (λ x, ¬ P x) l → filter P l = [].
Proof.
  induction 1 as [|x l Hx _ IH]; [done|]. by rewrite filter_cons_False.
Qed.

Lemma findTimer_armed cb delay now w :
  handlesFresh w →
  findTimer (nextHandle w) (setTimeout cb delay now w).2
  = Some (mkTimer (nextHandle w) cb (now + delay)).
Proof.
  intros (_ & Hlt & _). unfold findTimer, setTimeout. cbn [snd timers set_timers].
  rewrite filter_app, filter_none.
  - by rewrite filter_cons_True.
  - eapply Forall_impl; [done|]. cbn. lia.
Qed.

(** A message whose bucket bears no inherited name is revealed without a
    throw, whatever the windows are. *)
Lemma ordinary_bucket_calm msg phaseName cw :
  inherited (targetPowerOf currentPower msg) = false →
  throws (addMessageToChat currentPower msg phaseName cw).1 = false.
Proof. intros Hi. by rewrite throws_lookup, Hi, andb_false_r. Qed.

Lemma chain_runs phaseName relevant times :
  Forall (λ msg, inherited (targetPowerOf currentPower msg) = false) relevant →
  ∀ index w h due,
    handlesFresh w → nextHandle w = h + 1 →
    findTimer h w = Some (mkTimer h (ShowNextCb phaseName relevant index) due) →
    (index ≤ length relevant)%nat →
    length times = (S (length relevant) - index)%nat →
    ∃ w', run coordinateData currentPower (chainFires h times) w = Some w'
      ∧ (chatWindows w', headNods w')
        = foldl (revealOne currentPower phaseName) (chatWindows w, headNods w)
                (drop index relevant)
      ∧ messagesPlaying w' = false.
Proof.
  intros Hcalm.
  induction times as [|now times IH]; intros index w h due Hw Hnext Hfind Hle Hlen.
  { cbn in Hlen. lia. }
  cbn [chainFires run step]. rewrite Hfind. cbn [callback runCallback].
  pose proof (clearTimeout_fresh h w Hw) as Hw1.
  unfold showNext.
  destruct (relevant !! index) as [msg|] eqn:Hmsg.
  - rewrite ordinary_bucket_calm
      by (eapply Forall_forall in Hcalm; [done|by eapply list_elem_of_lookup_2]).
    destruct (revealOne currentPower phaseName
                (chatWindows (clearTimeout h w), headNods (clearTimeout h w)) msg)
      as [cw nods] eqn:Hreveal.
    set (w1 := set_chat cw nods (clearTimeout h w)).
    assert (handlesFresh w1) as Hfresh1 by done.
    assert (nextHandle w1 = h + 1) as Hnext1 by done.
    pose proof (findTimer_armed (ShowNextCb phaseName relevant (S index))
                  (playbackSpeed w1 * 3) now w1 Hfresh1) as Harmed.
    rewrite Hnext1 in Harmed.
    pose proof (lookup_lt_Some _ _ _ Hmsg) as Hlt.
    destruct (IH (S index) (setTimeout (ShowNextCb phaseName relevant (S index))
                              (playbackSpeed w1 * 3) now w1).2 (h + 1)
                (now + playbackSpeed w1 * 3)
                (setTimeout_fresh _ _ _ _ Hfresh1)) as (w' & Hrun & Hchat & Hflag);
      [cbn; lia|exact Harmed|lia|cbn [length] in Hlen; lia|].
    exists w'. split; [done|]. split; [|done].
    rewrite Hchat. rewrite (drop_S _ _ _ Hmsg). cbn [foldl].
    change (chatWindows (clearTimeout h w)) with (chatWindows w) in Hreveal.
    change (headNods (clearTimeout h w)) with (headNods w) in Hreveal.
    by rewrite Hreveal.
  - apply lookup_ge_None in Hmsg.
    assert (times = []) as -> by (destruct times; [done|cbn [length] in Hlen; lia]).
    rewrite drop_ge by done. cbn [chainFires run foldl].
    eexists. split; [done|]. unfold armAdvance, setTimeout. by case_match.
Qed.

End Sessions.

(** X8.  In every state a session can reach, for a phase none of whose
    qualifying messages goes to a bucket with a name that every object
    inherits: the step-by-step reveal of the phase, with the timeouts of
    its chain expiring one after the other at any clock readings, shows
    exactly what the reveal of the whole phase at once shows: the same
    chat windows and the same head animations, and it ends with
    [messagesPlaying] cleared. *)
Theorem stepwise_reveal_matches_whole (coordinateData : option CoordinateData)
    (currentPower : string) (es : list Event) (w : World) (now : Z)
    (phase : Phase) (times : list Z) :
  run coordinateData currentPower es pageLoad = Some w →
  length times = length (relevantMessages currentPower phase) →
  Forall (λ msg, inherited (targetPowerOf currentPower msg) = false)
         (relevantMessages currentPower phase) →
  ∃ w', run coordinateData currentPower (chainFires (nextHandle w) times)
            (updateChatWindows currentPower now phase true w) = Some w'
    ∧ chatWindows w' = chatWindows (updateChatWindows currentPower now phase false w)
    ∧ headNods w' = headNods (updateChatWindows currentPower now phase false w)
    ∧ messagesPlaying w' = false.
Proof.
  intros Hw%run_fresh Hlen Hcalm. unfold updateChatWindows.
  destruct (messages phase) as [|m ms] eqn:Hmsgs.
  { assert (times = []) as ->.
    { unfold relevantMessages in Hlen. rewrite Hmsgs in Hlen. by destruct times. }
    by eexists. }
  clear Hmsgs.
  set (relevant := relevantMessages currentPower phase) in *.
  rewrite (revealAll_calm currentPower (name phase) relevant (chatWindows w, headNods w))
    by (eapply Forall_impl; [exact Hcalm|];
        intros msg Hmsg; by apply ordinary_bucket_calm).
  destruct (foldl (revealOne currentPower (name phase)) (chatWindows w, headNods w)
              relevant) as [cw nods] eqn:Hall.
  cbn [throws chatWindows headNods set_messagesPlaying set_chat].
  unfold showNext.
  destruct (relevant !! 0%nat) as [msg|] eqn:Hmsg.
  - rewrite ordinary_bucket_calm
      by (eapply Forall_forall in Hcalm; [done|by eapply list_elem_of_lookup_2]).
    destruct (revealOne currentPower (name phase)
                (chatWindows (set_messagesPlaying true w),
                 headNods (set_messagesPlaying true w)) msg) as [cw1 nods1] eqn:Hreveal.
    set (w1 := set_chat cw1 nods1 (set_messagesPlaying true w)).
    assert (handlesFresh w1) as Hfresh1 by done.
    pose proof (findTimer_armed (ShowNextCb (name phase) relevant 1)
                  (playbackSpeed w1 * 3) now w1 Hfresh1) as Harmed.
    destruct (chain_runs coordinateData currentPower (name phase) relevant times Hcalm
                1%nat
                (setTimeout (ShowNextCb (name phase) relevant 1)
                   (playbackSpeed w1 * 3) now w1).2 (nextHandle w)
                (now + playbackSpeed w1 * 3)
                (setTimeout_fresh _ _ _ _ Hfresh1)) as (w' & Hrun & Hchat & Hflag);
      [done|exact Harmed| |lia|].
    { apply lookup_lt_Some in Hmsg. lia. }
    exists w'. split; [done|].
    assert (relevant = msg :: drop 1 relevant) as Hsplit.
    { destruct relevant as [|m0 rest]; [done|]. cbn in Hmsg. by injection Hmsg as ->. }
    rewrite Hsplit in Hall. cbn [foldl] in Hall.
    change (chatWindows (set_messagesPlaying true w)) with (chatWindows w) in Hreveal.
    change (headNods (set_messagesPlaying true w)) with (headNods w) in Hreveal.
    rewrite Hreveal in Hall.
    change (chatWindows (setTimeout (ShowNextCb (name phase) relevant 1)
                           (playbackSpeed w1 * 3) now w1).2) with cw1 in Hchat.
    change (headNods (setTimeout (ShowNextCb (name phase) relevant 1)
                        (playbackSpeed w1 * 3) now w1).2) with nods1 in Hchat.
    rewrite Hall in Hchat. by injection Hchat as -> ->.
  - assert (relevant = []) as Hnil by (by destruct relevant).
    rewrite Hnil in Hlen, Hall. destruct times; [|done].
    cbn [foldl] in Hall. injection Hall as <- <-.
    cbn [chainFires run]. eexists. split; [done|].
    unfold armAdvance, setTimeout. by case_match.
Qed.

(** *** Chat windows only grow *)

Section Growth.

Variable coordinateData : option CoordinateData.
Variable currentPower : string.

Lemma chatGrows_refl cw : chatGrows cw cw.
Proof. split; [done|]. intros b win Hb. by exists win. Qed.

Lemma chatGrows_trans cw1 cw2 cw3 :
  chatGrows cw1 cw2 → chatGrows cw2 cw3 → chatGrows cw1 cw3.
Proof.
  intros [Hd12 H12] [Hd23 H23]. split; [congruence|].
  intros b win Hb. destruct (H12 b win Hb) as (win2 & Hb2 & Hp2 & Hs2 & Hg2).
  destruct (H23 b win2 Hb2) as (win3 & Hb3 & Hp3 & Hs3 & Hg3).
  exists win3. split; [done|]. split; [by etrans|].
  split; [by etrans|congruence].
Qed.

Lemma grows_refl w : grows w w.
Proof. split; [apply chatGrows_refl|done]. Qed.

Lemma grows_trans w1 w2 w3 : grows w1 w2 → grows w2 w3 → grows w1 w3.
Proof.
  intros [H12 Hn12] [H23 Hn23]. split; [by eapply chatGrows_trans|by etrans].
Qed.

Lemma grows_frame w w' :
  chatWindows w' = chatWindows w → headNods w' = headNods w → grows w w'.
Proof. unfold grows. intros -> ->. split; [apply chatGrows_refl|done]. Qed.

Lemma revealOne_grows phaseName st msg :
  chatGrows st.1 (revealOne currentPower phaseName st msg).1
  ∧ st.2 `prefix_of` (revealOne currentPower phaseName st msg).2.
Proof.
  destruct st as [cw nods]. unfold revealOne, addMessageToChat. cbn [fst snd].
  destruct (cw !! targetPowerOf currentPower msg) as [win|] eqn:Hwin.
  2:{ destruct (inherited _); cbn; by (split; [apply chatGrows_refl|]). }
  destruct (decide (msgId msg ∈ seenMessages win)) as [Hin|Hnin].
  { cbn. by split; [apply chatGrows_refl|]. }
  cbn [fst snd].
  split; [|by apply prefix_app_r]. split.
  - rewrite dom_insert_L. apply elem_of_dom_2 in Hwin.
    by apply subseteq_union_1_L, singleton_subseteq_l.
  - intros b win0 Hb.
    destruct (decide (targetPowerOf currentPower msg = b)) as [<-|Hne].
    + rewrite lookup_insert_eq. eexists. split; [done|]. cbn.
      assert (win0 = win) as -> by congruence.
      split; [by apply prefix_app_r|]. split; [apply union_subseteq_r|done].
    + rewrite lookup_insert_ne by done. exists win0. by repeat split.
Qed.

Lemma reveal_fold_grows phaseName l st :
  chatGrows st.1 (foldl (revealOne currentPower phaseName) st l).1
  ∧ st.2 `prefix_of` (foldl (revealOne currentPower phaseName) st l).2.
Proof.
  revert st. induction l as [|msg l IH]; intros st.
  - split; [apply chatGrows_refl|done].
  - cbn [foldl]. destruct (revealOne_grows phaseName st msg) as [H1 H2].
    destruct (IH (revealOne currentPower phaseName st msg)) as [H3 H4].
    split; [by eapply chatGrows_trans|by etrans].
Qed.

Lemma revealAll_grows phaseName l st :
  chatGrows st.1 (revealAll currentPower phaseName l st).2.1
  ∧ st.2 `prefix_of` (revealAll currentPower phaseName l st).2.2.
Proof.
  revert st. induction l as [|msg l IH]; intros st; cbn [revealAll].
  - split; [apply chatGrows_refl|done].
  - case_match; [by split; [apply chatGrows_refl|]|].
    destruct (revealOne_grows phaseName st msg) as [H1 H2].
    destruct (IH (revealOne currentPower phaseName st msg)) as [H3 H4].
    split; [by eapply chatGrows_trans|by etrans].
Qed.

Lemma showNext_grows now phaseName relevant index w :
  grows w (showNext currentPower now phaseName relevant index w).
Proof.
  unfold showNext. destruct (relevant !! index) as [msg|].
  - case_match; [apply grows_refl|].
    pose proof (revealOne_grows phaseName (chatWindows w, headNods w) msg) as Hg.
    by destruct (revealOne _ _ _ _) as [cw nods].
  - unfold armAdvance, setTimeout. case_match; by apply grows_frame.
Qed.

Lemma updateChatWindows_grows now phase stepMessages w :
  grows w (updateChatWindows currentPower now phase stepMessages w).
Proof.
  unfold updateChatWindows. destruct (messages phase); [by apply grows_frame|].
  destruct stepMessages.
  - apply (showNext_grows now (name phase) _ 0 (set_messagesPlaying true w)).
  - pose proof (revealAll_grows (name phase) (relevantMessages currentPower phase)
                  (chatWindows w, headNods w)) as Hg.
    destruct (revealAll _ _ _ _) as [completion [cw nods]].
    by destruct (throws completion).
Qed.

Lemma displayPhaseWithAnimation_grows now index w :
  grows w (displayPhaseWithAnimation coordinateData currentPower now index w).
Proof.
  unfold displayPhaseWithAnimation.
  repeat case_match; try (by apply grows_frame).
  apply (updateChatWindows_grows now _ true
           (set_unitMeshes (filter (λ m, isSupplyCenterMesh m = true) (unitMeshes w)) w)).
Qed.

Lemma forEachAnimation_nods now remaining k w :
  headNods (forEachAnimation now remaining k w) = headNods w.
Proof.
  revert k w. induction remaining as [|r IH]; intros k w; [done|].
  cbn [forEachAnimation]. rewrite IH.
  unfold tickAnimation, armAdvance, setTimeout. by repeat case_match.
Qed.

Lemma animate_nods now w : headNods (animate coordinateData now w) = headNods w.
Proof.
  unfold animate. repeat case_match; try done; by rewrite forEachAnimation_nods.
Qed.

Lemma step_grows e w w' :
  isLoad e = false →
  step coordinateData currentPower e w = Some w' → grows w w'.
Proof.
  intros Hload Hstep.
  destruct e as [now|h now|now|now|now|value now|phases]; cbn [step] in Hstep;
    [| | | | | |done].
  - injection Hstep as <-. apply grows_frame; [apply animate_chat|apply animate_nods].
  - destruct (findTimer h w) as [t|]; [|done]. injection Hstep as <-.
    destruct (callback t) as [|phaseName relevant index]; cbn [runCallback].
    + unfold advanceToNextPhase. case_match; [|by apply grows_frame].
      case_match.
      * apply (displayPhaseWithAnimation_grows now _
                 (set_currentPhaseIndex 0 (clearTimeout h w))).
      * apply (displayPhaseWithAnimation_grows now _
                 (set_currentPhaseIndex _ (clearTimeout h w))).
    + apply (showNext_grows now phaseName relevant index (clearTimeout h w)).
  - destruct (playDisabled w); [done|]. injection Hstep as <-.
    unfold togglePlayback.
    repeat case_match; try (by apply grows_frame).
    + apply (displayPhaseWithAnimation_grows now _
               (set_buttons true true (playDisabled w) (set_isPlaying _ w))).
    + apply (updateChatWindows_grows now _ true
               (set_buttons true true (playDisabled w) (set_isPlaying _ w))).
  - destruct (prevDisabled w); [done|]. injection Hstep as <-.
    unfold prevClick. case_match; [|by apply grows_frame].
    apply (displayPhaseWithAnimation_grows now _ (set_currentPhaseIndex _ w)).
  - destruct (nextDisabled w); [done|]. injection Hstep as <-.
    unfold nextClick. repeat case_match; try (by apply grows_frame).
    apply (displayPhaseWithAnimation_grows now _ (set_currentPhaseIndex _ w)).
  - injection Hstep as <-. unfold speedChange, armAdvance, setTimeout.
    repeat case_match; by apply grows_frame.
Qed.

End Growth.

(** X10.  As long as no replay is loaded, a session only adds to the chat
    windows: no window appears or disappears, every window keeps the
    elements it shows at the head of its container in the same order and
    keeps the keys it has seen, and the log of head animations only
    grows at its end. *)
Theorem chat_windows_only_grow (coordinateData : option CoordinateData)
    (currentPower : string) (es : list Event) (w w' : World) :
  forallb (λ e, negb (isLoad e)) es = true →
  run coordinateData currentPower es w = Some w' →
  chatGrows (chatWindows w) (chatWindows w')
  ∧ headNods w `prefix_of` headNods w'.
Proof.
  revert w. induction es as [|e es IH]; intros w Hok Hrun.
  - injection Hrun as <-. apply grows_refl.
  - cbn [run] in Hrun. cbn [forallb] in Hok. apply andb_prop in Hok as [He Hes].
    destruct (step coordinateData currentPower e w) as [w1|] eqn:Hs; [|done].
    eapply grows_trans; [|by apply IH].
    eapply step_grows; [|done]. by apply negb_true_iff.
Qed.

(** *** The step buttons *)

Section Buttons.

Variable coordinateData : option CoordinateData.
Variable currentPower : string.

Lemma buttonsFollow_frame w w' :
  isPlaying w' = isPlaying w → prevDisabled w' = prevDisabled w →
  nextDisabled w' = nextDisabled w → buttonsFollow w → buttonsFollow w'.
Proof. unfold buttonsFollow. by intros -> -> ->. Qed.

Lemma showNext_buttons now phaseName relevant index w :
  buttonsFollow w →
  buttonsFollow (showNext currentPower now phaseName relevant index w).
Proof.
  intros Hw. unfold showNext, armAdvance, setTimeout.
  destruct (relevant !! index) as [msg|].
  - case_match; [done|]. by destruct (revealOne _ _ _ _) as [cw nods].
  - by case_match.
Qed.

Lemma updateChatWindows_buttons now phase stepMessages w :
  buttonsFollow w →
  buttonsFollow (updateChatWindows currentPower now phase stepMessages w).
Proof.
  intros Hw. unfold updateChatWindows.
  destruct (messages phase); [done|]. destruct stepMessages.
  - by apply showNext_buttons.
  - destruct (revealAll _ _ _ _) as [completion [cw nods]].
    by destruct (throws completion).
Qed.

Lemma displayPhaseWithAnimation_buttons now index w :
  buttonsFollow w →
  buttonsFollow (displayPhaseWithAnimation coordinateData currentPower now index w).
Proof.
  intros Hw. unfold displayPhaseWithAnimation.
  repeat case_match; try done. by apply updateChatWindows_buttons.
Qed.

Lemma forEachAnimation_buttons now remaining k w :
  buttonsFollow w → buttonsFollow (forEachAnimation now remaining k w).
Proof.
  revert k w. induction remaining as [|r IH]; intros k w Hw; [done|].
  cbn [forEachAnimation]. apply IH.
  unfold tickAnimation, armAdvance, setTimeout. by repeat case_match.
Qed.

Lemma animate_buttons now w :
  buttonsFollow w → buttonsFollow (animate coordinateData now w).
Proof.
  intros Hw. unfold animate. repeat case_match; try done;
    by apply forEachAnimation_buttons.
Qed.

Lemma togglePlayback_buttons now w :
  buttonsFollow w → buttonsFollow (togglePlayback coordinateData currentPower now w).
Proof.
  intros Hw. unfold togglePlayback.
  destruct (gameData w) as [phases|]; [|done].
  destruct (Z.of_nat (length phases) <=? 1); [done|].
  destruct (negb (isPlaying w)) eqn:Hp; cbn [isPlaying set_isPlaying]; rewrite ?Hp.
  - assert (buttonsFollow (set_buttons true true (playDisabled (set_isPlaying true w))
                             (set_isPlaying true w))) as H by done.
    repeat case_match;
      first [done | by apply displayPhaseWithAnimation_buttons
            | by apply updateChatWindows_buttons].
  - by case_match.
Qed.

Lemma step_buttons e w w' :
  isLoad e = false → buttonsFollow w →
  step coordinateData currentPower e w = Some w' → buttonsFollow w'.
Proof.
  intros Hload Hw Hstep.
  destruct e as [now|h now|now|now|now|value now|phases]; cbn [step] in Hstep;
    [| | | | | |done].
  - injection Hstep as <-. by apply animate_buttons.
  - destruct (findTimer h w) as [t|]; [|done]. injection Hstep as <-.
    destruct (callback t) as [|phaseName relevant index]; cbn [runCallback].
    + unfold advanceToNextPhase. case_match; [|done].
      apply displayPhaseWithAnimation_buttons. by case_match.
    + by apply showNext_buttons.
  - destruct (playDisabled w); [done|]. injection Hstep as <-.
    by apply togglePlayback_buttons.
  - destruct (prevDisabled w); [done|]. injection Hstep as <-.
    unfold prevClick. case_match; [|done].
    by apply displayPhaseWithAnimation_buttons.
  - destruct (nextDisabled w); [done|]. injection Hstep as <-.
    unfold nextClick. repeat case_match; try done.
    by apply displayPhaseWithAnimation_buttons.
  - injection Hstep as <-. unfold speedChange, armAdvance, setTimeout.
    by repeat case_match.
Qed.

End Buttons.

(** X11.  When the two step buttons are disabled exactly while playback
    is on (as after loading a replay into a page that is not playing),
    they stay so whatever the session does short of loading another
    replay; hence while playback is on no click on them can be
    delivered. *)
Theorem step_buttons_follow_playback (coordinateData : option CoordinateData)
    (currentPower : string) (es : list Event) (w w' : World) :
  forallb (λ e, negb (isLoad e)) es = true →
  buttonsFollow w →
  run coordinateData currentPower es w = Some w' →
  buttonsFollow w'
  ∧ (isPlaying w' = true → ∀ now,
       step coordinateData currentPower (ClickPrev now) w' = None
       ∧ step coordinateData currentPower (ClickNext now) w' = None).
Proof.
  intros Hok Hw Hrun.
  assert (buttonsFollow w') as [Hprev Hnext].
  { eapply (run_invariant coordinateData currentPower buttonsFollow
              (λ e, negb (isLoad e))); [|exact Hok|exact Hw|exact Hrun].
    intros e w1 w2 He%negb_true_iff H1 Hs. by eapply step_buttons. }
  split; [done|]. intros Hp now. cbn [step]. by rewrite Hprev, Hnext, Hp.
Qed.

(** *** The running time of the animations *)

Section Durations.

Variable coordinateData : option CoordinateData.
Variable currentPower : string.

Lemma planner_uniform now currentPhase previousPhase meshes :
  Forall (λ anim, duration anim = animationDuration)
    (animateUnitsForPhase coordinateData now currentPhase previousPhase meshes).2.
Proof.
  unfold animateUnitsForPhase, planPhase. cbn [snd].
  assert (∀ st0,
            Forall (λ anim, duration anim = animationDuration) (ps_animations st0)
            → Forall (λ anim, duration anim = animationDuration)
                (ps_animations
                   (foldl (λ st '(power, unitArr),
                             foldl (planUnit coordinateData now power) st unitArr)
                          st0 (units currentPhase)))) as H.
  { induction (units currentPhase) as [|[power arr] us IH]; intros st0 H0; [done|].
    cbn [foldl]. apply IH. clear IH. revert st0 H0.
    induction arr as [|unitStr arr IHa]; intros st0 H0; [done|].
    cbn [foldl]. apply IHa. unfold planUnit.
    destruct (matchUnit unitStr) as [[t l]|]; [|done].
    destruct (findPrevKey _ _) as [[k pos]|]; cbn [ps_animations];
      apply Forall_app; (split; [done|]); by repeat constructor. }
  apply H. constructor.
Qed.

Lemma displayPhaseWithAnimation_uniform now index w :
  uniformAnimations w →
  uniformAnimations (displayPhaseWithAnimation coordinateData currentPower now index w).
Proof.
  intros Hw. unfold displayPhaseWithAnimation.
  destruct (gameData w) as [phases|]; [|done].
  destruct ((index <? 0) || (index >=? Z.of_nat (length phases))); [done|].
  destruct (phaseAt phases index) as [currentPhase|]; [|done].
  destruct (phaseAt phases _) as [previousPhase|]; [|done].
  destruct (messages currentPhase).
  - pose proof (planner_uniform now currentPhase previousPhase
                  (unitMeshes (set_unitMeshes
                     (filter (λ m, isSupplyCenterMesh m = true) (unitMeshes w)) w)))
      as H.
    by destruct (animateUnitsForPhase _ _ _ _ _) as [meshes anims].
  - unfold updateChatWindows, showNext, armAdvance, setTimeout.
    repeat case_match; done.
Qed.

Lemma forEachAnimation_uniform now remaining k w :
  uniformAnimations w → uniformAnimations (forEachAnimation now remaining k w).
Proof.
  revert k w. induction remaining as [|r IH]; intros k w Hw; [done|].
  cbn [forEachAnimation]. apply IH.
  destruct (unitAnimations w !! k) as [anim|]; [|done].
  unfold tickAnimation. destruct (now - startTime anim <? duration anim); [done|].
  assert (uniformAnimations (set_unitAnimations (delete k (unitAnimations w)) w)) as H.
  { unfold uniformAnimations. cbn. by apply Forall_delete. }
  unfold armAdvance, setTimeout. by case_match.
Qed.

Lemma animate_uniform now w :
  uniformAnimations w → uniformAnimations (animate coordinateData now w).
Proof.
  intros Hw. unfold animate.
  destruct (isPlaying w && negb (messagesPlaying w)
            && (length (unitAnimations w) =? 0)%nat);
    [|by apply forEachAnimation_uniform].
  destruct (gameData w) as [phases|]; [|by apply forEachAnimation_uniform].
  destruct (phaseAt phases (currentPhaseIndex w)) as [currentPhase|]; [|done].
  destruct (phaseAt phases _) as [previousPhase|]; [|done].
  pose proof (planner_uniform now currentPhase previousPhase (unitMeshes w)) as H.
  destruct (animateUnitsForPhase _ _ _ _ _) as [meshes anims].
  by apply forEachAnimation_uniform.
Qed.

Lemma step_uniform e w w' :
  uniformAnimations w →
  step coordinateData currentPower e w = Some w' → uniformAnimations w'.
Proof.
  intros Hw Hstep.
  destruct e as [now|h now|now|now|now|value now|phases]; cbn [step] in Hstep.
  - injection Hstep as <-. by apply animate_uniform.
  - destruct (findTimer h w) as [t|]; [|done]. injection Hstep as <-.
    destruct (callback t) as [|phaseName relevant index]; cbn [runCallback].
    + unfold advanceToNextPhase. case_match; [|done].
      apply displayPhaseWithAnimation_uniform. by case_match.
    + unfold showNext, armAdvance, setTimeout. by repeat case_match.
  - destruct (playDisabled w); [done|]. injection Hstep as <-.
    unfold togglePlayback.
    destruct (gameData w) as [phases|]; [|done].
    destruct (Z.of_nat (length phases) <=? 1); [done|].
    destruct (negb (isPlaying w)) eqn:Hp; cbn [isPlaying set_isPlaying]; rewrite ?Hp.
    + assert (uniformAnimations
                (set_buttons true true (playDisabled (set_isPlaying true w))
                   (set_isPlaying true w))) as H by done.
      destruct (phaseAt phases _) as [phase|]; [|done].
      destruct (messages phase) eqn:Hm.
      * by apply displayPhaseWithAnimation_uniform.
      * unfold updateChatWindows, showNext, armAdvance, setTimeout.
        rewrite Hm. by repeat case_match.
    + case_match; constructor.
  - destruct (prevDisabled w); [done|]. injection Hstep as <-.
    unfold prevClick. case_match; [|done].
    by apply displayPhaseWithAnimation_uniform.
  - destruct (nextDisabled w); [done|]. injection Hstep as <-.
    unfold nextClick. repeat case_match; try done.
    by apply displayPhaseWithAnimation_uniform.
  - injection Hstep as <-. unfold speedChange, armAdvance, setTimeout.
    by repeat case_match.
  - injection Hstep as <-. unfold loadGame, displayInitialPhase.
    by repeat case_match.
Qed.

End Durations.

(** X12.  In every state a session can reach, every unit animation in
    flight runs for 1500 ms: the render loop never divides by a zero
    duration, and an animation is complete exactly from 1500 ms after its
    start. *)
Theorem animations_run_1500 (coordinateData : option CoordinateData)
    (currentPower : string) (es : list Event) (w : World) :
  run coordinateData currentPower es pageLoad = Some w →
  Forall (λ anim, duration anim = 1500) (unitAnimations w).
Proof.
  intros Hrun.
  eapply (run_invariant coordinateData currentPower uniformAnimations (λ _, true));
    [| | |exact Hrun].
  - intros e w1 w2 _ H1 Hs. by eapply step_uniform.
  - clear. by induction es.
  - constructor.
Qed.

(** *** Removing finished animations *)

Lemma tickAnimation_finished now k anim w :
  finished now anim →
  unitAnimations (tickAnimation now k anim w) = delete k (unitAnimations w)
  ∧ (delete k (unitAnimations w) ≠ [] →
     timers (tickAnimation now k anim w) = timers w).
Proof.
  unfold finished, tickAnimation. intros Hfin.
  destruct (Z.ltb_spec (now - startTime anim) (duration anim)); [lia|].
  cbn [unitAnimations set_unitAnimations].
  destruct (delete k (unitAnimations w)) as [|a l] eqn:Hdel.
  - split; [|done]. unfold armAdvance, setTimeout. cbn. by case_match.
  - by cbn.
Qed.

Lemma forEachAnimation_past now remaining k w :
  (length (unitAnimations w) ≤ k)%nat → forEachAnimation now remaining k w = w.
Proof.
  revert k. induction remaining as [|r IH]; intros k Hk; [done|].
  cbn [forEachAnimation]. rewrite lookup_ge_None_2 by done. apply IH. lia.
Qed.

Lemma delete_middle {A} (pre : list A) a rest :
  delete (length pre) (pre ++ a :: rest) = pre ++ rest.
Proof. induction pre as [|x pre IH]; [done|]. simpl. f_equal. exact IH. Qed.

Lemma forEachAnimation_finished now :
  ∀ remaining w pre rest,
    unitAnimations w = pre ++ rest →
    Forall (finished now) (unitAnimations w) →
    (length rest ≤ remaining)%nat →
    unitAnimations (forEachAnimation now remaining (length pre) w)
    = pre ++ oddPlaces rest
    ∧ (pre ≠ [] ∨ (2 ≤ length rest)%nat →
       timers (forEachAnimation now remaining (length pre) w) = timers w).
Proof.
  induction remaining as [|r IH]; intros w pre rest Hl Hfin Hlen.
  { destruct rest; [|cbn in Hlen; lia]. cbn [forEachAnimation oddPlaces].
    by rewrite Hl. }
  destruct rest as [|a rest].
  { rewrite forEachAnimation_past by (rewrite Hl, length_app; cbn; lia).
    by rewrite Hl. }
  cbn [forEachAnimation]. rewrite Hl.
  rewrite lookup_app_r by done. rewrite Nat.sub_diag. cbn [lookup list_lookup].
  assert (finished now a) as Ha.
  { rewrite Hl in Hfin. apply Forall_app in Hfin as [_ Hfin]. by inversion Hfin. }
  destruct (tickAnimation_finished now (length pre) a w Ha) as [Hdel Htimers].
  rewrite Hl, delete_middle in Hdel, Htimers.
  assert (Forall (finished now) (pre ++ rest)) as Hfin'.
  { rewrite Hl in Hfin. apply Forall_app in Hfin as [Hpre Hrest].
    apply Forall_app. split; [done|]. by inversion Hrest. }
  destruct rest as [|b rest].
  - rewrite app_nil_r in Hdel, Htimers.
    rewrite forEachAnimation_past by (rewrite Hdel; lia).
    cbn [oddPlaces]. rewrite app_nil_r. split; [done|].
    intros [Hpre|Hlen2]; [|cbn in Hlen2; lia]. by apply Htimers.
  - destruct (IH (tickAnimation now (length pre) a w) (pre ++ [b]) rest)
      as [H1 H2].
    { by rewrite Hdel, <-app_assoc. }
    { by rewrite Hdel. }
    { cbn [length] in Hlen. lia. }
    rewrite length_app in H1, H2. cbn [length] in H1, H2.
    rewrite Nat.add_1_r in H1, H2.
    cbn [oddPlaces]. rewrite H1, <-app_assoc. split; [done|].
    intros _. rewrite H2; [|left; by destruct pre].
    apply Htimers. by destruct pre.
Qed.

(** X13.  A frame of the render loop in which every animation in flight
    has run its time removes only every other one, because the array
    shrinks under the loop that walks it: the animations at the odd
    places stay for a later frame.  With two or more of them the array
    is never empty inside the loop, so that frame arms no timeout. *)
Theorem finished_animations_leave_in_halves (coordinateData : option CoordinateData)
    (now : Z) (w : World) :
  unitAnimations w ≠ [] →
  Forall (finished now) (unitAnimations w) →
  unitAnimations (animate coordinateData now w) = oddPlaces (unitAnimations w)
  ∧ ((2 ≤ length (unitAnimations w))%nat →
     timers (animate coordinateData now w) = timers w).
Proof.
  intros Hne Hfin. unfold animate.
  assert ((length (unitAnimations w) =? 0)%nat = false) as ->.
  { apply Nat.eqb_neq. by destruct (unitAnimations w). }
  rewrite andb_false_r.
  destruct (forEachAnimation_finished now (length (unitAnimations w)) w []
              (unitAnimations w)) as [H1 H2]; [done..|].
  cbn [length app] in H1, H2. split; [done|]. intros Hlen. apply H2. by right.
Qed.

(** *** The meshes on the map *)

Section Meshes.

Variable coordinateData : option CoordinateData.
Variable currentPower : string.

Lemma displayUnits_app phase ms :
  displayUnits phase ms = ms ++ map meshOf (unitsOf phase).
Proof.
  unfold displayUnits, unitsOf. revert ms.
  induction (units phase) as [|[power arr] us IH]; intros ms.
  - cbn. by rewrite app_nil_r.
  - cbn [foldl flat_map]. rewrite IH, map_app, app_assoc. f_equal.
    clear. revert ms. induction arr as [|unitStr arr IHa]; intros ms.
    + cbn. by rewrite app_nil_r.
    + cbn [foldl]. rewrite IHa, parseUnits_cons.
      destruct (matchUnit unitStr) as [[t l]|]; [|done].
      by rewrite <-app_assoc.
Qed.

Lemma displaySupplyCenters_app ms :
  displaySupplyCenters coordinateData ms
  = ms ++ displaySupplyCenters coordinateData [].
Proof.
  unfold displaySupplyCenters. destruct coordinateData as [data|];
    [|by rewrite app_nil_r].
  generalize (provinces data). intros ps.
  assert (∀ acc, foldl (λ ms '(province, d),
                         if isSupplyCenter d && bool_decide (province ∈ coordinates data)
                         then ms ++ [SupplyCenterMesh province] else ms) (ms ++ acc) ps
                 = ms ++ foldl (λ ms '(province, d),
                         if isSupplyCenter d && bool_decide (province ∈ coordinates data)
                         then ms ++ [SupplyCenterMesh province] else ms) acc ps) as H.
  { induction ps as [|[province d] ps IH]; intros acc; [done|].
    cbn [foldl]. case_match; [|apply IH]. rewrite <-app_assoc. apply IH. }
  rewrite <-(app_nil_r ms) at 1. apply H.
Qed.

Lemma displaySupplyCenters_markers :
  Forall (λ m, isSupplyCenterMesh m = true) (displaySupplyCenters coordinateData []).
Proof.
  unfold displaySupplyCenters. destruct coordinateData as [data|]; [|constructor].
  generalize (provinces data). intros ps.
  assert (∀ acc, Forall (λ m, isSupplyCenterMesh m = true) acc →
            Forall (λ m, isSupplyCenterMesh m = true)
              (foldl (λ ms '(province, d),
                        if isSupplyCenter d && bool_decide (province ∈ coordinates data)
                        then ms ++ [SupplyCenterMesh province] else ms) acc ps)) as H.
  { induction ps as [|[province d] ps IH]; intros acc Hacc; [done|].
    cbn [foldl]. apply IH. case_match; [|done].
    apply Forall_app. split; [done|]. by repeat constructor. }
  apply H. constructor.
Qed.

Lemma prevIndexOf_valid (phases : list Phase) index phase :
  phaseAt phases index = Some phase →
  ((index <? 0) || (index >=? Z.of_nat (length phases))) = false
  ∧ ∃ previous,
      phaseAt phases (prevIndexOf index (Z.of_nat (length phases))) = Some previous.
Proof.
  unfold phaseAt, prevIndexOf. intros H.
  destruct (Z.ltb_spec index 0); [done|].
  pose proof (lookup_lt_Some _ _ _ H) as Hlt.
  split.
  - cbn. rewrite Z.geb_leb. apply Z.leb_gt. lia.
  - destruct (Z.gtb_spec index 0).
    + destruct (Z.ltb_spec (index - 1) 0); [lia|].
      apply lookup_lt_is_Some_2. lia.
    + destruct (Z.ltb_spec (Z.of_nat (length phases) - 1) 0); [lia|].
      apply lookup_lt_is_Some_2. lia.
Qed.

Lemma forEachAnimation_meshes now remaining k w :
  unitMeshes (forEachAnimation now remaining k w) = unitMeshes w.
Proof.
  revert k w. induction remaining as [|r IH]; intros k w; [done|].
  cbn [forEachAnimation]. rewrite IH.
  unfold tickAnimation, armAdvance, setTimeout. by repeat case_match.
Qed.

End Meshes.

(** X14.  [displayInitialPhase] takes every unit mesh off the map, keeps
    the supply-centre meshes that are there, and adds a new mesh for
    every supply centre of the coordinate file and one for every unit
    string of the phase that has the unit form: a second call shows
    every supply centre twice. *)
Theorem displayInitialPhase_meshes (coordinateData : option CoordinateData)
    (index : Z) (w : World) (phases : list Phase) (phase : Phase) :
  gameData w = Some phases →
  phaseAt phases index = Some phase →
  unitMeshes (displayInitialPhase coordinateData index w)
  = filter (λ m, isSupplyCenterMesh m = true) (unitMeshes w)
      ++ displaySupplyCenters coordinateData []
      ++ map meshOf (unitsOf phase)
  ∧ Forall (λ m, isSupplyCenterMesh m = true) (displaySupplyCenters coordinateData []).
Proof.
  intros Hdata Hphase. split; [|apply displaySupplyCenters_markers].
  unfold displayInitialPhase. rewrite Hdata.
  destruct (prevIndexOf_valid phases index phase Hphase) as [-> _].
  rewrite Hphase. cbn [unitMeshes set_unitMeshes].
  by rewrite displayUnits_app, displaySupplyCenters_app, <-app_assoc.
Qed.

(** X15.  After [displayPhaseWithAnimation] has shown a phase of the
    replay, the map holds the supply-centre meshes it held before and,
    when the phase has no messages, one unit mesh for every unit string
    of the phase that has the unit form; when the phase has messages it
    holds no unit mesh at all until the render loop creates them.  No
    unit mesh of an earlier phase is left. *)
Theorem displayPhaseWithAnimation_meshes (coordinateData : option CoordinateData)
    (currentPower : string) (now index : Z) (w : World) (phases : list Phase)
    (phase : Phase) :
  gameData w = Some phases →
  phaseAt phases index = Some phase →
  unitMeshes (displayPhaseWithAnimation coordinateData currentPower now index w)
  = filter (λ m, isSupplyCenterMesh m = true) (unitMeshes w)
      ++ match messages phase with
         | [] => map meshOf (unitsOf phase)
         | _ :: _ => []
         end.
Proof.
  intros Hdata Hphase. unfold displayPhaseWithAnimation. rewrite Hdata.
  destruct (prevIndexOf_valid phases index phase Hphase) as [-> [previous ->]].
  rewrite Hphase. destruct (messages phase) as [|m ms] eqn:Hm.
  - pose proof (plan_counts coordinateData now (units phase)
                  (mkPlanState (previousUnitPositionsOf coordinateData previous)
                     (filter (λ m, isSupplyCenterMesh m = true) (unitMeshes w)) [] []))
      as [Hmeshes _].
    unfold animateUnitsForPhase, planPhase.
    cbn [unitMeshes set_unitMeshes set_unitAnimations].
    exact Hmeshes.
  - rewrite app_nil_r. unfold updateChatWindows. rewrite Hm.
    unfold showNext, armAdvance, setTimeout. by repeat case_match.
Qed.

(** X16.  A frame of the render loop never takes a mesh off the map.
    When it creates the animations of the current phase (playback on, no
    reveal in progress, no animation in flight) it adds one mesh for
    every unit string of the phase that has the unit form to the meshes
    that are there; otherwise the meshes stay as they are. *)
Theorem animate_only_adds_meshes (coordinateData : option CoordinateData)
    (now : Z) (w : World) :
  unitMeshes (animate coordinateData now w) = unitMeshes w
  ∨ ∃ phases phase,
      gameData w = Some phases
      ∧ phaseAt phases (currentPhaseIndex w) = Some phase
      ∧ isPlaying w = true ∧ messagesPlaying w = false ∧ unitAnimations w = []
      ∧ unitMeshes (animate coordinateData now w)
        = unitMeshes w ++ map meshOf (unitsOf phase).
Proof.
  unfold animate.
  destruct (isPlaying w) eqn:Hp; [|left; apply forEachAnimation_meshes].
  destruct (messagesPlaying w) eqn:Hm; [left; apply forEachAnimation_meshes|].
  destruct (unitAnimations w) as [|a l] eqn:Ha; [|left; apply forEachAnimation_meshes].
  cbn [andb negb length Nat.eqb].
  destruct (gameData w) as [phases|] eqn:Hdata; [|left; apply forEachAnimation_meshes].
  destruct (phaseAt phases (currentPhaseIndex w)) as [phase|] eqn:Hphase; [|by left].
  destruct (phaseAt phases (prevIndexOf _ _)) as [previous|]; [|by left].
  right. exists phases, phase. repeat (split; [done|]).
  pose proof (plan_counts coordinateData now (units phase)
                (mkPlanState (previousUnitPositionsOf coordinateData previous)
                   (unitMeshes w) [] [])) as [Hmeshes _].
  unfold animateUnitsForPhase, planPhase. rewrite forEachAnimation_meshes.
  cbn [unitMeshes set_unitMeshes set_unitAnimations]. exact Hmeshes.
Qed.

(** ** Where the planner sends a unit *)

Section Targets.

Variable coordinateData : option CoordinateData.

Lemma objDelete_subset {V} k (o : list (string * V)) e : e ∈ objDelete k o → e ∈ o.
Proof.
  induction o as [|[k' v'] o IH]; [done|]. cbn [objDelete].
  destruct (decide (k' = k)); [by right|].
  intros [->|?]%elem_of_cons; [by left|right; by apply IH].
Qed.

Lemma findPrevKey_elem p tbl k pos : findPrevKey p tbl = Some (k, pos) → (k, pos) ∈ tbl.
Proof.
  induction tbl as [|[k' pos'] tbl IH]; [done|]. cbn [findPrevKey].
  destruct (startsWith k' p); [intros [= -> ->]; by left|].
  intros H. right. by apply IH.
Qed.

Lemma planUnit_wellAimed now table power st unitStr :
  ps_previous st ⊆ table →
  Forall (wellAimed coordinateData now table) (ps_animations st) →
  ps_previous (planUnit coordinateData now power st unitStr) ⊆ table
  ∧ Forall (wellAimed coordinateData now table)
      (ps_animations (planUnit coordinateData now power st unitStr)).
Proof.
  intros Hsub Hall. unfold planUnit.
  destruct (matchUnit unitStr) as [[t l]|] eqn:Hm; [|done].
  pose proof (matchUnit_type _ _ _ Hm) as Ht.
  destruct (findPrevKey _ (ps_previous st)) as [[k pos]|] eqn:Hfind;
    cbn [ps_previous ps_animations].
  - split.
    + intros e He%objDelete_subset. by apply Hsub.
    + apply Forall_app. split; [done|].
      apply Forall_cons_2; [|apply Forall_nil_2].
      split; [done|]. split; [done|]. cbn. split; [done|]. split; [done|].
      right. apply list_elem_of_fmap. exists (k, pos). split; [done|].
      apply Hsub. by eapply findPrevKey_elem.
  - split; [done|]. apply Forall_app. split; [done|].
    apply Forall_cons_2; [|apply Forall_nil_2].
    split; [done|]. split; [done|]. cbn. split; [done|]. split; [done|]. by left.
Qed.

End Targets.

(** X29.  Whatever the two phases are, every animation the planner
    creates starts at the clock reading of the call, runs for 1500 ms,
    carries a unit mesh of type A or F and ends at the resolved
    coordinate of that unit's own location; it starts either 20 below
    the map plane under its end, or at a position of the table of
    previous positions. *)
Theorem planner_sends_units_home (coordinateData : option CoordinateData) (now : Z)
    (currentPhase previousPhase : Phase) (meshes : list Mesh) :
  Forall (wellAimed coordinateData now
            (previousUnitPositionsOf coordinateData previousPhase))
    (animateUnitsForPhase coordinateData now currentPhase previousPhase meshes).2.
Proof.
  unfold animateUnitsForPhase, planPhase. cbn [snd].
  set (table := previousUnitPositionsOf coordinateData previousPhase).
  assert (Hinner : ∀ power arr st,
            ps_previous st ⊆ table →
            Forall (wellAimed coordinateData now table) (ps_animations st) →
            ps_previous (foldl (planUnit coordinateData now power) st arr) ⊆ table
            ∧ Forall (wellAimed coordinateData now table)
                (ps_animations (foldl (planUnit coordinateData now power) st arr))).
  { intros power. induction arr as [|unitStr arr IHa]; intros st Hsub Hall; [done|].
    cbn [foldl].
    destruct (planUnit_wellAimed coordinateData now table power st unitStr Hsub Hall)
      as [H1 H2].
    by apply IHa. }
  assert (H : ∀ us st,
            ps_previous st ⊆ table →
            Forall (wellAimed coordinateData now table) (ps_animations st) →
            Forall (wellAimed coordinateData now table)
              (ps_animations
                 (foldl (λ st '(power, unitArr),
                           foldl (planUnit coordinateData now power) st unitArr)
                        st us))).
  { induction us as [|[power arr] us IH]; intros st Hsub Hall; [done|].
    cbn [foldl]. destruct (Hinner power arr st Hsub Hall) as [H1 H2]. by apply IH. }
  apply H; [done|constructor].
Qed.

(** X30.  Loading a replay sets the phase index to 0 and, when the replay
    has a phase, enables the three buttons and puts fresh chat windows
    in place; it neither stops playback nor cancels a timeout: the
    playing flag, the reveal flag, the animations in flight, the
    recorded timer and every pending timeout stay as they are, so a
    reveal chain of the replay before goes on in the new windows. *)
Theorem loadGame_leaves_playback_running (coordinateData : option CoordinateData)
    (currentPower : string) (phases : list Phase) (w : World) :
  let w' := loadGame coordinateData currentPower phases w in
  gameData w' = Some phases ∧ currentPhaseIndex w' = 0
  ∧ isPlaying w' = isPlaying w ∧ messagesPlaying w' = messagesPlaying w
  ∧ unitAnimations w' = unitAnimations w ∧ playbackTimer w' = playbackTimer w
  ∧ timers w' = timers w ∧ playbackSpeed w' = playbackSpeed w
  ∧ headNods w' = headNods w
  ∧ (phases ≠ [] →
     chatWindows w' = createChatWindows currentPower
     ∧ prevDisabled w' = false ∧ nextDisabled w' = false ∧ playDisabled w' = false)
  ∧ (phases = [] →
     chatWindows w' = chatWindows w ∧ unitMeshes w' = unitMeshes w
     ∧ prevDisabled w' = prevDisabled w ∧ nextDisabled w' = nextDisabled w
     ∧ playDisabled w' = playDisabled w).
Proof.
  intros w'. subst w'. unfold loadGame, displayInitialPhase.
  destruct phases as [|phase phases]; [by repeat split|].
  cbn [gameData set_gameData set_currentPhaseIndex set_buttons set_chat
       currentPhaseIndex].
  repeat case_match; by repeat split.
Qed.

(** ** The winner of a replay *)

Lemma leadingPower_snoc cs power provs :
  PhaseTs.leadingPower (cs ++ [(power, provs)])
  = if ((PhaseTs.leadingPower cs).2 <? length provs)%nat then (power, length provs)
    else PhaseTs.leadingPower cs.
Proof.
  unfold PhaseTs.leadingPower. rewrite foldl_app. cbn [foldl].
  by destruct (foldl _ _ cs) as [winner maxCenters].
Qed.

Lemma leadingPower_first_maximum cs :
  Forall (λ entry, (length entry.2 ≤ (PhaseTs.leadingPower cs).2)%nat) cs
  ∧ ((PhaseTs.leadingPower cs).2 = 0%nat → (PhaseTs.leadingPower cs).1 = "")
  ∧ ((0 < (PhaseTs.leadingPower cs).2)%nat →
     ∃ earlier provs later,
       cs = earlier ++ ((PhaseTs.leadingPower cs).1, provs) :: later
       ∧ length provs = (PhaseTs.leadingPower cs).2
       ∧ Forall (λ entry, (length entry.2 < (PhaseTs.leadingPower cs).2)%nat) earlier).
Proof.
  induction cs as [|x cs IH] using rev_ind.
  { split; [constructor|]. split; [done|]. cbn. lia. }
  destruct x as [power provs]. destruct IH as (Hmax & Hzero & Hfirst).
  rewrite leadingPower_snoc.
  destruct (Nat.ltb_spec (PhaseTs.leadingPower cs).2 (length provs)) as [Hlt|Hge];
    cbn [fst snd].
  - split; [|split].
    + apply Forall_app. split; [|by repeat constructor].
      eapply Forall_impl; [done|]. cbn. lia.
    + lia.
    + intros _. exists cs, provs, []. split; [done|]. split; [done|].
      eapply Forall_impl; [done|]. cbn. lia.
  - split; [|split].
    + apply Forall_app. split; [done|]. by repeat constructor.
    + done.
    + intros Hpos. destruct (Hfirst Hpos) as (earlier & provs' & later & Hcs & Hlen & He).
      exists earlier, provs', (later ++ [(power, provs)]).
      split; [|done]. rewrite Hcs at 1. by rewrite <-app_assoc.
Qed.

(** X17.  The winner loop of the final phase returns the largest number
    of supply centres that any power holds and the first power, in the
    order of the object, that holds as many; with no supply centre at
    all it names nobody.  [displayFinalPhase] announces exactly that
    power with that number, unless its name is empty or the number is
    zero. *)
Theorem final_phase_names_first_leader {View Menu : Type}
    (absent : PhaseTs.Absent → @PhaseTs.GameState View Menu → @PhaseTs.GameState View Menu)
    (s : @PhaseTs.GameState View Menu) (finalPhase : Phase)
    (cs : list (string * list string)) :
  last (PhaseTs.phases s) = Some finalPhase →
  centers finalPhase = Some cs →
  let winner := (PhaseTs.leadingPower cs).1 in
  let maxCenters := (PhaseTs.leadingPower cs).2 in
  Forall (λ entry, (length entry.2 ≤ maxCenters)%nat) cs
  ∧ (maxCenters = 0%nat → winner = "")
  ∧ ((0 < maxCenters)%nat →
     ∃ earlier provs later,
       cs = earlier ++ (winner, provs) :: later ∧ length provs = maxCenters
       ∧ Forall (λ entry, (length entry.2 < maxCenters)%nat) earlier)
  ∧ PhaseTs.displayFinalPhase absent s
    = if decide (winner ≠ "" ∧ (0 < maxCenters)%nat)
      then absent (PhaseTs.AnnounceVictory winner maxCenters) s
      else absent (PhaseTs.LogLine "Could not determine game winner") s.
Proof.
  intros Hlast Hcs winner maxCenters. subst winner maxCenters.
  destruct (leadingPower_first_maximum cs) as (H1 & H2 & H3).
  repeat (split; [done|]).
  unfold PhaseTs.displayFinalPhase. rewrite Hlast, Hcs.
  destruct (PhaseTs.leadingPower cs) as [winner maxCenters]. cbn [fst snd].
  destruct (String.eqb_spec winner "") as [->|Hne]; cbn [negb andb].
  - rewrite decide_False; [done|]. by intros [? _].
  - destruct (Nat.ltb_spec 0 maxCenters).
    + by rewrite decide_True.
    + rewrite decide_False; [done|]. intros [_ ?]. lia.
Qed.

(** ** Colours *)

Lemma hexValue_range c d : hexValue c = Some d → 0 ≤ d ≤ 15.
Proof.
  unfold hexValue. intros H.
  repeat (case_match; simplify_eq);
    repeat match goal with
           | H : _ && _ = true |- _ => apply andb_prop in H as [? ?]
           | H : (_ <=? _)%nat = true |- _ => apply Nat.leb_le in H
           end; lia.
Qed.

Lemma hexValue_hexDigit d : 0 ≤ d ≤ 15 → hexValue (hexDigit d) = Some d.
Proof.
  intros Hd.
  assert (d = 0 ∨ d = 1 ∨ d = 2 ∨ d = 3 ∨ d = 4 ∨ d = 5 ∨ d = 6 ∨ d = 7 ∨ d = 8
          ∨ d = 9 ∨ d = 10 ∨ d = 11 ∨ d = 12 ∨ d = 13 ∨ d = 14 ∨ d = 15) as H by lia.
  repeat (destruct H as [->|H]; [reflexivity|]). by subst.
Qed.

Lemma hexValue_not_space c d : hexValue c = Some d → isSpace c = false.
Proof. destruct c as [[] [] [] [] [] [] [] []]; by vm_compute. Qed.

Lemma hexValue_not_sign c d :
  hexValue c = Some d → c ≠ "-"%char ∧ c ≠ "+"%char ∧ c ≠ "x"%char ∧ c ≠ "X"%char.
Proof. destruct c as [[] [] [] [] [] [] [] []]; by vm_compute. Qed.

(** Two hexadecimal digits are read as sixteen times the first plus the
    second. *)
Lemma parseInt16_two_digits a b da db :
  hexValue a = Some da → hexValue b = Some db →
  parseInt16 (String a (String b "")) = Some (16 * da + db).
Proof.
  intros Ha Hb. unfold parseInt16. cbn [skipSpaces].
  rewrite (hexValue_not_space a da Ha).
  destruct (hexValue_not_sign a da Ha) as (Hm & Hp & _).
  destruct (hexValue_not_sign b db Hb) as (_ & _ & Hx & HX).
  assert (match String a (String b "") with
          | String "-" rest => (-1, rest)
          | String "+" rest => (1, rest)
          | _ => (1, String a (String b ""))
          end = (1, String a (String b ""))) as ->.
  { destruct a as [[] [] [] [] [] [] [] []]; done. }
  assert (match String a (String b "") with
          | String "0" (String "x" rest) => rest
          | String "0" (String "X" rest) => rest
          | _ => String a (String b "")
          end = String a (String b "")) as ->.
  { destruct a as [[] [] [] [] [] [] [] []]; try done;
      destruct b as [[] [] [] [] [] [] [] []]; done. }
  cbn [hexDigits]. rewrite Ha, Hb. cbn. f_equal. lia.
Qed.

Lemma nibbles_range c :
  0 ≤ c ≤ 255 → 0 ≤ c `div` 16 ≤ 15 ∧ 0 ≤ c `mod` 16 ≤ 15.
Proof.
  intros Hc. pose proof (Z.mod_pos_bound c 16). split; [|lia].
  split; [apply Z.div_pos; lia|]. apply Z.lt_succ_r, Z.div_lt_upper_bound; lia.
Qed.

Lemma parseInt16_twoHexDigits c :
  0 ≤ c ≤ 255 → parseInt16 (twoHexDigits (Some c)) = Some c.
Proof.
  intros Hc. unfold twoHexDigits.
  rewrite (parseInt16_two_digits _ _ (c `div` 16) (c `mod` 16)).
  - f_equal. pose proof (Z.div_mod c 16). lia.
  - by apply hexValue_hexDigit, nibbles_range.
  - by apply hexValue_hexDigit, nibbles_range.
Qed.

Lemma shiftChannel_range percent c :
  ∃ c', shiftChannel percent (Some c) = Some c' ∧ 0 ≤ c' ≤ 255.
Proof. eexists. split; [done|]. lia. Qed.

Lemma isHexColor_channels hex :
  isHexColor hex = true →
  ∃ r g b, channelsOf hex = (Some r, Some g, Some b)
    ∧ 0 ≤ r ≤ 255 ∧ 0 ≤ g ≤ 255 ∧ 0 ≤ b ≤ 255.
Proof.
  unfold isHexColor. intros H.
  destruct hex as [|h [|a [|b [|c [|d [|e [|f [|]]]]]]]]; try done;
    try (destruct h as [[] [] [] [] [] [] [] []]; done).
  assert (h = "#"%char) as -> by (destruct h as [[] [] [] [] [] [] [] []]; done).
  cbn [forallb] in H.
  repeat match goal with
         | H : _ && _ = true |- _ => apply andb_prop in H as [? H]
         | H : bool_decide _ = true |- _ => apply bool_decide_eq_true in H as [? H]
         end.
  unfold channelsOf, substr. cbn [String.substring].
  repeat match goal with
         | Ha : hexValue ?a = Some _, Hb : hexValue ?b = Some _
           |- context [parseInt16 (String ?a (String ?b ""))] =>
             rewrite (parseInt16_two_digits a b _ _ Ha Hb)
         end.
  repeat match goal with
         | H : hexValue _ = Some _ |- _ => apply hexValue_range in H
         end.
  do 3 eexists. split; [done|]. lia.
Qed.

Lemma twoHexDigits_shape c :
  0 ≤ c ≤ 255 →
  ∃ a b, twoHexDigits (Some c) = String a (String b "")
    ∧ is_Some (hexValue a) ∧ is_Some (hexValue b).
Proof.
  intros Hc. unfold twoHexDigits. do 2 eexists. split; [done|].
  split; eexists; by apply hexValue_hexDigit, nibbles_range.
Qed.

Lemma colorShift_of_channels r g b :
  0 ≤ r ≤ 255 → 0 ≤ g ≤ 255 → 0 ≤ b ≤ 255 →
  let hex := "#" +:+ twoHexDigits (Some r) +:+ twoHexDigits (Some g)
                 +:+ twoHexDigits (Some b) in
  isHexColor hex = true ∧ channelsOf hex = (Some r, Some g, Some b).
Proof.
  intros Hr Hg Hb hex. subst hex.
  pose proof (parseInt16_twoHexDigits r Hr) as Pr.
  pose proof (parseInt16_twoHexDigits g Hg) as Pg.
  pose proof (parseInt16_twoHexDigits b Hb) as Pb.
  destruct (twoHexDigits_shape r Hr) as (r1 & r2 & Er & Hr1 & Hr2).
  destruct (twoHexDigits_shape g Hg) as (g1 & g2 & Eg & Hg1 & Hg2).
  destruct (twoHexDigits_shape b Hb) as (b1 & b2 & Eb & Hb1 & Hb2).
  rewrite Er in *. rewrite Eg in *. rewrite Eb in *.
  change ("#" +:+ String r1 (String r2 "") +:+ String g1 (String g2 "")
              +:+ String b1 (String b2 ""))
    with (String "#" (String r1 (String r2 (String g1 (String g2
            (String b1 (String b2 ""))))))).
  split.
  - cbn [isHexColor forallb]. by rewrite !bool_decide_eq_true_2.
  - unfold channelsOf, substr. cbn [String.substring].
    by rewrite Pr, Pg, Pb.
Qed.

(** X18.  For a colour in the notation [#rrggbb], with digits of either
    case, [colorShift] reads three channels from 0 to 255 and returns a
    colour in the same notation whose channels, read back, are the
    shifted ones, each clamped to 0..255; no channel is ever [NaN]. *)
Theorem colorShift_keeps_notation (hex : string) (percent : Z) :
  isHexColor hex = true →
  ∃ r g b,
    channelsOf hex = (Some r, Some g, Some b)
    ∧ (0 ≤ r ≤ 255 ∧ 0 ≤ g ≤ 255 ∧ 0 ≤ b ≤ 255)
    ∧ isHexColor (colorShift hex percent) = true
    ∧ channelsOf (colorShift hex percent)
      = (shiftChannel percent (Some r), shiftChannel percent (Some g),
         shiftChannel percent (Some b)).
Proof.
  intros Hhex.
  destruct (isHexColor_channels hex Hhex) as (r & g & b & Hch & Hr & Hg & Hb).
  exists r, g, b. split; [done|]. split; [done|].
  unfold colorShift. rewrite Hch.
  destruct (shiftChannel_range percent r) as (r' & -> & Hr').
  destruct (shiftChannel_range percent g) as (g' & -> & Hg').
  destruct (shiftChannel_range percent b) as (b' & -> & Hb').
  apply (colorShift_of_channels r' g' b' Hr' Hg' Hb').
Qed.

(** X19.  For a colour in the notation [#rrggbb]: darkening by 100
    percent or more gives black, lightening by 0 percent and darkening
    by 0 percent agree, and a colour that [colorShift] has produced is
    left as it is by a shift of 0 percent. *)
Theorem colorShift_extremes (hex : string) (percent : Z) :
  isHexColor hex = true →
  (100 ≤ percent → darkenColor hex percent = "#000000")
  ∧ lightenColor hex 0 = darkenColor hex 0
  ∧ colorShift (colorShift hex percent) 0 = colorShift hex percent.
Proof.
  intros Hhex.
  destruct (isHexColor_channels hex Hhex) as (r & g & b & Hch & Hr & Hg & Hb).
  split; [|split; [done|]].
  - intros Hp. unfold darkenColor, colorShift. rewrite Hch.
    assert (∀ c, 0 ≤ c ≤ 255 → shiftChannel (- percent) (Some c) = Some 0) as H0.
    { intros c Hc. unfold shiftChannel. cbn [option_map]. f_equal.
      assert ((c * - percent) `div` 100 ≤ - c); [|lia].
      apply Z.div_le_upper_bound; nia. }
    by rewrite !H0.
  - unfold colorShift at 2 3. rewrite Hch.
    destruct (shiftChannel_range percent r) as (r' & -> & Hr').
    destruct (shiftChannel_range percent g) as (g' & -> & Hg').
    destruct (shiftChannel_range percent b) as (b' & -> & Hb').
    destruct (colorShift_of_channels r' g' b' Hr' Hg' Hb') as [_ Hch'].
    unfold colorShift. cbn zeta in Hch'. rewrite Hch'.
    assert (∀ c, shiftChannel 0 (Some c) = Some (Z.min 255 (Z.max 0 c))) as H0.
    { intros c. unfold shiftChannel. cbn [option_map].
      by rewrite Z.mul_0_r, Z.add_0_r. }
    rewrite !H0.
    by rewrite !Z.max_r, !Z.min_r by lia.
Qed.

(** Six hexadecimal digits are read as a number of 24 bits. *)
Lemma parseInt16_six_digits a b c d e f da db dc dd de df :
  hexValue a = Some da → hexValue b = Some db → hexValue c = Some dc →
  hexValue d = Some dd → hexValue e = Some de → hexValue f = Some df →
  parseInt16 (String a (String b (String c (String d (String e (String f ""))))))
  = Some (16 * (16 * (16 * (16 * (16 * da + db) + dc) + dd) + de) + df).
Proof.
  intros Ha Hb Hc Hd He Hf. unfold parseInt16. cbn [skipSpaces].
  rewrite (hexValue_not_space a da Ha).
  destruct (hexValue_not_sign a da Ha) as (Hm & Hp & _).
  destruct (hexValue_not_sign b db Hb) as (_ & _ & Hx & HX).
  set (rest := String c (String d (String e (String f "")))).
  assert (match String a (String b rest) with
          | String "-" rest' => (-1, rest')
          | String "+" rest' => (1, rest')
          | _ => (1, String a (String b rest))
          end = (1, String a (String b rest))) as ->.
  { destruct a as [[] [] [] [] [] [] [] []]; done. }
  assert (match String a (String b rest) with
          | String "0" (String "x" rest') => rest'
          | String "0" (String "X" rest') => rest'
          | _ => String a (String b rest)
          end = String a (String b rest)) as ->.
  { destruct a as [[] [] [] [] [] [] [] []]; try done;
      destruct b as [[] [] [] [] [] [] [] []]; done. }
  subst rest. cbn [hexDigits]. rewrite Ha, Hb, Hc, Hd, He, Hf.
  cbn. f_equal. lia.
Qed.

(** The number that the map reads from a colour in the notation
    [#rrggbb] is a colour of 24 bits, never [NaN]. *)
Lemma colourNumber_rgb colour :
  isHexColor colour = true → ∃ n, colourNumber colour = Rgb n ∧ 0 ≤ n < 16777216.
Proof.
  unfold isHexColor. intros H.
  destruct colour as [|h [|a [|b [|c [|d [|e [|f [|]]]]]]]]; try done;
    try (destruct h as [[] [] [] [] [] [] [] []]; done).
  assert (h = "#"%char) as -> by (destruct h as [[] [] [] [] [] [] [] []]; done).
  cbn [forallb] in H.
  repeat match goal with
         | H : _ && _ = true |- _ => apply andb_prop in H as [? H]
         | H : bool_decide _ = true |- _ => apply bool_decide_eq_true in H as [? H]
         end.
  unfold colourNumber, substringFrom. cbn [String.length Nat.sub String.substring].
  erewrite parseInt16_six_digits by done.
  repeat match goal with
         | H : hexValue _ = Some _ |- _ => apply hexValue_range in H
         end.
  eexists. split; [done|]. lia.
Qed.

(** X20.  A power whose name is not one that every object inherits,
    known or not, has a colour in the notation [#rrggbb], so the shifts
    above apply to it and its six digits read as a number of 24 bits.
    For an inherited name ([constructor], [toString], ...) the function
    returns no string. *)
Theorem getPowerHexColor_is_colour (power : string) :
  if inherited power then getPowerHexColor power = None
  else ∃ colour, getPowerHexColor power = Some colour
         ∧ isHexColor colour = true
         ∧ ∃ n, colourNumber colour = Rgb n ∧ 0 ≤ n < 16777216.
Proof.
  destruct (inherited power) eqn:Hi.
  - unfold inherited in Hi. apply bool_decide_eq_true in Hi.
    unfold inheritedNames in Hi.
    repeat (apply elem_of_cons in Hi as [->|Hi]; [reflexivity|]).
    by apply not_elem_of_nil in Hi.
  - assert (∃ colour, getPowerHexColor power = Some colour
                      ∧ isHexColor colour = true) as (colour & Hc & Hhex).
    { unfold getPowerHexColor. cbn [assoc]. rewrite Hi.
      repeat (case_decide; [by eexists|]). by eexists. }
    exists colour. split; [done|]. split; [done|]. by apply colourNumber_rgb.
Qed.

(** ** Standings *)

Lemma objSet_keys {V} k (v : V) o :
  map fst (objSet k v o) = if decide (k ∈ map fst o) then map fst o else map fst o ++ [k].
Proof.
  induction o as [|[k' v'] o IH]; [done|]. cbn [objSet].
  destruct (decide (k' = k)) as [->|Hne].
  - cbn. rewrite decide_True; [done|]. by left.
  - cbn [map fst]. rewrite IH. destruct (decide (k ∈ map fst o)) as [Hin|Hnin].
    + rewrite decide_True; [done|]. by right.
    + rewrite decide_False; [done|]. intros [?|?]%elem_of_cons; congruence.
Qed.

Lemma assoc_objSet {V} k (v : V) o k' :
  assoc k' (objSet k v o) = if decide (k = k') then Some v else assoc k' o.
Proof.
  induction o as [|[k0 v0] o IH].
  - cbn. by destruct (decide (k = k')).
  - cbn [objSet]. destruct (decide (k0 = k)) as [->|Hne]; cbn [assoc].
    + by destruct (decide (k = k')).
    + rewrite IH. destruct (decide (k0 = k')) as [->|]; [|done].
      by rewrite decide_False.
Qed.

Lemma countsOf_snoc o power l :
  countsOf (o ++ [(power, l)])
  = if decide (power = "__proto__") then countsOf o
    else objSet power (length l) (countsOf o).
Proof. unfold countsOf. by rewrite foldl_app. Qed.

Lemma countsOf_keys o :
  NoDup (map fst (countsOf o))
  ∧ ∀ p, p ∈ map fst (countsOf o) ↔ p ∈ map fst o ∧ p ≠ "__proto__".
Proof.
  induction o as [|x o IH] using rev_ind.
  - split; [constructor|]. intros p. cbn.
    split; [by intros ?%not_elem_of_nil|by intros [?%not_elem_of_nil _]].
  - destruct x as [power l], IH as [IHn IHk]. rewrite countsOf_snoc, map_app.
    cbn [map fst]. destruct (decide (power = "__proto__")) as [->|Hproto].
    { split; [done|]. intros p. rewrite IHk, elem_of_app, list_elem_of_singleton.
      split; [intros [? ?]; by split; [left|]|].
      intros [[?| ->] ?]; done. }
    rewrite objSet_keys.
    destruct (decide (power ∈ map fst (countsOf o))) as [Hin|Hnin].
    + split; [done|]. intros p. rewrite elem_of_app, list_elem_of_singleton, IHk.
      split; [intros [? ?]; by split; [left|]|].
      intros [[?| ->] ?]; [done|]. by apply IHk.
    + split.
      * apply NoDup_app. split; [done|]. split; [|apply NoDup_singleton].
        by intros p Hp ->%list_elem_of_singleton.
      * intros p. rewrite !elem_of_app, IHk, list_elem_of_singleton.
        split; [intros [[? ?]| ->]; split; auto|].
        intros [[?| ->] ?]; auto.
Qed.

Lemma countsOf_lookup o power l :
  NoDup (map fst o) → (power, l) ∈ o → power ≠ "__proto__" →
  countOr0 (countsOf o) power = length l.
Proof.
  unfold countOr0.
  induction o as [|x o IH] using rev_ind; intros Hnd Hin Hproto.
  { by apply not_elem_of_nil in Hin. }
  destruct x as [power' l'].
  rewrite map_app in Hnd. apply NoDup_app in Hnd as (Hnd & Hfresh & _).
  rewrite countsOf_snoc.
  apply elem_of_app in Hin as [Hin|Hin%list_elem_of_singleton].
  - assert (power' ≠ power) as Hne.
    { intros ->. apply (Hfresh power); [|by left].
      apply list_elem_of_fmap. by exists (power, l). }
    case_decide; [by apply IH|].
    rewrite assoc_objSet, decide_False by done. by apply IH.
  - injection Hin as -> ->. rewrite decide_False by done.
    by rewrite assoc_objSet, decide_True.
Qed.

Lemma newSet_spec l : NoDup (newSet l) ∧ ∀ p, p ∈ newSet l ↔ p ∈ l.
Proof.
  unfold newSet. induction l as [|x l IH] using rev_ind.
  - split; [constructor|done].
  - destruct IH as [IHn IHk]. rewrite foldl_app. cbn [foldl]. unfold setAdd at 1 3.
    destruct (decide (x ∈ foldl (λ s x0, setAdd x0 s) [] l)) as [Hin|Hnin].
    + split; [done|]. intros p. rewrite elem_of_app, list_elem_of_singleton, IHk.
      split; [by left|]. intros [?| ->]; [done|]. by apply IHk.
    + split.
      * apply NoDup_app. split; [done|]. split; [|apply NoDup_singleton].
        by intros p Hp ->%list_elem_of_singleton.
      * intros p. by rewrite !elem_of_app, IHk.
Qed.

Lemma insertByCenters_perm cc a l : insertByCenters cc a l ≡ₚ a :: l.
Proof.
  induction l as [|b l IH]; [done|]. cbn [insertByCenters].
  case_match; [done|]. rewrite IH. apply Permutation_swap.
Qed.

Lemma sortByCenters_perm cc l : sortByCenters cc l ≡ₚ l.
Proof.
  induction l as [|a l IH]; [done|]. cbn [sortByCenters].
  by rewrite insertByCenters_perm, IH.
Qed.

Lemma insertByCenters_sorted cc a l :
  StronglySorted (λ x y, (countOr0 cc y ≤ countOr0 cc x)%nat) l →
  StronglySorted (λ x y, (countOr0 cc y ≤ countOr0 cc x)%nat) (insertByCenters cc a l).
Proof.
  induction 1 as [|b l Hl IH Hall]; cbn [insertByCenters].
  - repeat constructor.
  - destruct (Nat.leb_spec (countOr0 cc b) (countOr0 cc a)).
    + constructor; [by constructor|]. constructor; [done|].
      eapply Forall_impl; [done|]. cbn. lia.
    + constructor; [done|].
      rewrite (insertByCenters_perm cc a l). constructor; [lia|done].
Qed.

Lemma sortByCenters_sorted cc l :
  StronglySorted (λ x y, (countOr0 cc y ≤ countOr0 cc x)%nat) (sortByCenters cc l).
Proof.
  induction l as [|a l IH]; [constructor|]. cbn [sortByCenters].
  by apply insertByCenters_sorted.
Qed.

Lemma StronglySorted_map {A B} (R : B → B → Prop) (f : A → B) l :
  StronglySorted (λ x y, R (f x) (f y)) l → StronglySorted R (map f l).
Proof.
  induction 1 as [|x l Hl IH Hall]; [constructor|]. cbn [map].
  constructor; [done|]. by apply Forall_map.
Qed.

(** X21.  For a phase whose powers bear no name that every object
    inherits: the standings list every power that the phase names under
    its supply centres or under its units, each once, in the order of
    falling numbers of supply centres; and when the phase names no power
    twice under its units (its supply centres), the row of a power shows
    the length of its list of units (supply centres). *)
Theorem updateLeaderboard_standings (phase : Phase) :
  let centerLists := default [] (centers phase) in
  Forall (λ power, inherited power = false)
         (map fst centerLists ++ map fst (units phase)) →
  ∃ rows,
    updateLeaderboard phase = Some rows
    ∧ StronglySorted (λ x y, (y.1.2 ≤ x.1.2)%nat) rows
    ∧ NoDup (map (λ row, row.1.1) rows)
    ∧ (∀ power, power ∈ map (λ row, row.1.1) rows
                ↔ power ∈ map fst centerLists ++ map fst (units phase))
    ∧ (NoDup (map fst (units phase)) →
       ∀ power l, (power, l) ∈ units phase → ∃ c, (power, c, length l) ∈ rows)
    ∧ (NoDup (map fst centerLists) →
       ∀ power l, (power, l) ∈ centerLists → ∃ u, (power, length l, u) ∈ rows).
Proof.
  intros centerLists Hplain. unfold updateLeaderboard.
  assert (match centers phase with
          | Some cs => countsOf cs
          | None => []
          end = countsOf centerLists) as -> by (subst centerLists; by destruct (centers phase)).
  set (cc := countsOf centerLists). set (uc := countsOf (units phase)).
  set (allPowers := newSet (map fst cc ++ map fst uc)).
  destruct (newSet_spec (map fst cc ++ map fst uc)) as [Hnd Hin].
  destruct (countsOf_keys centerLists) as [_ Hck].
  destruct (countsOf_keys (units phase)) as [_ Huk].
  assert (Hproto : ∀ power, power ∈ map fst centerLists ++ map fst (units phase) →
                     inherited power = false ∧ power ≠ "__proto__").
  { intros power Hp. rewrite Forall_forall in Hplain. specialize (Hplain power Hp).
    split; [done|]. by intros ->. }
  assert (Hnames : ∀ power, power ∈ allPowers
                   ↔ power ∈ map fst centerLists ++ map fst (units phase)).
  { intros power. subst allPowers. rewrite Hin, !elem_of_app. subst cc uc.
    rewrite Hck, Huk. split.
    - intros [[? _]|[? _]]; auto.
    - intros [Hp|Hp]; [left|right]; (split; [done|]);
        apply Hproto, elem_of_app; auto. }
  assert (forallb (λ power, plainRead cc power && plainRead uc power) allPowers
          = true) as ->.
  { apply forallb_forall. intros power Hp%list_elem_of_In%Hnames.
    destruct (Hproto power Hp) as [Hi _]. unfold plainRead. rewrite Hi.
    by rewrite !orb_true_r. }
  eexists. split; [done|].
  assert (Hpowers : map (λ row : string * nat * nat, row.1.1)
                      (map (λ power, (power, countOr0 cc power, countOr0 uc power))
                           (sortByCenters cc allPowers))
                    = sortByCenters cc allPowers).
  { rewrite map_map. cbn. apply map_id. }
  assert (Hall : ∀ power, power ∈ sortByCenters cc allPowers
                 ↔ power ∈ map fst centerLists ++ map fst (units phase)).
  { intros power. by rewrite (sortByCenters_perm cc allPowers). }
  split; [|split; [|split; [|split]]].
  - apply (StronglySorted_map (λ x y : string * nat * nat, (y.1.2 ≤ x.1.2)%nat)).
    cbn. apply sortByCenters_sorted.
  - rewrite Hpowers. by rewrite (sortByCenters_perm cc allPowers).
  - intros power. by rewrite Hpowers.
  - intros Hu power l Hl. exists (countOr0 cc power).
    assert (Hp : power ∈ map fst centerLists ++ map fst (units phase)).
    { apply elem_of_app. right. apply list_elem_of_fmap. by exists (power, l). }
    apply list_elem_of_fmap. exists power. split; [|by apply Hall].
    subst uc. rewrite (countsOf_lookup _ _ l Hu Hl); [done|]. by apply Hproto.
  - intros Hc power l Hl. exists (countOr0 uc power).
    assert (Hp : power ∈ map fst centerLists ++ map fst (units phase)).
    { apply elem_of_app. left. apply list_elem_of_fmap. by exists (power, l). }
    apply list_elem_of_fmap. exists power. split; [|by apply Hall].
    subst cc. rewrite (countsOf_lookup _ _ l Hc Hl); [done|]. by apply Hproto.
Qed.

(** ** Who owns a supply centre *)

Lemma ownership_inner (m : gmap string string) owner provs P :
  foldl (λ m p, <[toUpperCase p := owner]> m) m provs !! P
  = if decide (P ∈ map toUpperCase provs) then Some owner else m !! P.
Proof.
  revert m. induction provs as [|p provs IH]; intros m.
  - cbn. rewrite decide_False; [done|]. apply not_elem_of_nil.
  - cbn [foldl map]. rewrite IH.
    destruct (decide (P ∈ map toUpperCase provs)) as [Hin|Hnin].
    + rewrite decide_True; [done|]. by right.
    + destruct (decide (toUpperCase p = P)) as [<-|Hne].
      * rewrite lookup_insert_eq, decide_True; [done|]. by left.
      * rewrite lookup_insert_ne by done. rewrite decide_False; [done|].
        intros [?|?]%elem_of_cons; congruence.
Qed.

Lemma ownershipOf_snoc cs power provs :
  ownershipOf (cs ++ [(power, provs)])
  = foldl (λ m p, <[toUpperCase p := toUpperCase power]> m) (ownershipOf cs) provs.
Proof. unfold ownershipOf. by rewrite foldl_app. Qed.

Lemma ownershipOf_listed cs P O :
  ownershipOf cs !! P = Some O →
  ∃ power provs p, (power, provs) ∈ cs ∧ p ∈ provs
    ∧ toUpperCase p = P ∧ toUpperCase power = O.
Proof.
  induction cs as [|x cs IH] using rev_ind.
  { unfold ownershipOf. cbn. by rewrite lookup_empty. }
  destruct x as [power provs]. rewrite ownershipOf_snoc, ownership_inner.
  destruct (decide (P ∈ map toUpperCase provs)) as [Hin|Hnin].
  - intros [= <-]. apply list_elem_of_fmap in Hin as (p & -> & Hp).
    exists power, provs, p. split; [|done]. apply elem_of_app. right. by left.
  - intros (power' & provs' & p & Hin & Hp & HP & HO)%IH.
    exists power', provs', p. split; [|done]. apply elem_of_app. by left.
Qed.

Lemma truthy_toUpperCase s : truthy (toUpperCase s) = truthy s.
Proof. by destruct s. Qed.

Lemma truthy_ne s : truthy s = true ↔ s ≠ "".
Proof. unfold truthy. destruct s; cbn; split; done. Qed.

Lemma updateSupplyCenterOwnership_fold (m : gmap string string) markers :
  ∀ i done animated,
    let result :=
      foldl (λ '(i, markers, animated) mk,
               let mk' := colourMarker m mk in
               (S i, markers ++ [mk'],
                if pulsing mk' && negb (pulsing mk) then animated ++ [i]
                else animated))
            (i, done, animated) markers in
    result.1.2 = done ++ map (colourMarker m) markers
    ∧ animated `prefix_of` result.2.
Proof.
  induction markers as [|mk markers IH]; intros i done0 animated result.
  - subst result. cbn. by rewrite app_nil_r.
  - subst result. cbn [foldl].
    destruct (IH (S i) (done0 ++ [colourMarker m mk])
                (if pulsing (colourMarker m mk) && negb (pulsing mk)
                 then animated ++ [i] else animated)) as [H1 H2].
    cbn zeta in H1, H2. rewrite H1. split; [by rewrite <-app_assoc|].
    etrans; [|exact H2]. case_match; [by apply prefix_app_r|done].
Qed.

Lemma updateSupplyCenterOwnership_markers cs st :
  (updateSupplyCenterOwnership (Some cs) st).1
  = map (colourMarker (ownershipOf cs)) st.1
  ∧ st.2 `prefix_of` (updateSupplyCenterOwnership (Some cs) st).2.
Proof.
  unfold updateSupplyCenterOwnership.
  pose proof (updateSupplyCenterOwnership_fold (ownershipOf cs) st.1 0%nat [] st.2)
    as [H1 H2].
  cbn zeta in H1, H2. by destruct (foldl _ _ _) as [[i markers] animated].
Qed.

Lemma colourMarker_province m mk :
  markerProvince (colourMarker m mk) = markerProvince mk.
Proof. unfold colourMarker. by repeat case_match. Qed.

Lemma colourMarker_again m m' mk :
  colourMarker m (colourMarker m' mk) = colourMarker m mk.
Proof. unfold colourMarker at 1 3. by rewrite colourMarker_province. Qed.

(** X22.  The colours and the pulse of the supply-centre markers after
    the colouring for a phase with supply-centre data depend on that
    phase alone, whatever was shown before; a phase without such data
    leaves the markers of the phase before as they are; and the list of
    animated objects never loses an entry. *)
Theorem supply_centre_colours_follow_phase (cs : list (string * list string))
    (before : option (list (string * list string))) (st : list Marker * list nat) :
  (updateSupplyCenterOwnership (Some cs) (updateSupplyCenterOwnership before st)).1
  = map (colourMarker (ownershipOf cs)) st.1
  ∧ (updateSupplyCenterOwnership (Some cs) st).1
    = map (colourMarker (ownershipOf cs)) st.1
  ∧ updateSupplyCenterOwnership None st = st
  ∧ st.2 `prefix_of`
      (updateSupplyCenterOwnership (Some cs) (updateSupplyCenterOwnership before st)).2.
Proof.
  destruct (updateSupplyCenterOwnership_markers cs st) as [H1 H2].
  destruct (updateSupplyCenterOwnership_markers cs
              (updateSupplyCenterOwnership before st)) as [H3 H4].
  split; [|split; [done|split; [done|]]].
  - rewrite H3. destruct before as [cs'|]; [|done].
    destruct (updateSupplyCenterOwnership_markers cs' st) as [-> _].
    rewrite map_map. apply map_ext. intros mk. apply colourMarker_again.
  - etrans; [|exact H4]. destruct before as [cs'|]; [|done].
    by destruct (updateSupplyCenterOwnership_markers cs' st) as [_ ?].
Qed.

(** X23.  A marker pulses in the colour of a power only when that power,
    with a name that is not empty, lists the marker's province, compared
    after raising the listed name to upper case; otherwise it is gold
    and does not pulse.  When several powers list the province the last
    one in the order of the object wins, and a marker whose own province
    key is not in upper case is never owned. *)
Theorem supply_centre_owner_is_last_listing (cs : list (string * list string))
    (mk : Marker) :
  let mk' := colourMarker (ownershipOf cs) mk in
  (pulsing mk' = true →
     ∃ power provs p, (power, provs) ∈ cs ∧ p ∈ provs ∧ power ≠ ""
       ∧ toUpperCase p = markerProvince mk
       ∧ starColor mk' = default gold (assoc (toUpperCase power) powerColors))
  ∧ (pulsing mk' = false → starColor mk' = gold)
  ∧ (toUpperCase (markerProvince mk) ≠ markerProvince mk →
     mk' = mkMarker (markerProvince mk) gold false)
  ∧ (∀ power provs p, p ∈ provs → power ≠ "" → toUpperCase p = markerProvince mk →
       colourMarker (ownershipOf (cs ++ [(power, provs)])) mk
       = mkMarker (markerProvince mk)
                  (default gold (assoc (toUpperCase power) powerColors)) true).
Proof.
  intros mk'. subst mk'. unfold colourMarker.
  split; [|split; [|split]].
  - destruct (ownershipOf cs !! markerProvince mk) as [owner|] eqn:Hown; [|done].
    destruct (truthy owner) eqn:Htruthy; [|done]. intros _.
    destruct (ownershipOf_listed cs _ _ Hown) as (power & provs & p & H1 & H2 & H3 & H4).
    exists power, provs, p. repeat (split; [done|]). subst owner.
    rewrite truthy_toUpperCase in Htruthy. split; [by apply truthy_ne|].
    split; done.
  - by repeat case_match.
  - intros Hcase.
    destruct (ownershipOf cs !! markerProvince mk) as [owner|] eqn:Hown; [|done].
    destruct (ownershipOf_listed cs _ _ Hown) as (power & provs & p & _ & _ & H3 & _).
    destruct Hcase. by rewrite <-H3, toUpperCase_idem.
  - intros power provs p Hp Hpower HP.
    rewrite ownershipOf_snoc, ownership_inner, decide_True.
    + rewrite truthy_toUpperCase. by apply truthy_ne in Hpower as ->.
    + apply list_elem_of_fmap. by exists p.
Qed.

(** ** The ownership map of the map module *)

Lemma claimProvince_keeps power m unitStr P O :
  m !! P = Some O → truthy O = true → claimProvince power m unitStr !! P = Some O.
Proof.
  intros Hm HO. unfold claimProvince.
  destruct (matchUnit unitStr) as [[t loc]|]; [|done].
  destruct (decide (splitHead "/" (toUpperCase loc) = P)) as [->|Hne].
  - by rewrite Hm, HO.
  - destruct (m !! splitHead "/" (toUpperCase loc)) as [owner|] eqn:Hown;
      [destruct (truthy owner); [done|]|]; by rewrite lookup_insert_ne.
Qed.

Lemma claimProvince_source power m unitStr P O :
  claimProvince power m unitStr !! P = Some O →
  m !! P = Some O
  ∨ ∃ t loc, matchUnit unitStr = Some (t, loc)
      ∧ splitHead "/" (toUpperCase loc) = P ∧ O = toUpperCase power.
Proof.
  unfold claimProvince.
  destruct (matchUnit unitStr) as [[t loc]|]; [|by left].
  destruct (m !! splitHead "/" (toUpperCase loc)) as [owner|] eqn:Hown;
    [destruct (truthy owner); [by left|]|];
    (destruct (decide (splitHead "/" (toUpperCase loc) = P)) as [<-|Hne];
     [rewrite lookup_insert_eq; intros [= <-]; right; by exists t, loc
     |rewrite lookup_insert_ne by done; by left]).
Qed.

Lemma claimProvince_covers power m unitStr t loc :
  matchUnit unitStr = Some (t, loc) →
  is_Some (claimProvince power m unitStr !! splitHead "/" (toUpperCase loc)).
Proof.
  intros Hm. unfold claimProvince. rewrite Hm.
  destruct (m !! splitHead "/" (toUpperCase loc)) as [owner|] eqn:Hown.
  - destruct (truthy owner); [by rewrite Hown|by rewrite lookup_insert_eq].
  - by rewrite lookup_insert_eq.
Qed.

Lemma claimProvince_present power m unitStr P :
  is_Some (m !! P) → is_Some (claimProvince power m unitStr !! P).
Proof.
  intros HP. unfold claimProvince.
  destruct (matchUnit unitStr) as [[t loc]|]; [|done].
  destruct (m !! splitHead "/" (toUpperCase loc)) as [owner|] eqn:Hown;
    [destruct (truthy owner); [done|]|];
    (destruct (decide (splitHead "/" (toUpperCase loc) = P)) as [<-|Hne];
     [by rewrite lookup_insert_eq|by rewrite lookup_insert_ne]).
Qed.

(** X24.  In the ownership map of the map module a province owned through
    a supply centre keeps that owner whatever units stand in it; every
    other entry comes from a unit string of the unit form standing in
    that province, coast dropped, and names the power of that unit; and
    every province in which such a unit stands has an entry. *)
Theorem buildOwnershipMap_centres_first (centers units : list (string * list string))
    (P : string) :
  (∀ O, ownershipOf centers !! P = Some O → O ≠ "" →
        buildOwnershipMap centers units !! P = Some O)
  ∧ (∀ O, buildOwnershipMap centers units !! P = Some O →
          ownershipOf centers !! P = Some O
          ∨ ∃ power unitArray unitStr t loc,
              (power, unitArray) ∈ units ∧ unitStr ∈ unitArray
              ∧ matchUnit unitStr = Some (t, loc)
              ∧ splitHead "/" (toUpperCase loc) = P ∧ O = toUpperCase power)
  ∧ (∀ power unitArray unitStr t loc,
       (power, unitArray) ∈ units → unitStr ∈ unitArray →
       matchUnit unitStr = Some (t, loc) →
       splitHead "/" (toUpperCase loc) = P →
       is_Some (buildOwnershipMap centers units !! P)).
Proof.
  unfold buildOwnershipMap. generalize (ownershipOf centers). intros m0.
  assert (Hinner : ∀ power unitArray m,
    (∀ O, m !! P = Some O → truthy O = true →
          foldl (claimProvince power) m unitArray !! P = Some O)
    ∧ (∀ O, foldl (claimProvince power) m unitArray !! P = Some O →
            m !! P = Some O
            ∨ ∃ unitStr t loc, unitStr ∈ unitArray ∧ matchUnit unitStr = Some (t, loc)
                ∧ splitHead "/" (toUpperCase loc) = P ∧ O = toUpperCase power)
    ∧ (is_Some (m !! P) → is_Some (foldl (claimProvince power) m unitArray !! P))
    ∧ (∀ unitStr t loc, unitStr ∈ unitArray → matchUnit unitStr = Some (t, loc) →
         splitHead "/" (toUpperCase loc) = P →
         is_Some (foldl (claimProvince power) m unitArray !! P))).
  { intros power unitArray.
    induction unitArray as [|unitStr unitArray IH]; intros m.
    { split; [done|]. split; [by left|]. split; [done|].
      intros unitStr t loc Hin. by apply not_elem_of_nil in Hin. }
    cbn [foldl].
    destruct (IH (claimProvince power m unitStr)) as (I1 & I2 & I3 & I4).
    split; [|split; [|split]].
    - intros O Hm HO. apply I1; [|done]. by apply claimProvince_keeps.
    - intros O [Hc|(u & t & loc & Hu & Hmu & Hloc & HO)]%I2.
      + apply claimProvince_source in Hc as [?|(t & loc & Hmu & Hloc & HO)];
          [by left|].
        right. exists unitStr, t, loc. split; [by left|done].
      + right. exists u, t, loc. split; [by right|done].
    - intros Hm. by apply I3, claimProvince_present.
    - intros u t loc [->|Hu]%elem_of_cons Hmu Hloc.
      + apply I3. rewrite <-Hloc. by eapply claimProvince_covers.
      + by eapply I4. }
  revert m0. induction units as [|[power unitArray] units IH]; intros m0.
  { split; [done|]. split; [by left|].
    intros power unitArray unitStr t loc Hin. by apply not_elem_of_nil in Hin. }
  cbn [foldl].
  destruct (Hinner power unitArray m0) as (I1 & I2 & I3 & I4).
  destruct (IH (foldl (claimProvince power) m0 unitArray)) as (J1 & J2 & J3).
  assert (Hsome : ∀ units' m, is_Some (m !! P) →
            is_Some (foldl (λ m '(power, unitArray),
                              foldl (claimProvince power) m unitArray) m units' !! P)).
  { clear -Hinner. induction units' as [|[power' arr'] units' IH']; intros m Hm; [done|].
    cbn [foldl]. apply IH'. by apply (Hinner power' arr' m). }
  split; [|split].
  - intros O Hm HO. apply J1; [|done]. apply I1; [done|]. by apply truthy_ne.
  - intros O [Hc|(power' & arr' & u & t & loc & Hin & Hrest)]%J2.
    + apply I2 in Hc as [?|(u & t & loc & Hu & Hrest)]; [by left|].
      right. exists power, unitArray, u, t, loc. split; [by left|done].
    + right. exists power', arr', u, t, loc. split; [by right|done].
  - intros power' arr' u t loc [[= -> ->]|Hin]%elem_of_cons Hu Hmu Hloc.
    + apply Hsome. by eapply I4.
    + by eapply J3.
Qed.

(** ** Who owns a province *)

Lemma sameOwners_dom b b' k : sameOwners b b' → is_Some (b !! k) ↔ is_Some (b' !! k).
Proof.
  intros H. specialize (H k).
  destruct (b !! k), (b' !! k); try done; split; intros [? ?]; done.
Qed.

Lemma ownProvince_sameOwners base power b b' :
  sameOwners b b' → sameOwners (ownProvince base power b) (ownProvince base power b').
Proof.
  intros H. unfold ownProvince. pose proof (H base) as Hbase.
  destruct (b !! base) as [p|] eqn:Hp, (b' !! base) as [q|] eqn:Hq; try done.
  intros k. destruct (decide (base = k)) as [<-|Hne].
  - by rewrite !lookup_insert_eq.
  - rewrite !lookup_insert_ne by done. apply H.
Qed.

Lemma ownByRecords_sameOwners recs b b' :
  sameOwners b b' → sameOwners (ownByRecords recs b) (ownByRecords recs b').
Proof.
  unfold ownByRecords. revert b b'.
  induction recs as [|[location power] recs IH]; intros b b' H; [done|].
  cbn [foldl]. apply IH. case_match; [|done]. by apply ownProvince_sameOwners.
Qed.

Lemma ownByStrings_sameOwners us b b' :
  sameOwners b b' → sameOwners (ownByStrings us b) (ownByStrings us b').
Proof.
  unfold ownByStrings. revert b b'.
  induction us as [|[power arr] us IH]; intros b b' H; [done|].
  cbn [foldl]. apply IH. clear IH. revert b b' H.
  induction arr as [|unitStr arr IHa]; intros b b' H; [done|].
  cbn [foldl]. apply IHa. destruct (matchUnit unitStr) as [[t loc]|]; [|done].
  by apply ownProvince_sameOwners.
Qed.

Lemma ownProvince_sameButOwners base power b0 b :
  sameButOwners b0 b → sameButOwners b0 (ownProvince base power b).
Proof.
  intros H. unfold ownProvince.
  destruct (b !! base) as [p|] eqn:Hp; [|done].
  intros k. destruct (decide (base = k)) as [<-|Hne].
  - rewrite lookup_insert_eq. specialize (H base). rewrite Hp in H.
    by destruct (b0 !! base).
  - rewrite lookup_insert_ne by done. apply H.
Qed.

Lemma ownByRecords_sameButOwners recs b0 b :
  sameButOwners b0 b → sameButOwners b0 (ownByRecords recs b).
Proof.
  unfold ownByRecords. revert b.
  induction recs as [|[location power] recs IH]; intros b H; [done|].
  cbn [foldl]. apply IH. case_match; [|done]. by apply ownProvince_sameButOwners.
Qed.

Lemma ownByStrings_sameButOwners us b0 b :
  sameButOwners b0 b → sameButOwners b0 (ownByStrings us b).
Proof.
  unfold ownByStrings. revert b.
  induction us as [|[power arr] us IH]; intros b H; [done|].
  cbn [foldl]. apply IH. clear IH. revert b H.
  induction arr as [|unitStr arr IHa]; intros b H; [done|].
  cbn [foldl]. apply IHa. destruct (matchUnit unitStr) as [[t loc]|]; [|done].
  by apply ownProvince_sameButOwners.
Qed.

Lemma cleared_sameButOwners b : sameButOwners b (set_provOwner "" <$> b).
Proof. intros k. rewrite lookup_fmap. by destruct (b !! k). Qed.

Lemma cleared_sameOwners b b' :
  (∀ k, is_Some (b !! k) ↔ is_Some (b' !! k)) →
  sameOwners (set_provOwner "" <$> b) (set_provOwner "" <$> b').
Proof.
  intros H k. rewrite !lookup_fmap. specialize (H k).
  destruct (b !! k), (b' !! k); try done; cbn;
    [by destruct (proj1 H)|by destruct (proj2 H)].
Qed.

Lemma tint_sameOwners (importedPowerHexColor : string → string) b b' :
  sameOwners b b' → sameOwners (tintProvince importedPowerHexColor <$> b) (tintProvince importedPowerHexColor <$> b').
Proof.
  intros H k. rewrite !lookup_fmap. specialize (H k).
  destruct (b !! k) as [p|], (b' !! k) as [q|]; try done. cbn.
  unfold tintProvince. by repeat case_match.
Qed.

(** The board before the last loop. *)
Lemma updateMapOwnership_owned (importedPowerHexColor : string → string) recs phase
    board :
  ∃ owned, updateMapOwnership importedPowerHexColor recs phase board = tintProvince importedPowerHexColor <$> owned
    ∧ sameButOwners board owned
    ∧ ∀ board', (∀ k, is_Some (board !! k) ↔ is_Some (board' !! k)) →
        ∃ owned', updateMapOwnership importedPowerHexColor recs phase board' = tintProvince importedPowerHexColor <$> owned'
          ∧ sameOwners owned owned'.
Proof.
  unfold updateMapOwnership. destruct recs as [|r recs].
  - eexists. split; [done|]. split.
    + apply ownByStrings_sameButOwners, cleared_sameButOwners.
    + intros board' Hdom. eexists. split; [done|].
      by apply ownByStrings_sameOwners, cleared_sameOwners.
  - eexists. split; [done|]. split.
    + apply ownByRecords_sameButOwners, cleared_sameButOwners.
    + intros board' Hdom. eexists. split; [done|].
      by apply ownByRecords_sameOwners, cleared_sameOwners.
Qed.

Lemma ownByStrings_source us b k p :
  ownByStrings us b !! k = Some p →
  (∃ p0, b !! k = Some p0 ∧ provOwner p = provOwner p0)
  ∨ ∃ power unitArr unitStr t loc,
      (power, unitArr) ∈ us ∧ unitStr ∈ unitArr
      ∧ matchUnit unitStr = Some (t, loc) ∧ baseOf loc = k ∧ provOwner p = power.
Proof.
  assert (Hown : ∀ base power b p,
            ownProvince base power b !! k = Some p →
            (∃ p0, b !! k = Some p0 ∧ provOwner p = provOwner p0)
            ∨ (base = k ∧ provOwner p = power)).
  { clear. intros base power b p. unfold ownProvince.
    destruct (b !! base) as [q|] eqn:Hq.
    - destruct (decide (base = k)) as [<-|Hne].
      + rewrite lookup_insert_eq. intros [= <-]. by right.
      + rewrite lookup_insert_ne by done. intros H. left. by exists p.
    - intros H. left. by exists p. }
  unfold ownByStrings. revert b p.
  induction us as [|[power arr] us IH]; intros b p Hp.
  { left. by exists p. }
  cbn [foldl] in Hp.
  apply IH in Hp as [(p0 & Hp0 & Hown0)|(power' & arr' & u & t & loc & Hin & Hrest)].
  2:{ right. exists power', arr', u, t, loc. split; [by right|done]. }
  assert (Hinner : ∀ b p0,
    foldl (λ b unitStr,
             match matchUnit unitStr with
             | Some (_, location) => ownProvince (baseOf location) power b
             | None => b
             end) b arr !! k = Some p0 →
    (∃ p1, b !! k = Some p1 ∧ provOwner p0 = provOwner p1)
    ∨ ∃ unitStr t loc, unitStr ∈ arr ∧ matchUnit unitStr = Some (t, loc)
        ∧ baseOf loc = k ∧ provOwner p0 = power).
  { clear -Hown. induction arr as [|unitStr arr IHa]; intros b p0 Hp0.
    { left. by exists p0. }
    cbn [foldl] in Hp0.
    apply IHa in Hp0 as [(p1 & Hp1 & Ho)|(u & t & loc & Hu & Hrest)].
    2:{ right. exists u, t, loc. split; [by right|done]. }
    destruct (matchUnit unitStr) as [[t loc]|] eqn:Hm.
    - apply Hown in Hp1 as [(p2 & Hp2 & Ho2)|[Hbase Ho2]].
      + left. exists p2. split; [done|]. congruence.
      + right. exists unitStr, t, loc. split; [by left|]. split; [done|].
        split; [done|]. congruence.
    - left. by exists p1. }
  apply Hinner in Hp0 as [(p1 & Hp1 & Ho)|(u & t & loc & Hu & Hrest)].
  - left. exists p1. split; [done|]. congruence.
  - right. exists power, arr, u, t, loc. split; [by left|].
    destruct Hrest as (? & ? & ?). repeat (split; [done|]). congruence.
Qed.

(** X25.  [updateMapOwnership] keeps the provinces of the board and
    forgets every owner it finds: the owners after the call are the same
    whatever the board held before, in particular after any earlier
    call.  Without an array of unit records, a province has an owner
    afterwards only when a unit string of the unit form of the phase
    stands in it, coast dropped, and the owner is the power of that
    unit. *)
Theorem map_owners_follow_phase (importedPowerHexColor : string → string)
    (unitRecords before : list (string * string))
    (phase earlier : Phase) (board : gmap string Province) :
  let after := updateMapOwnership importedPowerHexColor unitRecords phase board in
  dom after = dom board
  ∧ provOwner <$> updateMapOwnership importedPowerHexColor unitRecords phase
                    (updateMapOwnership importedPowerHexColor before earlier board)
    = provOwner <$> after
  ∧ (∀ k p, unitRecords = [] → after !! k = Some p → provOwner p ≠ "" →
       ∃ power unitArr unitStr t loc,
         (power, unitArr) ∈ units phase ∧ unitStr ∈ unitArr
         ∧ matchUnit unitStr = Some (t, loc) ∧ baseOf loc = k ∧ power = provOwner p).
Proof.
  intros after. subst after.
  assert (Hdom : ∀ recs ph b k,
            is_Some (updateMapOwnership importedPowerHexColor recs ph b !! k) ↔ is_Some (b !! k)).
  { intros recs ph b k.
    destruct (updateMapOwnership_owned importedPowerHexColor recs ph b) as (owned & -> & Hsame & _).
    rewrite lookup_fmap. specialize (Hsame k).
    destruct (b !! k), (owned !! k); try done; cbn; split; intros [? ?]; done. }
  split; [|split].
  - apply set_eq. intros k. rewrite !elem_of_dom. apply Hdom.
  - destruct (updateMapOwnership_owned importedPowerHexColor unitRecords phase board)
      as (owned & -> & _ & Hany).
    destruct (Hany (updateMapOwnership importedPowerHexColor before earlier board))
      as (owned' & -> & Hsame).
    { intros k. symmetry. apply Hdom. }
    apply map_eq. intros k. rewrite !lookup_fmap. specialize (Hsame k).
    destruct (owned !! k) as [p|], (owned' !! k) as [q|]; try done. cbn.
    f_equal. unfold tintProvince. by repeat case_match.
  - intros k p -> Hp Howner. unfold updateMapOwnership in Hp.
    rewrite lookup_fmap in Hp.
    destruct (ownByStrings (units phase) (set_provOwner "" <$> board) !! k)
      as [q|] eqn:Hq; [|done].
    injection Hp as <-.
    assert (provOwner (tintProvince importedPowerHexColor q) = provOwner q) as Htint
      by (unfold tintProvince; by case_match).
    rewrite Htint in Howner |- *.
    apply ownByStrings_source in Hq
      as [(p0 & Hp0 & Ho)|(power & arr & u & t & loc & H1 & H2 & H3 & H4 & H5)].
    + rewrite lookup_fmap in Hp0. destruct (board !! k); [|done].
      injection Hp0 as <-. by rewrite Ho in Howner.
    + by exists power, arr, u, t, loc.
Qed.

(** X26.  [updateMapOwnership] colours a province only when it has an
    owner afterwards, is not water and has a mesh, and then with the
    number read from the colour string that the imported
    [getPowerHexColor] returns for the owner: a colour of 24 bits when
    that string has the notation [#rrggbb]; every other province keeps
    the colour it had, so a province that has lost its owner still shows
    the colour of the owner before. *)
Theorem map_tints_owned_land (importedPowerHexColor : string → string)
    (unitRecords : list (string * string)) (phase : Phase)
    (board : gmap string Province) (k : string) (p' : Province) :
  updateMapOwnership importedPowerHexColor unitRecords phase board !! k = Some p' →
  ∃ p, board !! k = Some p
    ∧ provIsWater p' = provIsWater p ∧ provHasMesh p' = provHasMesh p
    ∧ if truthy (provOwner p') && negb (provIsWater p) && provHasMesh p
      then provColor p' = colourNumber (importedPowerHexColor (provOwner p'))
           ∧ (isHexColor (importedPowerHexColor (provOwner p')) = true →
              ∃ n, provColor p' = Rgb n ∧ 0 ≤ n < 16777216)
      else provColor p' = provColor p.
Proof.
  destruct (updateMapOwnership_owned importedPowerHexColor unitRecords phase board)
    as (owned & -> & Hsame & _).
  rewrite lookup_fmap. specialize (Hsame k).
  destruct (owned !! k) as [q|] eqn:Hq; [|done]. intros [= <-].
  destruct (board !! k) as [p|]; [|done]. destruct Hsame as (Hw & Hm & Hc).
  exists p. split; [done|]. unfold tintProvince. rewrite Hw, Hm.
  destruct (truthy (provOwner q) && negb (provIsWater p) && provHasMesh p) eqn:Hcond;
    cbn [provIsWater provHasMesh provColor provOwner]; rewrite ?Hcond.
  - split; [done|]. split; [done|]. split; [done|]. apply colourNumber_rgb.
  - done.
Qed.

(** ** Neighbouring provinces *)

Lemma link_lookup a b (adj : gmap string (list string)) la lb x :
  a ≠ b → adj !! a = Some la → adj !! b = Some lb →
  link a b adj !! x
  = if decide (x = a) then Some (la ++ [b])
    else if decide (x = b) then Some (lb ++ [a]) else adj !! x.
Proof.
  intros Hab Ha Hb. unfold link, pushNeighbour. rewrite Ha.
  rewrite lookup_insert_ne by done. rewrite Hb.
  destruct (decide (x = a)) as [->|Hxa].
  - rewrite lookup_insert_ne by done. by rewrite lookup_insert_eq.
  - destruct (decide (x = b)) as [->|Hxb].
    + by rewrite lookup_insert_eq.
    + by rewrite !lookup_insert_ne by done.
Qed.

Lemma link_tidy a b (adj : gmap string (list string)) la lb :
  tidy adj → a ≠ b → adj !! a = Some la → adj !! b = Some lb → b ∉ la →
  tidy (link a b adj).
Proof.
  intros Htidy Hab Ha Hb Hnew.
  destruct (Htidy a la Ha) as (Hnda & Hia & Hsa).
  destruct (Htidy b lb Hb) as (Hndb & Hib & Hsb).
  assert (a ∉ lb) as Hnew'.
  { intros Hin. destruct (Hsb a Hin) as (la' & Ha' & Hin'). congruence. }
  intros x lx. rewrite (link_lookup a b adj la lb x Hab Ha Hb).
  destruct (decide (x = a)) as [->|Hxa]; [|destruct (decide (x = b)) as [->|Hxb]].
  - intros [= <-]. split; [|split].
    + apply NoDup_app. split; [done|]. split; [|apply NoDup_singleton].
      by intros y Hy ->%list_elem_of_singleton.
    + intros [?|?%list_elem_of_singleton]%elem_of_app; done.
    + intros y [Hy| ->%list_elem_of_singleton]%elem_of_app.
      * destruct (Hsa y Hy) as (ly & Hly & Hin).
        rewrite (link_lookup a b adj la lb y Hab Ha Hb).
        rewrite decide_False by congruence. rewrite decide_False by congruence.
        by exists ly.
      * rewrite (link_lookup a b adj la lb b Hab Ha Hb).
        rewrite decide_False by done. rewrite decide_True by done.
        eexists. split; [done|]. apply elem_of_app. right. by left.
  - intros [= <-]. split; [|split].
    + apply NoDup_app. split; [done|]. split; [|apply NoDup_singleton].
      by intros y Hy ->%list_elem_of_singleton.
    + intros [?|?%list_elem_of_singleton]%elem_of_app; done.
    + intros y [Hy| ->%list_elem_of_singleton]%elem_of_app.
      * destruct (Hsb y Hy) as (ly & Hly & Hin).
        rewrite (link_lookup a b adj la lb y Hab Ha Hb).
        rewrite decide_False by congruence. rewrite decide_False by congruence.
        by exists ly.
      * rewrite (link_lookup a b adj la lb a Hab Ha Hb).
        rewrite decide_True by done.
        eexists. split; [done|]. apply elem_of_app. right. by left.
  - intros Hx. destruct (Htidy x lx Hx) as (Hndx & Hix & Hsx).
    split; [done|]. split; [done|]. intros y Hy.
    destruct (Hsx y Hy) as (ly & Hly & Hin).
    rewrite (link_lookup a b adj la lb y Hab Ha Hb).
    destruct (decide (y = a)) as [->|Hya]; [|destruct (decide (y = b)) as [->|Hyb]].
    + eexists. split; [done|]. apply elem_of_app. left. congruence.
    + eexists. split; [done|]. apply elem_of_app. left. congruence.
    + by exists ly.
Qed.

Lemma link_dom a b (adj : gmap string (list string)) x :
  is_Some (link a b adj !! x) ↔ is_Some (adj !! x).
Proof.
  assert (Hpush : ∀ a b (adj : gmap string (list string)),
            is_Some (pushNeighbour a b adj !! x) ↔ is_Some (adj !! x)).
  { clear. intros a b adj. unfold pushNeighbour.
    destruct (adj !! a) as [l|] eqn:Hl; [|done].
    destruct (decide (a = x)) as [<-|Hne].
    - rewrite lookup_insert_eq, Hl. split; by eexists.
    - by rewrite lookup_insert_ne. }
  unfold link. by rewrite !Hpush.
Qed.

Section Adjacency.

Variable near : string → string → bool.

Lemma pair_inner a rest :
  NoDup (a :: rest) →
  ∀ remaining (adj : gmap string (list string)),
    remaining `suffix_of` rest →
    (∀ x, x ∈ a :: rest → is_Some (adj !! x)) →
    tidy adj → apart adj rest rest → apart adj [a] remaining →
    let adj' := foldl (λ adj b, if near a b then link a b adj else adj) adj remaining in
    tidy adj' ∧ apart adj' rest rest ∧ ∀ x, is_Some (adj' !! x) ↔ is_Some (adj !! x).
Proof.
  intros Hnd. apply NoDup_cons in Hnd as [Ha Hrest].
  induction remaining as [|b rem IH]; intros adj Hsuf Hdom Htidy Hrr Har adj'.
  { by subst adj'. }
  subst adj'. cbn [foldl].
  assert (b ∈ rest) as Hb.
  { destruct Hsuf as [pre ->]. apply elem_of_app. right. by left. }
  assert (rem `suffix_of` rest) as Hsuf'.
  { destruct Hsuf as [pre ->]. exists (pre ++ [b]). by rewrite <-app_assoc. }
  assert (NoDup (b :: rem)) as Hndb.
  { destruct Hsuf as [pre ->]. by apply NoDup_app in Hrest as (_ & _ & ?). }
  apply NoDup_cons in Hndb as [Hbrem _].
  destruct (near a b).
  - destruct (Hdom a) as [la Hla]; [by left|].
    destruct (Hdom b) as [lb Hlb]; [by right|].
    assert (a ≠ b) as Hab by (intros ->; done).
    assert (b ∉ la) as Hnew.
    { apply (Har a b la); [by left|by left|done]. }
    destruct (IH (link a b adj) Hsuf') as (H1 & H2 & H3).
    + intros x Hx. apply link_dom. by apply Hdom.
    + by eapply link_tidy.
    + intros x y lx Hx Hy. rewrite (link_lookup a b adj la lb x Hab Hla Hlb).
      rewrite decide_False by (intros ->; done).
      destruct (decide (x = b)) as [->|Hxb].
      * intros [= <-] [Hin|Hin%list_elem_of_singleton]%elem_of_app.
        -- by apply (Hrr b y lb).
        -- by subst.
      * intros Hlx. by apply (Hrr x y lx).
    + intros x y lx ->%list_elem_of_singleton Hy.
      rewrite (link_lookup a b adj la lb a Hab Hla Hlb), decide_True by done.
      intros [= <-] [Hin|Hin%list_elem_of_singleton]%elem_of_app.
      * apply (Har a y la); [by left|by right|done|done].
      * by subst.
    + split; [done|]. split; [done|]. intros x. by rewrite H3, link_dom.
  - apply IH; try done. intros x y lx Hx Hy. apply Har; [done|by right].
Qed.

Lemma pairLoop_tidy keys :
  NoDup keys →
  ∀ adj : gmap string (list string),
    (∀ x, x ∈ keys → is_Some (adj !! x)) → tidy adj → apart adj keys keys →
    tidy (pairLoop near keys adj)
    ∧ ∀ x, is_Some (pairLoop near keys adj !! x) ↔ is_Some (adj !! x).
Proof.
  induction 1 as [|a rest Ha Hrest IH]; intros adj Hdom Htidy Hapart; [done|].
  cbn [pairLoop].
  destruct (pair_inner a rest) with (remaining := rest) (adj := adj)
    as (H1 & H2 & H3); try done.
  { by apply NoDup_cons. }
  { intros x y lx Hx Hy. apply Hapart; by right. }
  { intros x y lx ->%list_elem_of_singleton Hy. apply Hapart; [by left|by right]. }
  assert (Hdom' : ∀ x, x ∈ rest →
            is_Some (foldl (λ adj b, if near a b then link a b adj else adj) adj rest
                     !! x)).
  { intros x Hx. apply H3, Hdom. by right. }
  destruct (IH _ Hdom' H1 H2) as [J1 J2].
  split; [done|]. intros x. by rewrite J2, H3.
Qed.

End Adjacency.

Lemma addKnown_tidy (adj : gmap string (list string)) :
  tidy adj →
  tidy (addKnown adj) ∧ ∀ x, is_Some (addKnown adj !! x) ↔ is_Some (adj !! x).
Proof.
  unfold addKnown.
  assert (Hdistinct : Forall (λ entry : string * list string, entry.1 ∉ entry.2)
                        knownAdjacencies).
  { repeat constructor; cbn; intros Hin;
      repeat (apply elem_of_cons in Hin as [Hin|Hin]; [done|]);
      by apply not_elem_of_nil in Hin. }
  revert adj. induction Hdistinct as [|[prov neighbors] known Hp _ IH]; intros adj Htidy.
  { done. }
  cbn [foldl]. cbn [fst snd] in Hp.
  assert (Hinner : ∀ ns (adj : gmap string (list string)),
            prov ∉ ns → tidy adj →
            let adj' := foldl (λ adj n,
                                 match adj !! n, adj !! prov with
                                 | Some _, Some l =>
                                     if bool_decide (n ∈ l) then adj else link prov n adj
                                 | _, _ => adj
                                 end) adj ns in
            tidy adj' ∧ ∀ x, is_Some (adj' !! x) ↔ is_Some (adj !! x)).
  { clear. induction ns as [|n ns IHn]; intros adj Hp Htidy adj'.
    { by subst adj'. }
    subst adj'. cbn [foldl]. apply not_elem_of_cons in Hp as [Hne Hp].
    destruct (adj !! n) as [ln|] eqn:Hn; [|by apply IHn].
    destruct (adj !! prov) as [lp|] eqn:Hprov; [|by apply IHn].
    destruct (bool_decide (n ∈ lp)) eqn:Hin; [by apply IHn|].
    apply bool_decide_eq_false in Hin.
    destruct (IHn (link prov n adj) Hp) as [H1 H2].
    { by eapply link_tidy. }
    split; [done|]. intros x. by rewrite H2, link_dom. }
  destruct (adj !! prov) as [lp|] eqn:Hprov.
  - destruct (Hinner neighbors adj Hp Htidy) as [H1 H2].
    destruct (IH _ H1) as [J1 J2]. split; [done|]. intros x. by rewrite J2, H2.
  - by apply IH.
Qed.

Lemma adjacency_init keys (p : string) :
  foldl (λ (adj : gmap string (list string)) p1,
           if hasUnderscore p1 then adj else <[p1 := []]> adj) ∅ keys !! p
  = if decide (p ∈ keys ∧ hasUnderscore p = false) then Some [] else None.
Proof.
  induction keys as [|k keys IH] using rev_ind.
  { cbn. rewrite lookup_empty, decide_False; [done|].
    intros [Hin _]. by apply not_elem_of_nil in Hin. }
  rewrite foldl_app. cbn [foldl].
  destruct (hasUnderscore k) eqn:Hk.
  - rewrite IH. apply decide_ext. rewrite elem_of_app, list_elem_of_singleton.
    split; [intros [? ?]; split; [by left|done]|].
    intros [[?| ->] ?]; [done|congruence].
  - destruct (decide (k = p)) as [->|Hne].
    + rewrite lookup_insert_eq, decide_True; [done|].
      split; [|done]. apply elem_of_app. right. by left.
    + rewrite lookup_insert_ne by done. rewrite IH. apply decide_ext.
      rewrite elem_of_app, list_elem_of_singleton.
      split; [intros [? ?]; split; [by left|done]|].
      intros [[?| ->] ?]; [done|congruence].
Qed.

(** X27.  Whatever the distance test answers for the pairs, the table of
    neighbours that [buildAdjacencyList] returns has a list for exactly
    the keys of the coordinates without an underscore; no province is
    its own neighbour, no list names a province twice, and whenever a
    province lists another, the other lists it in turn. *)
Theorem buildAdjacencyList_symmetric (near : string → string → bool)
    (coordinateKeys : list string) :
  let adjacency := buildAdjacencyList near coordinateKeys in
  (∀ p, is_Some (adjacency !! p) ↔ p ∈ coordinateKeys ∧ hasUnderscore p = false)
  ∧ ∀ a la, adjacency !! a = Some la →
      NoDup la ∧ (a ∉ la) ∧ (∀ b, b ∈ la → ∃ lb, adjacency !! b = Some lb ∧ a ∈ lb).
Proof.
  intros adjacency. subst adjacency. unfold buildAdjacencyList.
  set (adj0 := foldl (λ (adj : gmap string (list string)) p1,
                        if hasUnderscore p1 then adj else <[p1 := []]> adj)
                     ∅ coordinateKeys).
  set (keys := newSet (filter (λ p1, hasUnderscore p1 = false) coordinateKeys)).
  destruct (newSet_spec (filter (λ p1, hasUnderscore p1 = false) coordinateKeys))
    as [Hnd Hin]. fold keys in Hnd, Hin.
  assert (Hinit : ∀ p, adj0 !! p
                  = if decide (p ∈ coordinateKeys ∧ hasUnderscore p = false)
                    then Some [] else None) by apply adjacency_init.
  assert (Htidy0 : tidy adj0).
  { intros a la. rewrite Hinit. case_decide; [|done]. intros [= <-].
    split; [constructor|]. split; [apply not_elem_of_nil|].
    intros b Hb. by apply not_elem_of_nil in Hb. }
  assert (Hapart0 : apart adj0 keys keys).
  { intros x y lx _ _. rewrite Hinit. case_decide; [|done]. intros [= <-].
    apply not_elem_of_nil. }
  assert (Hdom0 : ∀ x, x ∈ keys → is_Some (adj0 !! x)).
  { intros x Hx%Hin. apply list_elem_of_filter in Hx as [Hu Hx].
    rewrite Hinit, decide_True by done. by eexists. }
  destruct (pairLoop_tidy near keys Hnd adj0 Hdom0 Htidy0 Hapart0) as [H1 H2].
  destruct (addKnown_tidy _ H1) as [J1 J2].
  split; [|exact J1].
  intros p. rewrite J2, H2, Hinit. case_decide; split; done.
Qed.

(** ** Flipping an image *)

Section Rows.

Variable n : nat.

Lemma uniform_lookup R i r : uniform n R → R !! i = Some r → length r = n.
Proof.
  unfold uniform. rewrite Forall_forall. intros HR Hr. apply HR.
  by eapply list_elem_of_lookup_2.
Qed.

Lemma length_concat_uniform R : uniform n R → length (concat R) = (length R * n)%nat.
Proof.
  induction 1 as [|r R Hr _ IH]; [done|]. cbn. rewrite length_app, IH, Hr. lia.
Qed.

Lemma uniform_take R i : uniform n R → uniform n (take i R).
Proof. apply Forall_take. Qed.

Lemma uniform_drop R i : uniform n R → uniform n (drop i R).
Proof. apply Forall_drop. Qed.

Lemma concat_middle (R : list (list Z)) i r :
  R !! i = Some r → concat R = concat (take i R) ++ r ++ concat (drop (S i) R).
Proof.
  intros Hr. rewrite <-(take_drop_middle R i r Hr) at 1.
  by rewrite concat_app.
Qed.

Lemma length_take_rows R i :
  uniform n R → (i ≤ length R)%nat → length (concat (take i R)) = (i * n)%nat.
Proof.
  intros HR Hi. rewrite length_concat_uniform by by apply uniform_take.
  by rewrite length_take_le.
Qed.

Lemma slice_row R i r :
  uniform n R → R !! i = Some r → slice (i * n) (i * n + n) (concat R) = r.
Proof.
  intros HR Hr. pose proof (lookup_lt_Some _ _ _ Hr) as Hi.
  assert (length r = n) as Hlen.
  { by eapply uniform_lookup. }
  unfold slice. rewrite (concat_middle R i r Hr).
  rewrite drop_app_length' by (rewrite length_take_rows; [done|done|lia]).
  replace (i * n + n - i * n)%nat with n by lia.
  by rewrite take_app_length'.
Qed.

Lemma setAt_row R i r r' :
  uniform n R → R !! i = Some r → length r' = n →
  setAt r' (i * n) (concat R) = Some (concat (<[i := r']> R)).
Proof.
  intros HR Hr Hr'. pose proof (lookup_lt_Some _ _ _ Hr) as Hi.
  assert (length r = n) as Hlen.
  { by eapply uniform_lookup. }
  unfold setAt. rewrite Hr', (length_concat_uniform R HR).
  destruct (Nat.leb_spec (i * n + n) (length R * n)) as [_|Hlt]; [|nia].
  f_equal. rewrite (insert_take_drop R i r' Hi), concat_app. cbn [concat].
  rewrite (concat_middle R i r Hr) at 1 2.
  rewrite take_app_length' by (rewrite length_take_rows; [done|done|lia]).
  f_equal. f_equal.
  rewrite drop_app_ge by (rewrite length_take_rows; [lia|done|lia]).
  rewrite length_take_rows by (done || lia).
  replace (i * n + n - i * n)%nat with (length r) by lia.
  by rewrite drop_app_length.
Qed.

Lemma uniform_insert R i r' : uniform n R → length r' = n → uniform n (<[i := r']> R).
Proof. intros HR Hr'. by apply Forall_insert. Qed.

(** One round of the loop swaps the rows [y] and [height - y - 1]. *)
Lemma flipRows_step count y temp R ry rj :
  uniform n R → length temp = n →
  R !! y = Some ry → R !! (length R - y - 1)%nat = Some rj →
  flipRows (S count) y n (length R) temp (concat R)
  = flipRows count (S y) n (length R) ry
      (concat (<[(length R - y - 1)%nat := ry]> (<[y := rj]> R))).
Proof.
  intros HR Htemp Hy Hj. cbn [flipRows].
  pose proof (lookup_lt_Some _ _ _ Hy) as Hylt.
  pose proof (lookup_lt_Some _ _ _ Hj) as Hjlt.
  assert (length ry = n) as Hry.
  { by eapply uniform_lookup. }
  assert (length rj = n) as Hrj.
  { by eapply uniform_lookup. }
  rewrite (slice_row R y ry HR Hy), (slice_row R _ rj HR Hj).
  assert (setAt ry 0 temp = Some ry) as ->.
  { unfold setAt. rewrite Hry, Htemp. cbn [Nat.add].
    rewrite Nat.leb_refl. cbn [take app]. f_equal.
    rewrite drop_ge by lia. by rewrite app_nil_r. }
  cbn [mbind option_bind].
  rewrite (setAt_row R y ry rj HR Hy Hrj). cbn [mbind option_bind].
  assert (∃ r0, <[y := rj]> R !! (length R - y - 1)%nat = Some r0) as [r0 Hr0].
  { apply lookup_lt_is_Some. by rewrite length_insert. }
  rewrite <-(length_insert R y rj) at 1 2.
  rewrite (setAt_row (<[y := rj]> R) _ r0 ry); [|by apply uniform_insert|
    by rewrite length_insert|done].
  cbn [mbind option_bind]. by rewrite !length_insert.
Qed.

Lemma flipRows_rows R0 count :
  uniform n R0 →
  ∀ y temp R,
    uniform n R → mirrored y R0 R → length temp = n →
    (2 * (y + count) ≤ length R0 + 1)%nat →
    ∃ R', flipRows count y n (length R0) temp (concat R) = Some (concat R')
      ∧ uniform n R' ∧ mirrored (y + count) R0 R'.
Proof.
  intros HR0. induction count as [|count IH]; intros y temp R HR Hm Htemp Hle.
  { exists R. rewrite Nat.add_0_r. by cbn. }
  destruct Hm as [Hlen Hm].
  assert (y < length R0)%nat as Hy by lia.
  assert (length R0 - y - 1 < length R0)%nat as Hj by lia.
  destruct (lookup_lt_is_Some_2 R0 y Hy) as [ry Hry].
  destruct (lookup_lt_is_Some_2 R0 (length R0 - y - 1)%nat Hj) as [rj Hrj].
  assert (R !! y = Some ry) as Hy'.
  { rewrite (Hm y Hy). rewrite decide_False by lia. done. }
  assert (R !! (length R - y - 1)%nat = Some rj) as Hj'.
  { rewrite Hlen, (Hm _ Hj). destruct (decide (y = length R0 - y - 1)%nat) as [Heq|Hne].
    - rewrite decide_False by lia. done.
    - rewrite decide_False by lia. done. }
  rewrite <-Hlen. rewrite (flipRows_step count y temp R ry rj HR Htemp Hy' Hj').
  assert (length ry = n) as Hlry.
  { by eapply uniform_lookup. }
  assert (length rj = n) as Hlrj.
  { by eapply uniform_lookup. }
  rewrite Hlen.
  destruct (IH (S y) ry (<[(length R - y - 1)%nat := ry]> (<[y := rj]> R)))
    as (R' & Hrun & HR' & Hm').
  - apply uniform_insert; [by apply uniform_insert|done].
  - split; [by rewrite !length_insert|]. intros i Hi.
    rewrite Hlen.
    destruct (decide (i = length R0 - y - 1)%nat) as [->|Hij].
    + rewrite list_lookup_insert_eq by (rewrite length_insert; lia).
      rewrite decide_True by lia. rewrite <-Hry. f_equal. lia.
    + rewrite list_lookup_insert_ne by done.
      destruct (decide (i = y)) as [->|Hiy].
      * rewrite list_lookup_insert_eq by lia.
        rewrite decide_True by lia. rewrite <-Hrj. f_equal. lia.
      * rewrite list_lookup_insert_ne by done. rewrite (Hm i Hi).
        destruct (decide (i < y ∨ length R0 - y ≤ i)%nat).
        -- by rewrite decide_True by lia.
        -- by rewrite decide_False by lia.
  - done.
  - lia.
  - exists R'. rewrite Hlen in Hrun. split; [exact Hrun|]. split; [done|].
    by replace (y + S count)%nat with (S y + count)%nat by lia.
Qed.

Lemma rowsOf_spec count data :
  length data = (count * n)%nat →
  concat (rowsOf n count data) = data
  ∧ uniform n (rowsOf n count data) ∧ length (rowsOf n count data) = count.
Proof.
  revert data. induction count as [|count IH]; intros data Hlen.
  { destruct data; [|done]. repeat split. constructor. }
  cbn [rowsOf concat length].
  destruct (IH (drop n data)) as (H1 & H2 & H3).
  { rewrite length_drop. lia. }
  rewrite H1, take_drop, H3. split; [done|]. split; [|done].
  constructor; [|done]. rewrite length_take. lia.
Qed.

Lemma rowsOf_concat R : uniform n R → rowsOf n (length R) (concat R) = R.
Proof.
  induction 1 as [|r R Hr _ IH]; [done|]. cbn [length concat rowsOf].
  rewrite take_app_length' by done. rewrite drop_app_length' by done.
  by rewrite IH.
Qed.

End Rows.

(** X28.  For image data of [height] rows of [width] pixels of four bytes
    each, [flipImageDataVertically] ends without a range error and
    leaves the rows in the opposite order, each row as it was; flipping
    twice gives the image back. *)
Theorem flipImageDataVertically_reverses_rows (data : list Z) (width height : nat) :
  length data = (height * (width * 4))%nat →
  let flipped := concat (reverse (rowsOf (width * 4) height data)) in
  flipImageDataVertically data width height = Some flipped
  ∧ flipImageDataVertically flipped width height = Some data.
Proof.
  intros Hlen flipped.
  assert (Hflip : ∀ R, uniform (width * 4) R → length R = height →
            flipImageDataVertically (concat R) width height
            = Some (concat (reverse R))).
  { clear Hlen flipped. intros R HR <-. unfold flipImageDataVertically.
    pose proof (Nat.div_mod_eq (length R + 1) 2) as Hdiv.
    pose proof (Nat.mod_upper_bound (length R + 1) 2) as Hmod.
    destruct (flipRows_rows (width * 4) R ((length R + 1) / 2) HR 0
                (replicate (width * 4) 0) R HR) as (R' & Hrun & HR' & Hlen' & Hm').
    - split; [done|]. intros i Hi. rewrite decide_False by lia. done.
    - by rewrite length_replicate.
    - lia.
    - rewrite Hrun. f_equal. f_equal.
      apply list_eq. intros i.
      destruct (decide (i < length R)%nat) as [Hi|Hi].
      + rewrite (Hm' i Hi), reverse_lookup by done.
        rewrite decide_True by lia. f_equal. lia.
      + rewrite !lookup_ge_None_2; [done|rewrite length_reverse; lia|lia]. }
  destruct (rowsOf_spec (width * 4) height data Hlen) as (Hdata & HR & HlenR).
  subst flipped. split.
  - rewrite <-Hdata at 1. by apply Hflip.
  - rewrite Hflip.
    + by rewrite reverse_involutive, Hdata.
    + by apply Forall_reverse.
    + by rewrite length_reverse.
Qed.

(** ** The further properties at concrete inputs *)

Lemma matchUnit_reads_back_witness :
  matchUnit ("A" +:+ " " +:+ "PAR") = Some ("A", "PAR").
Proof. apply matchUnit_reads_back; [by left|done..]. Defined.

Lemma matchUnit_accepts_only_units_witness :
  matchUnit "F  LON" = Some ("F", "LON")
  ∧ ∃ ws, ws ≠ "" ∧ allSpaces ws = true ∧ "F  LON" = "F" +:+ ws +:+ "LON".
Proof.
  assert (matchUnit "F  LON" = Some ("F", "LON")) as H by reflexivity.
  split; [exact H|].
  exact (proj2 (proj2 (proj2 (matchUnit_accepts_only_units "F  LON" "F" "LON" H)))).
Defined.

Lemma getProvincePosition_ignores_case_witness :
  getProvincePosition (Some demoData) (toUpperCase "par")
  = getProvincePosition (Some demoData) "par".
Proof.
  apply (getProvincePosition_ignores_case demoData "par").
  left. vm_compute. discriminate.
Defined.

Lemma msgId_injective_witness :
  plainNames msgA1 ∧ mkMessage "ENGLAND" "FRANCE" 1 "Shall we talk?" = msgA1.
Proof.
  assert (plainNames msgA1) as H by (split; reflexivity).
  split; [exact H|].
  apply (msgId_injective (mkMessage "ENGLAND" "FRANCE" 1 "Shall we talk?") msgA1);
    [split; reflexivity|exact H|reflexivity].
Defined.

Lemma stepwise_reveal_matches_whole_witness :
  ∃ w', run demoCoordinates "FRANCE" (chainFires (nextHandle loadedPage) [1500; 3000])
            (updateChatWindows "FRANCE" 0 spring true loadedPage) = Some w'
    ∧ chatWindows w' = chatWindows (updateChatWindows "FRANCE" 0 spring false loadedPage)
    ∧ headNods w' = headNods (updateChatWindows "FRANCE" 0 spring false loadedPage)
    ∧ messagesPlaying w' = false.
Proof.
  apply (stepwise_reveal_matches_whole demoCoordinates "FRANCE"
           [LoadFile [spring; fall]] loadedPage 0 spring [1500; 3000]).
  - vm_compute. reflexivity.
  - vm_compute. reflexivity.
  - apply (bool_decide_unpack _). vm_compute. exact I.
Defined.

Lemma chat_windows_only_grow_witness :
  chatGrows (chatWindows loadedPage)
    (chatWindows (default pageLoad (run demoCoordinates "FRANCE" firstReveal loadedPage)))
  ∧ headNods loadedPage `prefix_of`
      headNods (default pageLoad (run demoCoordinates "FRANCE" firstReveal loadedPage)).
Proof.
  apply (chat_windows_only_grow demoCoordinates "FRANCE" firstReveal loadedPage);
    vm_compute; reflexivity.
Defined.

Lemma step_buttons_follow_playback_witness :
  buttonsFollow loadedPage
  ∧ buttonsFollow (default pageLoad (run demoCoordinates "FRANCE" firstReveal loadedPage)).
Proof.
  assert (buttonsFollow loadedPage) as H by (split; reflexivity).
  split; [exact H|].
  apply (step_buttons_follow_playback demoCoordinates "FRANCE" firstReveal loadedPage);
    [reflexivity|exact H|vm_compute; reflexivity].
Defined.

Lemma animations_run_1500_witness :
  Forall (λ anim, duration anim = 1500)
    (unitAnimations
       (default pageLoad
          (run demoCoordinates "FRANCE" (LoadFile [spring; fall] :: firstReveal) pageLoad))).
Proof.
  apply (animations_run_1500 demoCoordinates "FRANCE"
           (LoadFile [spring; fall] :: firstReveal)).
  vm_compute. reflexivity.
Defined.

Lemma finished_animations_leave_in_halves_witness :
  length (unitAnimations (animate demoCoordinates 2000 twoArrived)) = 1%nat
  ∧ timers (animate demoCoordinates 2000 twoArrived) = timers twoArrived.
Proof.
  assert (unitAnimations twoArrived ≠ []) as Hne by done.
  assert (Forall (finished 2000) (unitAnimations twoArrived)) as Hfin.
  { unfold twoArrived. simpl.
    repeat (apply Forall_cons_2; [unfold finished, animationDuration; simpl; lia|]).
    apply Forall_nil_2. }
  destruct (finished_animations_leave_in_halves demoCoordinates 2000 twoArrived Hne Hfin)
    as [H1 H2].
  split; [by rewrite H1|]. apply H2. simpl. lia.
Defined.

Lemma displayInitialPhase_meshes_witness :
  unitMeshes (displayInitialPhase demoCoordinates 0 loadedPage)
  = [SupplyCenterMesh "PAR"; SupplyCenterMesh "PAR"; UnitMesh "FRANCE" "A" "PAR"].
Proof.
  rewrite (proj1 (displayInitialPhase_meshes demoCoordinates 0 loadedPage
                    [spring; fall] spring eq_refl eq_refl)).
  reflexivity.
Defined.

Lemma displayPhaseWithAnimation_meshes_witness :
  unitMeshes (displayPhaseWithAnimation demoCoordinates "FRANCE" 0 1
                (loadGame demoCoordinates "FRANCE" [springSilent; fallSilent] pageLoad))
  = [SupplyCenterMesh "PAR"; UnitMesh "FRANCE" "A" "BUR"].
Proof.
  rewrite (displayPhaseWithAnimation_meshes demoCoordinates "FRANCE" 0 1
             (loadGame demoCoordinates "FRANCE" [springSilent; fallSilent] pageLoad)
             [springSilent; fallSilent] fallSilent eq_refl eq_refl).
  reflexivity.
Defined.

Lemma final_phase_names_first_leader_witness :
  PhaseTs.displayFinalPhase (λ _ s, s) beforeAutumn = beforeAutumn
  ∧ PhaseTs.leadingPower [("ENGLAND", ["LON"]); ("FRANCE", ["PAR"; "MAR"])]
    = ("FRANCE", 2%nat).
Proof.
  destruct (final_phase_names_first_leader (λ _ s, s) beforeAutumn autumn
              [("ENGLAND", ["LON"]); ("FRANCE", ["PAR"; "MAR"])] eq_refl eq_refl)
    as (_ & _ & _ & H).
  split; [|reflexivity]. rewrite H. by case_decide.
Defined.

Lemma colorShift_keeps_notation_witness :
  isHexColor "#0fa0d0" = true ∧ colorShift "#0fa0d0" 15 = "#11b8ef".
Proof.
  assert (isHexColor "#0fa0d0" = true) as H by reflexivity.
  split; [exact H|].
  destruct (colorShift_keeps_notation "#0fa0d0" 15 H) as (r & g & b & _).
  reflexivity.
Defined.

Lemma colorShift_extremes_witness :
  darkenColor "#0fa0d0" 100 = "#000000".
Proof.
  apply (proj1 (colorShift_extremes "#0fa0d0" 100 eq_refl)). lia.
Defined.

Lemma map_tints_owned_land_witness :
  ∃ p, demoBoard !! "PAR" = Some p
    ∧ provColor p = Rgb 0x444444
    ∧ updateMapOwnership demoColours [] autumn demoBoard !! "PAR"
      = Some (mkProvince "FRANCE" false true (Rgb 0x0fa0d0)).
Proof.
  assert (updateMapOwnership demoColours [] autumn demoBoard !! "PAR"
          = Some (mkProvince "FRANCE" false true (Rgb 0x0fa0d0))) as H
    by (vm_compute; reflexivity).
  destruct (map_tints_owned_land demoColours [] autumn demoBoard "PAR" _ H)
    as (p & Hp & _).
  exists p. split; [exact Hp|]. split; [|exact H].
  vm_compute in Hp. by injection Hp as <-.
Defined.

(** Where a name is inherited: a power named [__proto__] gets no count
    and no row, and a power named [constructor] that has units and no
    supply centre leaves the standings undetermined. *)
Example standings_with_inherited_names :
  updateLeaderboard
    (mkPhase "W1901A" [] [("__proto__", ["A PAR"]); ("FRANCE", ["A MAR"])]
             (Some [("FRANCE", ["MAR"])]))
  = Some [("FRANCE", 1%nat, 1%nat)]
  ∧ updateLeaderboard
      (mkPhase "W1901A" [] [("constructor", ["A PAR"]); ("FRANCE", ["A MAR"])]
               (Some [("FRANCE", ["MAR"])]))
    = None.
Proof. by vm_compute. Qed.

Lemma updateLeaderboard_standings_witness :
  updateLeaderboard autumn = Some [("FRANCE", 2%nat, 2%nat); ("ENGLAND", 1%nat, 1%nat)].
Proof.
  destruct (updateLeaderboard_standings autumn) as (rows & Hrows & _).
  - apply (bool_decide_unpack _). vm_compute. exact I.
  - rewrite Hrows. f_equal. vm_compute in Hrows. by injection Hrows as <-.
Defined.

Lemma flipImageDataVertically_reverses_rows_witness :
  flipImageDataVertically [1; 2; 3; 4; 5; 6; 7; 8] 1 2 = Some [5; 6; 7; 8; 1; 2; 3; 4].
Proof.
  exact (proj1 (flipImageDataVertically_reverses_rows [1; 2; 3; 4; 5; 6; 7; 8] 1 2
                  eq_refl)).
Defined.
